(** * Equoria genetics engine: a shallow embedding of [geneticsEngine.js]

    The development follows the source file function by function:
    [selectWeightedRandom], [generateStoreHorseGenetics],
    [applyPearlDilution], [determinePhenotype] and [calculateFoalGenetics].

    Conventions of the embedding.
    - JavaScript strings are [string]s of ASCII characters; case mapping,
      whitespace and ordering are the ASCII ones.
    - A JavaScript object is an association list in the order in which
      [for .. in] and [Object.keys] enumerate its own properties (for keys
      that are not array indices this is the order of insertion); a key
      that occurs twice denotes its first binding.
    - JavaScript numbers are rationals ([Q]); [NaN] and the infinities are
      left out.  A value that is not a number is [WOther].
    - [Math.random] reads the next element of a stream of draws in [0,1)
      held in the [World], next to the lines written with [console.error]
      and [console.warn].  The [console.log] traces are not modelled.
    - A genotype is an object whose properties are strings (allele pairs)
      or booleans (modifiers).  An argument that may be [null] or
      [undefined] is an [option]; a property access on [null] and a call
      of a string method on [true] throw a [TypeError], which an [async]
      function turns into a rejected promise. *)

From Stdlib Require Import String Ascii List Bool Arith ZArith QArith Qround Lia.
Import ListNotations.

Open Scope string_scope.
Open Scope list_scope.

(** ** Strings *)

Module JsString.

Definition is_upper (c : ascii) : bool :=
  let n := nat_of_ascii c in (65 <=? n)%nat && (n <=? 90)%nat.

Definition is_lower (c : ascii) : bool :=
  let n := nat_of_ascii c in (97 <=? n)%nat && (n <=? 122)%nat.

Definition lower_char (c : ascii) : ascii :=
  if is_upper c then ascii_of_nat (nat_of_ascii c + 32) else c.

Definition upper_char (c : ascii) : ascii :=
  if is_lower c then ascii_of_nat (nat_of_ascii c - 32) else c.

(** [\s] and the characters removed by [trim], within ASCII. *)
Definition is_space (c : ascii) : bool :=
  let n := nat_of_ascii c in ((9 <=? n)%nat && (n <=? 13)%nat) || (n =? 32)%nat.

Fixpoint toLowerCase (s : string) : string :=
  match s with
  | EmptyString => EmptyString
  | String c s' => String (lower_char c) (toLowerCase s')
  end.

(** [s.startsWith(p)] *)
Definition startsWith (s p : string) : bool := prefix p s.

(** [s.includes(sub)] *)
Fixpoint includes (s sub : string) : bool :=
  if prefix sub s then true
  else match s with
       | EmptyString => false
       | String _ s' => includes s' sub
       end.

(** [s.substring(n)] *)
Fixpoint drop (n : nat) (s : string) : string :=
  match n, s with
  | O, _ => s
  | S _, EmptyString => EmptyString
  | S k, String _ s' => drop k s'
  end.

(** [s.endsWith(p)] *)
Definition endsWith (s p : string) : bool :=
  (String.length p <=? String.length s)%nat
  && (drop (String.length s - String.length p) s =? p).

(** [s.split(sep)] for a separator of one character. *)
Fixpoint split (sep : ascii) (s : string) : list string :=
  match s with
  | EmptyString => [EmptyString]
  | String c s' =>
      if Ascii.eqb c sep then EmptyString :: split sep s'
      else match split sep s' with
           | h :: t => String c h :: t
           | [] => [String c EmptyString]
           end
  end.

Definition split_slash : string -> list string := split "/"%char.
Definition split_space : string -> list string := split " "%char.

(** [parts.join(' ')] *)
Definition join_space (parts : list string) : string := String.concat " " parts.

Fixpoint trimStart (s : string) : string :=
  match s with
  | EmptyString => EmptyString
  | String c s' => if is_space c then trimStart s' else s
  end.

Fixpoint trimEnd (s : string) : string :=
  match s with
  | EmptyString => EmptyString
  | String c s' =>
      let t := trimEnd s' in
      if is_space c && (t =? EmptyString) then EmptyString else String c t
  end.

Definition trim (s : string) : string := trimEnd (trimStart s).

(** Every maximal run of characters satisfying [p] becomes one space:
    [s.replace(/\s+/g, ' ')] with [p := is_space] and
    [s.replace(/  +/g, ' ')] with [p] the test for the space character
    (a run of one space is then replaced by itself). *)
Fixpoint squeeze (p : ascii -> bool) (inrun : bool) (s : string) : string :=
  match s with
  | EmptyString => EmptyString
  | String c s' =>
      if p c then
        if inrun then squeeze p true s' else String " " (squeeze p true s')
      else String c (squeeze p false s')
  end.

Definition collapse_whitespace (s : string) : string := squeeze is_space false s.
Definition collapse_spaces (s : string) : string :=
  squeeze (fun c => Ascii.eqb c " ") false s.

(** [s.replace(pat, rep)] with a string pattern: the first occurrence. *)
Fixpoint replace_first (pat rep s : string) : string :=
  if prefix pat s then rep ++ drop (String.length pat) s
  else match s with
       | EmptyString => EmptyString
       | String c s' => String c (replace_first pat rep s')
       end.

(** [s.replace(/pat/i, rep)] for a pattern of literal characters. *)
Fixpoint replace_first_ci (pat rep s : string) : string :=
  if prefix (toLowerCase pat) (toLowerCase s) then rep ++ drop (String.length pat) s
  else match s with
       | EmptyString => EmptyString
       | String c s' => String c (replace_first_ci pat rep s')
       end.

(** [s.replace(/pat/gi, rep)] for a non-empty pattern of literal
    characters: matches are taken from left to right and do not overlap;
    [skip] counts the characters of the current match still to be passed. *)
Fixpoint replace_all_ci_from (pat rep : string) (skip : nat) (s : string) : string :=
  match s with
  | EmptyString => EmptyString
  | String c s' =>
      match skip with
      | S k => replace_all_ci_from pat rep k s'
      | O =>
          if prefix (toLowerCase pat) (toLowerCase s)
          then rep ++ replace_all_ci_from pat rep (String.length pat - 1) s'
          else String c (replace_all_ci_from pat rep 0 s')
      end
  end.

Definition replace_all_ci (pat rep s : string) : string :=
  replace_all_ci_from pat rep 0 s.

(** [string.charAt(0).toUpperCase() + string.slice(1)] *)
Definition capitalizeFirstLetter (s : string) : string :=
  match s with
  | EmptyString => EmptyString
  | String c s' => String (upper_char c) s'
  end.

(** [[a, b].sort()]: the default comparison of strings by code unit. *)
Definition sort2 (a b : string) : list string :=
  if String.ltb b a then [b; a] else [a; b].

(** [xs.includes(x)] on an array of strings. *)
Definition mem (x : string) (xs : list string) : bool :=
  existsb (String.eqb x) xs.

End JsString.

(** ** JavaScript objects *)

(** An object is the list of the properties that it has itself, in the
    order of enumeration.  What it inherits from [Object.prototype] is
    left out: for a key such as [toString] or [__proto__], [o[k]] is not
    [undefined] in the code although [o] has no such property, and
    [o.__proto__ = v] stores none.  The statements whose truth depends
    on it are made for the other keys. *)

Module JsObj.

Definition obj (V : Type) : Type := list (string * V).

(** [o[k]]: [None] is [undefined]. *)
Fixpoint lookup {V} (o : obj V) (k : string) : option V :=
  match o with
  | [] => None
  | (k', v) :: rest => if String.eqb k' k then Some v else lookup rest k
  end.

Fixpoint dedup (seen : list string) (ks : list string) : list string :=
  match ks with
  | [] => []
  | k :: rest =>
      if JsString.mem k seen then dedup seen rest else k :: dedup (k :: seen) rest
  end.

(** [Object.keys(o)], also the order of [for (k in o)]. *)
Definition keys {V} (o : obj V) : list string := dedup [] (map fst o).

(** [o[k] = v] *)
Fixpoint set {V} (o : obj V) (k : string) (v : V) : obj V :=
  match o with
  | [] => [(k, v)]
  | (k', v') :: rest =>
      if String.eqb k' k then (k', v) :: rest else (k', v') :: set rest k v
  end.

End JsObj.

Import JsObj.

(** ** Numbers, randomness and the console *)

(** A property value where the code expects a number.  A number is a
    rational: sums, differences and products are exact, where the code
    rounds them to a double. *)
Inductive wval : Type :=
| WNum (q : Q)
| WOther.

(** One result of [Math.random()]: a number in [0,1). *)
Record draw : Type := Draw {
  draw_val : Q;
  draw_in_range : Qle_bool 0 draw_val && negb (Qle_bool 1 draw_val) = true
}.

Definition Qltb (a b : Q) : bool := negb (Qle_bool b a).

(** The lines written with [console.error] and [console.warn]. *)
Inductive diag : Type :=
| Error_InvalidWeightedItems
| Error_ProfileMissing
| Warn_DisallowedPair (allelePair gene : string)
| Warn_NoAllele (gene : string)
| Warn_NoAlleleWeights
| Warn_InvalidPrevalence (modifier : string)
| Warn_NoModifierPrevalence
| Warn_UnhandledChampagne
| Error_MissingParentOrProfile
| Warn_NoValidPair (gene : string).

Record World : Type := MkWorld {
  random_source : nat -> draw;
  random_next : nat;
  console : list diag
}.

(** Code that draws random numbers and writes to the console. *)
Definition Eff (A : Type) : Type := World -> A * World.

Definition ret {A} (a : A) : Eff A := fun w => (a, w).

Definition bind {A B} (m : Eff A) (f : A -> Eff B) : Eff B :=
  fun w => let r := m w in f (fst r) (snd r).

Declare Scope js_scope.
Delimit Scope js_scope with js.
Notation "x <- m ;; k" := (bind m (fun x => k))
  (at level 61, m at next level, right associativity) : js_scope.
Notation "' pat <- m ;; k" := (bind m (fun x => match x with pat => k end))
  (at level 61, pat pattern, m at next level, right associativity) : js_scope.
Notation "m ;; k" := (bind m (fun _ => k))
  (at level 61, right associativity) : js_scope.
Open Scope js_scope.

Definition Math_random : Eff Q :=
  fun w => (draw_val (random_source w (random_next w)),
            MkWorld (random_source w) (S (random_next w)) (console w)).

Definition emit (d : diag) : Eff unit :=
  fun w => (tt, MkWorld (random_source w) (random_next w) (console w ++ [d])).

(** [for (const x of xs) { acc = body(acc, x) }] *)
Fixpoint for_each {A X} (xs : list X) (body : A -> X -> Eff A) (acc : A) : Eff A :=
  match xs with
  | [] => ret acc
  | x :: rest => acc' <- body acc x ;; for_each rest body acc'
  end.

(** ** [selectWeightedRandom] (lines 14-62 of the source) *)

(** [typeof weightedItems[item] === 'number' && weightedItems[item] >= 0] *)
Definition valid_weight (o : obj wval) (item : string) : option Q :=
  match lookup o item with
  | Some (WNum q) => if Qle_bool 0 q then Some q else None
  | _ => None
  end.

Fixpoint sum_weights (o : obj wval) (items : list string) (sumOfWeights : Q) : Q :=
  match items with
  | [] => sumOfWeights
  | item :: rest =>
      match valid_weight o item with
      | Some q => sum_weights o rest (sumOfWeights + q)
      | None => sum_weights o rest sumOfWeights
      end
  end.

(** The second loop: [None] when it runs to its end without returning. *)
Fixpoint walk_weights (o : obj wval) (items : list string) (randomNum : Q) : option string :=
  match items with
  | [] => None
  | item :: rest =>
      match valid_weight o item with
      | Some q => if Qltb randomNum q then Some item else walk_weights o rest (randomNum - q)
      | None => walk_weights o rest randomNum
      end
  end.

Definition validItems (o : obj wval) : list string :=
  filter (fun key => match valid_weight o key with Some _ => true | None => false end) (keys o).

(** The argument is [None] for a value that is absent or not an object;
    the result is [None] for [null]. *)
Definition selectWeightedRandom (weightedItems : option (obj wval)) : Eff (option string) :=
  match weightedItems with
  | None => emit Error_InvalidWeightedItems ;; ret None
  | Some o =>
      match keys o with
      | [] => emit Error_InvalidWeightedItems ;; ret None
      | key0 :: _ =>
          let sumOfWeights := sum_weights o (keys o) 0 in
          if Qeq_bool sumOfWeights 0 then ret (Some key0)
          else
            r <- Math_random ;;
            match walk_weights o (keys o) (r * sumOfWeights) with
            | Some item => ret (Some item)
            | None => ret (last (map Some (validItems o)) None)
            end
      end
  end.

(** ** Genotypes and breed profiles *)

(** A property of a genotype object: an allele pair or a boolean modifier. *)
Inductive gval : Type :=
| GStr (s : string)
| GBool (b : bool).

Definition Genotype : Type := obj gval.

Record MarkingBias : Type := {
  face : option (obj wval);
  leg_specific_probabilities : option (obj wval);
  legs_general_probability : option Q;
  max_legs_marked : option Q
}.

Record AdvancedMarkingsBias : Type := {
  snowflake_probability_multiplier : option Q;
  frost_probability_multiplier : option Q;
  bloody_shoulder_probability_multiplier : option Q
}.

(** The [breed_genetic_profile] object; an absent property is [None]. *)
Record BreedProfile : Type := {
  allele_weights : option (obj (obj wval));
  disallowed_combinations : option (obj (list string));
  allowed_alleles : option (obj (list string));
  boolean_modifiers_prevalence : option (obj wval);
  shade_bias : option (obj (obj wval));
  marking_bias : option MarkingBias;
  advanced_markings_bias : option AdvancedMarkingsBias
}.

(** Truthiness of a string: the empty string is falsy. *)
Definition nonempty (s : string) : bool := negb (s =? "").

Definition truthy (v : option gval) : bool :=
  match v with
  | Some (GStr s) => nonempty s
  | Some (GBool b) => b
  | None => false
  end.

(** ** [generateStoreHorseGenetics] (lines 70-161) *)

(** [profile.disallowed_combinations && profile.disallowed_combinations[gene]
     && profile.disallowed_combinations[gene].includes(pair)] *)
Definition disallowed_includes (p : BreedProfile) (geneName allelePair : string) : bool :=
  match disallowed_combinations p with
  | Some dc =>
      match lookup dc geneName with
      | Some pairs => JsString.mem allelePair pairs
      | None => false
      end
  | None => false
  end.

(** The body of the loop over [allele_weights]. *)
Definition generate_gene (p : BreedProfile) (aw : obj (obj wval))
    (generatedGenotype : Genotype) (geneName : string) : Eff Genotype :=
  let weightedAlleles := lookup aw geneName in
  chosenAllelePair <- selectWeightedRandom weightedAlleles ;;
  match chosenAllelePair with
  | Some chosen =>
      if nonempty chosen then
        if disallowed_includes p geneName chosen then
          emit (Warn_DisallowedPair chosen geneName) ;; ret generatedGenotype
        else ret (set generatedGenotype geneName (GStr chosen))
      else emit (Warn_NoAllele geneName) ;; ret generatedGenotype
  | None => emit (Warn_NoAllele geneName) ;; ret generatedGenotype
  end.

(** The body of the loop over [boolean_modifiers_prevalence]. *)
Definition generate_modifier (bmp : obj wval)
    (generatedGenotype : Genotype) (modifierName : string) : Eff Genotype :=
  match lookup bmp modifierName with
  | Some (WNum prevalence) =>
      if Qle_bool 0 prevalence && Qle_bool prevalence 1 then
        r <- Math_random ;;
        ret (set generatedGenotype modifierName (GBool (Qltb r prevalence)))
      else
        emit (Warn_InvalidPrevalence modifierName) ;;
        ret (set generatedGenotype modifierName (GBool false))
  | _ =>
      emit (Warn_InvalidPrevalence modifierName) ;;
      ret (set generatedGenotype modifierName (GBool false))
  end.

Definition generate_genes (p : BreedProfile) (generatedGenotype : Genotype) : Eff Genotype :=
  match allele_weights p with
  | Some aw => for_each (keys aw) (generate_gene p aw) generatedGenotype
  | None => emit Warn_NoAlleleWeights ;; ret generatedGenotype
  end.

Definition generate_modifiers (p : BreedProfile) (generatedGenotype : Genotype) : Eff Genotype :=
  match boolean_modifiers_prevalence p with
  | Some bmp => for_each (keys bmp) (generate_modifier bmp) generatedGenotype
  | None => emit Warn_NoModifierPrevalence ;; ret generatedGenotype
  end.

(** The argument is [None] for [null] or [undefined]. *)
Definition generateStoreHorseGenetics (breedGeneticProfile : option BreedProfile) : Eff Genotype :=
  let generatedGenotype : Genotype := [] in
  match breedGeneticProfile with
  | None => emit Error_ProfileMissing ;; ret generatedGenotype
  | Some p =>
      withGenes <- generate_genes p generatedGenotype ;;
      generate_modifiers p withGenes
  end.

(** ** [calculateFoalGenetics] (lines 1179-1435) *)

(** [Math.floor(r * n)] *)
Definition random_index (r : Q) (n : nat) : nat :=
  Z.to_nat (Qfloor (r * inject_Z (Z.of_nat n))).

(** [None] is the [null] of the source; the draw is below 1, so the index
    is within the array (lemma [random_index_lt]). *)
Definition getParentAllele (allelePairString : option gval) : Eff (option string) :=
  match allelePairString with
  | Some (GStr s) =>
      if nonempty s && JsString.includes s "/" then
        let alleles := JsString.split_slash s in
        r <- Math_random ;;
        ret (nth_error alleles (random_index r (length alleles)))
      else ret None
  | _ => ret None
  end.

Definition orderPreservingGenes : list string := ["W"; "SW"; "EDXW"].

Definition recessiveLikes : list string :=
  ["n"; "w"; "patn1"; "nd1"; "nd2"; "lp"; "g"; "rn"; "to"; "o"; "sb1"; "mu";
   "e"; "a"; "ch"; "cr"; "z"; "prl"; "d"].

Definition dominantLike : list string :=
  ["Ch"; "Cr"; "Z"; "Prl"; "D"; "Mu"; "Lp"; "Rn"; "To"; "O"; "Sb1"].

Definition pair_of (first second : string) : string := first ++ "/" ++ second.

(** The loop over [orderPreservingGenes]; [None] when it returns nothing. *)
Fixpoint order_preserving (prefixes : list string) (allele1 allele2 : string) : option string :=
  match prefixes with
  | [] => None
  | prefix :: rest =>
      if JsString.startsWith allele1 prefix && negb (allele1 =? allele2) && (allele2 =? "w")
      then Some (pair_of allele1 allele2)
      else if JsString.startsWith allele2 prefix && negb (allele2 =? allele1) && (allele1 =? "w")
      then Some (pair_of allele2 allele1)
      else order_preserving rest allele1 allele2
  end.

Definition combineAlleles (allele1 allele2 : option string) : option string :=
  match allele1, allele2 with
  | Some a1, Some a2 =>
      let rec1 := JsString.mem (JsString.toLowerCase a1) recessiveLikes in
      let rec2 := JsString.mem (JsString.toLowerCase a2) recessiveLikes in
      if negb rec1 && rec2 then Some (pair_of a1 a2)
      else if rec1 && negb rec2 then Some (pair_of a2 a1)
      else
        match order_preserving orderPreservingGenes a1 a2 with
        | Some ordered => Some ordered
        | None =>
            if JsString.mem a1 dominantLike
               && ((a2 =? "n") || (a2 =? JsString.toLowerCase a1))
            then Some (pair_of a1 a2)
            else if JsString.mem a2 dominantLike
                    && ((a1 =? "n") || (a1 =? JsString.toLowerCase a2))
            then Some (pair_of a2 a1)
            else Some (String.concat "/" (JsString.sort2 a1 a2))
        end
  | _, _ => None
  end.

Definition booleanModifiers : list string := ["sooty"; "flaxen"; "pangare"; "rabicano"].

Definition genesToInherit (sire dam : Genotype) (p : BreedProfile) : list string :=
  match allowed_alleles p with
  | Some aa => keys aa
  | None =>
      filter (fun g => negb (JsString.mem g booleanModifiers))
             (dedup [] (keys sire ++ keys dam))
  end.

(** [table ? table[gene] || [] : []] *)
Definition listed (table : option (obj (list string))) (gene : string) : list string :=
  match table with
  | Some t => match lookup t gene with Some l => l | None => [] end
  | None => []
  end.

Definition MAX_ATTEMPTS : nat := 10.

(** The [while (attempts < MAX_ATTEMPTS)] loop; [remaining] is
    [MAX_ATTEMPTS - attempts].  The result is the final [foalAllelePair]. *)
Fixpoint sample_attempts (remaining : nat) (p : BreedProfile) (gene : string)
    (sireAllelePair damAllelePair : option gval) : Eff (option string) :=
  match remaining with
  | O => ret None
  | S fewer =>
      sirePassedAllele <- getParentAllele sireAllelePair ;;
      damPassedAllele <- getParentAllele damAllelePair ;;
      match sirePassedAllele, damPassedAllele with
      | Some _, Some _ =>
          match combineAlleles sirePassedAllele damPassedAllele with
          | Some foalAllelePair =>
              if negb (nonempty foalAllelePair) then ret None
              else
                let rejectedByAllowed :=
                  match allowed_alleles p with
                  | Some _ => negb (JsString.mem foalAllelePair (listed (allowed_alleles p) gene))
                  | None => false
                  end in
                if rejectedByAllowed
                then sample_attempts fewer p gene sireAllelePair damAllelePair
                else if JsString.mem foalAllelePair (listed (disallowed_combinations p) gene)
                then sample_attempts fewer p gene sireAllelePair damAllelePair
                else ret (Some foalAllelePair)
          | None => ret None
          end
      | _, _ => ret None
      end
  end.

Definition recessivePairs : list string :=
  ["n/n"; "w/w"; "e/e"; "a/a"; "g/g"; "rn/rn"; "lp/lp"; "to/to"; "o/o";
   "sb1/sb1"; "d/d"; "nd2/nd2"; "patn1/patn1"; "ch/ch"; "cr/cr"; "z/z";
   "prl/prl"; "mu/mu"].

(** The draw from [allele_weights[gene]]: [Some pair] when the loop
    [continue]s with that pair assigned. *)
Definition weights_fallback (p : BreedProfile) (gene : string) : Eff (option string) :=
  match allele_weights p with
  | Some aw =>
      match lookup aw gene with
      | Some table =>
          fallbackPair <- selectWeightedRandom (Some table) ;;
          match fallbackPair with
          | Some fp =>
              if nonempty fp && negb (JsString.mem fp (listed (disallowed_combinations p) gene))
              then ret (Some fp) else ret None
          | None => ret None
          end
      | None => ret None
      end
  | None => ret None
  end.

Definition recessive_fallback (allowedForFoal : list string) : option string :=
  match find (fun rp => JsString.mem rp allowedForFoal) recessivePairs with
  | Some rp => Some rp
  | None => match allowedForFoal with
            | first :: _ => Some first
            | [] => None
            end
  end.

(** The body of the loop over [genesToInherit]. *)
Definition inherit_gene (sire dam : Genotype) (p : BreedProfile)
    (foalGenotype : Genotype) (gene : string) : Eff Genotype :=
  let sireAllelePair := lookup sire gene in
  let damAllelePair := lookup dam gene in
  foalAllelePair <-
    (if truthy sireAllelePair && truthy damAllelePair
     then sample_attempts MAX_ATTEMPTS p gene sireAllelePair damAllelePair
     else ret None) ;;
  match foalAllelePair with
  | Some fp => ret (set foalGenotype gene (GStr fp))
  | None =>
      let allowedForFoal := listed (allowed_alleles p) gene in
      let disallowedForFoal := listed (disallowed_combinations p) gene in
      fromWeights <- weights_fallback p gene ;;
      match fromWeights with
      | Some fp => ret (set foalGenotype gene (GStr fp))
      | None =>
          match recessive_fallback allowedForFoal with
          | Some fp =>
              if nonempty fp && negb (JsString.mem fp disallowedForFoal)
              then ret (set foalGenotype gene (GStr fp))
              else emit (Warn_NoValidPair gene) ;; ret foalGenotype
          | None => emit (Warn_NoValidPair gene) ;; ret foalGenotype
          end
      end
  end.

(** [prevalence || 0], a value that is not a number being absent. *)
Definition prevalence_or_zero (prevalence : option wval) : Q :=
  match prevalence with
  | Some (WNum q) => q
  | _ => 0
  end.

(** [Math.random() < 0.5 ? parentValue : Math.random() < (prevalence || 0)] *)
Definition parent_or_prevalence (parentValue : gval) (prevalence : option wval) : Eff gval :=
  r <- Math_random ;;
  if Qltb r (1 # 2) then ret parentValue
  else r' <- Math_random ;; ret (GBool (Qltb r' (prevalence_or_zero prevalence))).

(** The callback of [definedModifiers.forEach]. *)
Definition inherit_modifier (sire dam : Genotype) (bmp : obj wval)
    (foalGenotype : Genotype) (modifier : string) : Eff Genotype :=
  if negb (JsString.mem modifier booleanModifiers) then ret foalGenotype
  else
    let prevalence := lookup bmp modifier in
    match lookup sire modifier, lookup dam modifier with
    | Some (GBool true), Some (GBool true) => ret (set foalGenotype modifier (GBool true))
    | Some (GBool false), Some (GBool false) => ret (set foalGenotype modifier (GBool false))
    | Some _, Some _ =>
        r <- Math_random ;; ret (set foalGenotype modifier (GBool (Qltb r (1 # 2))))
    | Some sireHasModifier, None =>
        v <- parent_or_prevalence sireHasModifier prevalence ;;
        ret (set foalGenotype modifier v)
    | None, Some damHasModifier =>
        v <- parent_or_prevalence damHasModifier prevalence ;;
        ret (set foalGenotype modifier v)
    | None, None =>
        match prevalence with
        | Some (WNum q) =>
            r <- Math_random ;; ret (set foalGenotype modifier (GBool (Qltb r q)))
        | _ => ret (set foalGenotype modifier (GBool false))
        end
    end.

(** Each argument is [None] for [null] or [undefined]. *)
Definition calculateFoalGenetics (sireGenotype damGenotype : option Genotype)
    (foalBreedGeneticProfile : option BreedProfile) : Eff Genotype :=
  let foalGenotype : Genotype := [] in
  match sireGenotype, damGenotype, foalBreedGeneticProfile with
  | Some sire, Some dam, Some p =>
      withGenes <- for_each (genesToInherit sire dam p) (inherit_gene sire dam p) foalGenotype ;;
      match boolean_modifiers_prevalence p with
      | Some bmp => for_each (keys bmp) (inherit_modifier sire dam bmp) withGenes
      | None => ret withGenes
      end
  | _, _, _ => emit Error_MissingParentOrProfile ;; ret foalGenotype
  end.

(** ** Exceptions *)

Inductive exn : Type :=
| TypeError.

Inductive outcome (A : Type) : Type :=
| Returned (a : A)
| Thrown (e : exn).
Arguments Returned {A} a.
Arguments Thrown {A} e.

(** Code that may also throw. *)
Definition Exec (A : Type) : Type := World -> outcome (A * World).

Definition ret_x {A} (a : A) : Exec A := fun w => Returned (a, w).

Definition bind_x {A B} (m : Exec A) (f : A -> Exec B) : Exec B :=
  fun w => match m w with
           | Returned r => f (fst r) (snd r)
           | Thrown e => Thrown e
           end.

Definition run {A} (m : Eff A) : Exec A := fun w => Returned (m w).

Definition settle {A} (o : outcome A) : Exec A :=
  fun w => match o with
           | Returned a => Returned (a, w)
           | Thrown e => Thrown e
           end.

Notation "x <~ m ;; k" := (bind_x m (fun x => k))
  (at level 61, m at next level, right associativity) : js_scope.
Notation "' pat <~ m ;; k" := (bind_x m (fun x => match x with pat => k end))
  (at level 61, pat pattern, m at next level, right associativity) : js_scope.

(** ** [applyPearlDilution] (lines 171-322) *)

(** [genotype.gene === value] *)
Definition field_is (g : Genotype) (gene value : string) : bool :=
  match lookup g gene with
  | Some (GStr s) => s =? value
  | _ => false
  end.

(** [genotype.name === true] *)
Definition flag_true (g : Genotype) (name : string) : bool :=
  match lookup g name with
  | Some (GBool true) => true
  | _ => false
  end.

Definition lower_includes (s sub : string) : bool :=
  JsString.includes (JsString.toLowerCase s) sub.

Definition normalize_spaces (s : string) : string :=
  JsString.trim (JsString.collapse_whitespace s).

Definition cleanup_pearl (s : string) : string :=
  let s1 := if lower_includes s "pearl pearl"
            then JsString.replace_all_ci "Pearl Pearl" "Pearl" s else s in
  if lower_includes s1 "pearl cream pearl"
  then JsString.replace_all_ci "Pearl Cream Pearl" "Pearl Cream" s1 else s1.

(** The result is the pair [(currentDisplayColor, phenotypeKeyForShade)]. *)
Definition applyPearlDilution (currentDisplayColor phenotypeKeyForShade : string)
    (genotype : Genotype) (baseColor : string) : string * string :=
  let newDisplayColor := JsString.trim currentDisplayColor in
  let newPhenotypeKeyForShade := JsString.trim phenotypeKeyForShade in
  let isHomozygousPearl := field_is genotype "PRL_Pearl" "prl/prl" in
  let isHeterozygousPearl :=
    field_is genotype "PRL_Pearl" "prl/n" || field_is genotype "PRL_Pearl" "n/prl" in
  let hasSingleCream :=
    field_is genotype "Cr_Cream" "Cr/n" || field_is genotype "Cr_Cream" "n/Cr" in
  let hasDoubleCream := field_is genotype "Cr_Cream" "Cr/Cr" in
  if isHomozygousPearl || (isHeterozygousPearl && hasSingleCream) then
    let originalColorForPearl := newDisplayColor in
    let noChampagne := negb (lower_includes originalColorForPearl "champagne") in
    let '(color1, key1) :=
      if isHomozygousPearl && negb hasSingleCream && negb hasDoubleCream then
        if (baseColor =? "Chestnut") && noChampagne then ("Apricot", "Apricot")
        else ((originalColorForPearl ++ " Pearl")%string, (newPhenotypeKeyForShade ++ " Pearl")%string)
      else if hasSingleCream && isHeterozygousPearl then
        let pearlDescriptor := "Pearl Cream" in
        if (originalColorForPearl =? "Palomino") && noChampagne
        then ("Palomino Pearl", "Palomino Pearl")
        else if (originalColorForPearl =? "Buckskin") && noChampagne
        then ("Buckskin Pearl", "Buckskin Pearl")
        else if (originalColorForPearl =? "Smoky Black") && noChampagne
        then ("Smoky Black Pearl", "Smoky Black Pearl")
        else (JsString.replace_first "  " " " (originalColorForPearl ++ " " ++ pearlDescriptor)%string,
              JsString.replace_first "  " " " (newPhenotypeKeyForShade ++ " " ++ pearlDescriptor)%string)
      else if hasSingleCream && isHomozygousPearl then
        let pearlDescriptor := "Homozygous Pearl Cream" in
        if (originalColorForPearl =? "Palomino") || (originalColorForPearl =? "Buckskin")
           || (originalColorForPearl =? "Smoky Black")
        then ((originalColorForPearl ++ " " ++ pearlDescriptor)%string,
              (originalColorForPearl ++ " " ++ pearlDescriptor)%string)
        else (JsString.replace_first "  " " " (originalColorForPearl ++ " " ++ pearlDescriptor)%string,
              JsString.replace_first "  " " " (newPhenotypeKeyForShade ++ " " ++ pearlDescriptor)%string)
      else (newDisplayColor, newPhenotypeKeyForShade) in
    let '(color2, key2) :=
      if isHomozygousPearl && hasDoubleCream && negb (lower_includes color1 "pearl")
      then ((originalColorForPearl ++ " (Pearl)")%string, (key1 ++ " (Pearl)")%string)
      else (color1, key1) in
    let key3 := cleanup_pearl (normalize_spaces key2) in
    let color3 := cleanup_pearl (normalize_spaces color2) in
    (color3, key3)
  else (newDisplayColor, newPhenotypeKeyForShade).

(** ** [determinePhenotype]: the helpers (lines 354-392) *)

(** [fullGenotype[gene]] followed by a call of a string method: a falsy
    property gives [falsy], a string gives the method's result and [true],
    which has no such method, throws. *)
Definition string_method {A} (v : option gval) (falsy : A) (method : string -> A) : outcome A :=
  match v with
  | Some (GStr s) => Returned (if nonempty s then method s else falsy)
  | Some (GBool true) => Thrown TypeError
  | Some (GBool false) => Returned falsy
  | None => Returned falsy
  end.

Definition hasAllele (g : Genotype) (gene allele : string) : Exec bool :=
  settle (string_method (lookup g gene) false (fun s => JsString.includes s allele)).

Definition getAlleles (g : Genotype) (gene : string) : Exec (list string) :=
  settle (string_method (lookup g gene) [] JsString.split_slash).

Definition isHomozygous (g : Genotype) (gene allele : string) : Exec bool :=
  alleles <~ getAlleles g gene ;;
  ret_x match alleles with
        | [a0; a1] => (a0 =? allele) && (a1 =? allele)
        | _ => false
        end.

Definition isHeterozygous (g : Genotype) (gene allele1 allele2 : string) : Exec bool :=
  alleles <~ getAlleles g gene ;;
  ret_x match alleles with
        | [a0; a1] => ((a0 =? allele1) && (a1 =? allele2)) || ((a0 =? allele2) && (a1 =? allele1))
        | _ => false
        end.

(** [getDominantWhiteAlleles], [getSplashWhiteAlleles] and
    [getEdenWhiteAlleles]: [neutral] is the pair that stands for none and
    [keep] the filter on the alleles. *)
Definition pattern_alleles (g : Genotype) (gene neutral : string) (keep : string -> bool)
    : Exec (list string) :=
  if negb (truthy (lookup g gene)) || field_is g gene neutral then ret_x []
  else alleles <~ getAlleles g gene ;; ret_x (filter keep alleles).

Definition getDominantWhiteAlleles (g : Genotype) : Exec (list string) :=
  pattern_alleles g "W_DominantWhite" "w/w"
    (fun a => JsString.startsWith a "W" && negb (a =? "w")).

Definition getSplashWhiteAlleles (g : Genotype) : Exec (list string) :=
  pattern_alleles g "SW_SplashWhite" "n/n" (fun a => JsString.startsWith a "SW").

Definition getEdenWhiteAlleles (g : Genotype) : Exec (list string) :=
  pattern_alleles g "EDXW" "n/n" (fun a => JsString.startsWith a "EDXW").

(** ** [determinePhenotype]: the dilutions (lines 394-671) *)

(** [a || b] on strings *)
Definition or_else (a b : string) : string := if nonempty a then a else b.

(** Step 1: [(baseColor, isChestnutBase)]. *)
Definition base_coat (g : Genotype) : Exec (string * bool) :=
  chestnut <~ isHomozygous g "E_Extension" "e" ;;
  if chestnut then ret_x ("Chestnut", true)
  else
    agouti <~ hasAllele g "A_Agouti" "A" ;;
    ret_x (if agouti then "Bay" else "Black", false).

(** Mushroom: [(currentDisplayColor, phenotypeKeyForShade,
    mushroomPlusHomozygousPearlNoCreamHandled)]. *)
Definition mushroom_stage (g : Genotype) (isChestnutBase : bool) (pks : string)
    : Exec (string * string * bool) :=
  mu <~ (if isChestnutBase then hasAllele g "MFSD12_Mushroom" "Mu" else ret_x false) ;;
  let '(cdc1, pks1) := if mu then ("Mushroom Chestnut", "Mushroom") else ("", pks) in
  special <~
    (if (cdc1 =? "Mushroom Chestnut") && field_is g "PRL_Pearl" "prl/prl" then
       if field_is g "Cr_Cream" "n/n" then ret_x true
       else cr <~ hasAllele g "Cr_Cream" "Cr" ;; ret_x (negb cr)
     else ret_x false) ;;
  if special then ret_x ("Mushroom Pearl", "Mushroom Pearl", true)
  else ret_x (cdc1, pks1, false).

Definition by_base (baseColor : string) (chestnut bay black : string)
    (otherwise : string * string) : string * string :=
  if baseColor =? "Chestnut" then (chestnut, chestnut)
  else if baseColor =? "Bay" then (bay, bay)
  else if baseColor =? "Black" then (black, black)
  else otherwise.

Definition cream_stage (g : Genotype) (baseColor cdc pks : string) : Exec (string * string) :=
  if truthy (lookup g "Cr_Cream") then
    het <~ isHeterozygous g "Cr_Cream" "Cr" "n" ;;
    if het then ret_x (by_base baseColor "Palomino" "Buckskin" "Smoky Black" (cdc, pks))
    else
      hom <~ isHomozygous g "Cr_Cream" "Cr" ;;
      if hom then ret_x (by_base baseColor "Cremello" "Perlino" "Smoky Cream" (cdc, pks))
      else ret_x (cdc, pks)
  else ret_x (cdc, pks).

Definition dun_color (baseColor originalColorForDun : string) : string :=
  if (baseColor =? "Black") || JsString.includes originalColorForDun "Smoky Black"
  then "Grulla"
  else if (baseColor =? "Bay") || JsString.includes originalColorForDun "Buckskin"
  then (if JsString.includes originalColorForDun "Buckskin" then "Buckskin Dun" else "Bay Dun")
  else if (baseColor =? "Chestnut") || JsString.includes originalColorForDun "Palomino"
          || JsString.includes originalColorForDun "Mushroom Chestnut"
  then (if JsString.includes originalColorForDun "Palomino" then "Palomino Dun"
        else if JsString.includes originalColorForDun "Mushroom Chestnut" then "Mushroom Dun"
        else "Red Dun")
  else if JsString.mem originalColorForDun ["Cremello"; "Perlino"; "Smoky Cream"]
  then originalColorForDun ++ " Dun"
  else originalColorForDun ++ " Dun".

(** Dun: [(currentDisplayColor, phenotypeKeyForShade, dunEffectDescriptor)]. *)
Definition dun_stage (g : Genotype) (baseColor cdc pks : string)
    : Exec (string * string * string) :=
  dun <~ hasAllele g "D_Dun" "D" ;;
  if dun then
    let cdc1 := dun_color baseColor (or_else cdc baseColor) in
    ret_x (cdc1, cdc1, "")
  else
    nd1 <~ isHomozygous g "D_Dun" "nd1" ;;
    if nd1 then ret_x (cdc, pks, " (Non-Dun 1 - Primitive Markings)")
    else
      nd2 <~ isHeterozygous g "D_Dun" "nd1" "nd2" ;;
      if nd2 then ret_x (cdc, pks, " (Non-Dun 2 - Faint Primitive Markings)")
      else ret_x (cdc, pks, "").

(** One cell group of the champagne table; [None] is [undefined]. *)
Definition champagne_of (baseColor : string) (isChestnutBase : bool)
    (gold amber classic : string) : option string :=
  if isChestnutBase then Some gold
  else if baseColor =? "Bay" then Some amber
  else if baseColor =? "Black" then Some classic
  else None.

Definition champagne_stage (g : Genotype) (baseColor : string) (isChestnutBase : bool)
    (cdc pks : string) : Exec (string * string) :=
  champagne <~ hasAllele g "CH_Champagne" "Ch" ;;
  if champagne then
    isSingleCream <~ isHeterozygous g "Cr_Cream" "Cr" "n" ;;
    isDoubleCream <~ isHomozygous g "Cr_Cream" "Cr" ;;
    isDunActive <~ hasAllele g "D_Dun" "D" ;;
    let cell := champagne_of baseColor isChestnutBase in
    determinedChampagneColor <~
      (if negb isSingleCream && negb isDoubleCream && negb isDunActive
       then ret_x (cell "Gold Champagne" "Amber Champagne" "Classic Champagne")
       else if isSingleCream && negb isDoubleCream && negb isDunActive
       then ret_x (cell "Gold Cream Champagne" "Amber Cream Champagne" "Classic Cream Champagne")
       else if isDoubleCream && negb isDunActive
       then ret_x (cell "Ivory Champagne (Cremello)" "Ivory Champagne (Perlino)"
                        "Ivory Champagne (Smoky Cream)")
       else if isDunActive && negb isSingleCream && negb isDoubleCream
       then ret_x (cell "Gold Dun Champagne" "Amber Dun Champagne" "Classic Dun Champagne")
       else if isSingleCream && negb isDoubleCream && isDunActive
       then ret_x (cell "Gold Cream Dun Champagne" "Amber Cream Dun Champagne"
                        "Classic Cream Dun Champagne")
       else if isDoubleCream && isDunActive
       then ret_x (cell "Ivory Dun Champagne (Cremello)" "Ivory Dun Champagne (Perlino)"
                        "Ivory Dun Champagne (Smoky Cream)")
       else
         _ <~ run (emit Warn_UnhandledChampagne) ;;
         ret_x (cell "Gold Champagne" "Amber Champagne" "Classic Champagne")) ;;
    match determinedChampagneColor with
    | Some color => ret_x (color, color)
    | None => ret_x (cdc, pks)
    end
  else ret_x (cdc, pks).

Definition silver_stage (g : Genotype) (baseColor : string) (isChestnutBase : bool)
    (cdc pks : string) : Exec (string * string) :=
  silver <~ hasAllele g "Z_Silver" "Z" ;;
  if silver && negb isChestnutBase then
    let originalColorForSilver := or_else cdc baseColor in
    let cdcLower := JsString.toLowerCase originalColorForSilver in
    let silverActsOnBlackPigment :=
      (baseColor =? "Black") || (baseColor =? "Bay")
      || JsString.includes cdcLower "classic" || JsString.includes cdcLower "sable"
      || (JsString.includes cdcLower "amber" && (baseColor =? "Bay")) in
    let '(cdc1, pks1) :=
      if silverActsOnBlackPigment && negb (JsString.includes cdcLower "silver") then
        (("Silver " ++ originalColorForSilver)%string,
         ("Silver " ++
            JsString.replace_first_ci "Sable" "Black"
              (JsString.replace_first_ci "Gold" "Chestnut"
                 (JsString.replace_first_ci "Amber" "Bay"
                    (JsString.replace_first_ci "Classic" "Black" pks))))%string)
      else (cdc, pks) in
    let pks2 :=
      if JsString.startsWith (JsString.toLowerCase pks1) "silver silver"
      then JsString.drop 7 pks1 else pks1 in
    let pks3 :=
      JsString.replace_first_ci "Silver Sable" "Silver Black"
        (JsString.replace_first_ci "Silver Amber" "Silver Bay"
           (JsString.replace_first_ci "Silver Classic" "Silver Black" pks2)) in
    ret_x (cdc1, pks3)
  else ret_x (cdc, pks).

Definition pearl_stage (g : Genotype) (baseColor : string) (handled : bool)
    (cdc pks : string) : string * string :=
  if negb handled && negb (cdc =? "Mushroom Pearl")
  then applyPearlDilution (or_else cdc baseColor) (or_else pks baseColor) g baseColor
  else (cdc, pks).

(** ** [determinePhenotype]: shade and modifiers (lines 673-853) *)

(** The table of [shade_bias] that is consulted, if any. *)
Definition shade_table (sb : obj (obj wval)) (baseColor pks : string) : option (obj wval) :=
  match lookup sb pks with
  | Some t => Some t
  | None =>
      match (if negb (pks =? baseColor) then lookup sb baseColor else None) with
      | Some t => Some t
      | None =>
          let firstWordOfPhenoKey := hd "" (JsString.split_space pks) in
          match lookup sb firstWordOfPhenoKey with
          | Some t => Some t
          | None => lookup sb "Default"
          end
      end
  end.

(** [determined_shade] after the default has been applied. *)
Definition shade_stage (profile : option BreedProfile) (baseColor pks : string) : Eff string :=
  chosen <-
    match profile with
    | Some p =>
        match shade_bias p with
        | Some sb =>
            match shade_table sb baseColor pks with
            | Some t => selectWeightedRandom (Some t)
            | None => ret None
            end
        | None => ret None
        end
    | None => ret None
    end ;;
  ret match chosen with
      | Some shade => or_else shade "standard"
      | None => "standard"
      end.

Definition apply_shade (determined_shade cdc pks : string) : string * string :=
  let shadeLower := JsString.toLowerCase determined_shade in
  if negb (shadeLower =? "standard") && negb (shadeLower =? "medium")
     && negb (lower_includes cdc shadeLower) && negb (lower_includes cdc "gray")
  then ((JsString.capitalizeFirstLetter determined_shade ++ " " ++ cdc)%string,
        (JsString.capitalizeFirstLetter determined_shade ++ " " ++ pks)%string)
  else (cdc, pks).

Definition apply_sooty (g : Genotype) (cdc pks : string) : string * string :=
  if flag_true g "sooty" && negb (JsString.startsWith (JsString.toLowerCase cdc) "sooty")
  then (("Sooty " ++ cdc)%string, ("Sooty " ++ pks)%string)
  else (cdc, pks).

(** [displayColorParts.join(' ').toLowerCase()] *)
Definition joined_lower (parts : list string) : string :=
  JsString.toLowerCase (JsString.join_space parts).

(** [displayColorParts.some((p) => p.toLowerCase().includes(sub))] *)
Definition some_part_includes (parts : list string) (sub : string) : bool :=
  existsb (fun p => lower_includes p sub) parts.

(** [if (!displayColorParts.join(' ').toLowerCase().includes(needle))
       displayColorParts.push(term)] *)
Definition push_unless (parts : list string) (needle term : string) : list string :=
  if JsString.includes (joined_lower parts) needle then parts else parts ++ [term].

Definition flaxen_pangare (g : Genotype) (isChestnutBase : bool) (cdc : string) : list string :=
  let parts0 := [cdc] in
  let parts1 :=
    if isChestnutBase && flag_true g "flaxen"
       && negb (lower_includes cdc "palomino") && negb (lower_includes cdc "cremello")
       && negb (lower_includes cdc "flaxen")
    then push_unless parts0 "flaxen" "Flaxen" else parts0 in
  if flag_true g "pangare" then push_unless parts1 "pangare" "Pangare" else parts1.

Definition roan_name (baseColor c : string) : string :=
  if (baseColor =? "Chestnut") || JsString.includes c "chestnut"
     || JsString.includes c "palomino" || JsString.includes c "cremello"
     || JsString.includes c "gold" || JsString.includes c "apricot"
     || JsString.includes c "mushroom" || JsString.includes c "ivory"
  then "Red Roan"
  else if (baseColor =? "Bay") || JsString.includes c "bay"
          || JsString.includes c "buckskin" || JsString.includes c "perlino"
          || JsString.includes c "amber"
  then "Bay Roan"
  else if (baseColor =? "Black") || JsString.includes c "black"
          || JsString.includes c "smoky" || JsString.includes c "grulla"
          || JsString.includes c "classic" || JsString.includes c "sable"
  then "Blue Roan"
  else "".

Definition roan_prefix (determined_shade first : string) : string :=
  let words := JsString.split_space first in
  let word0 := hd "" words in
  let firstPart := JsString.toLowerCase word0 in
  let shadeLower := JsString.toLowerCase determined_shade in
  if (firstPart =? "sooty") || (nonempty determined_shade && (firstPart =? shadeLower)) then
    if (firstPart =? "sooty") && nonempty determined_shade && (1 <? length words)%nat
       && (JsString.toLowerCase (nth 1 words "") =? shadeLower)
    then word0 ++ " " ++ nth 1 words "" ++ " "
    else word0 ++ " "
  else "".

(** The callback of the [forEach] that collects [existingDescriptors]. *)
Definition roan_descriptor (roanColorName prefix : string)
    (existingDescriptors : list string) (word : string) : list string :=
  let wLower := JsString.toLowerCase word in
  if (JsString.includes wLower "dun" || JsString.includes wLower "champagne"
      || JsString.includes wLower "pearl")
     && negb (lower_includes roanColorName wLower)
     && negb (lower_includes prefix wLower)
     && negb (JsString.includes word "(") && negb (JsString.includes word ")")
     && negb (JsString.mem wLower (map JsString.toLowerCase existingDescriptors))
  then existingDescriptors ++ [JsString.capitalizeFirstLetter wLower]
  else existingDescriptors.

(** Roan: [(displayColorParts, phenotypeKeyForShade)]. *)
Definition roan_stage (g : Genotype) (baseColor determined_shade : string)
    (parts : list string) (pks : string) : Exec (list string * string) :=
  roan <~ (if truthy (lookup g "Rn_Roan") then hasAllele g "Rn_Roan" "Rn" else ret_x false) ;;
  if roan && negb (some_part_includes parts "gray") then
    let roanColorName := roan_name baseColor (joined_lower parts) in
    if nonempty roanColorName then
      let prefix := roan_prefix determined_shade (hd "" parts) in
      let existingDescriptors :=
        fold_left (roan_descriptor roanColorName prefix)
                  (JsString.split_space (JsString.join_space parts)) [] in
      ret_x ((prefix ++ roanColorName)%string :: existingDescriptors, roanColorName)
    else if negb (some_part_includes parts "roan") then ret_x (parts ++ ["Roan"], pks)
    else ret_x (parts, pks)
  else ret_x (parts, pks).

(** ** [determinePhenotype]: white patterns, leopard complex, gray (lines 855-1034) *)

Record Legs : Type := {
  LF : string;
  RF : string;
  LH : string;
  RH : string
}.

(** [phenotypic_markings]; [mottling], [striping] and
    [body_markings.bloody_shoulder] are [false] when the property is absent. *)
Record Markings : Type := {
  marking_face : string;
  marking_legs : Legs;
  mottling : bool;
  striping : bool;
  bloody_shoulder : bool
}.

Definition initial_markings : Markings :=
  {| marking_face := "none";
     marking_legs := {| LF := "none"; RF := "none"; LH := "none"; RH := "none" |};
     mottling := false; striping := false; bloody_shoulder := false |}.

Definition lethalWhite : list string := ["W2"; "W4"; "W5"; "W10"; "W13"; "W19"; "W22"].

(** Dominant white: [(displayColorParts, phenotypeKeyForShade,
    isAllWhiteFromDominant)]. *)
Definition white_stage (g : Genotype) (parts : list string) (pks : string)
    : Exec (list string * string * bool) :=
  wAlleles <~ getDominantWhiteAlleles g ;;
  match wAlleles with
  | [] => ret_x (parts, pks, false)
  | _ :: _ =>
      if existsb (fun w => JsString.mem w lethalWhite) wAlleles
      then ret_x (["White"], "Dominant White", true)
      else if JsString.mem "W20" wAlleles
      then ret_x (push_unless parts "minimal white" "Minimal White (W20)", pks, false)
      else
        ret_x (if negb (JsString.includes (joined_lower parts) "dominant white")
                  && negb (JsString.includes (joined_lower parts) "white")
               then parts ++ ["Dominant White"] else parts,
               pks, false)
  end.

(** [terms.forEach((t) => { if (!joined.includes(t.toLowerCase())) push(t) })] *)
Definition push_terms (parts terms : list string) : list string :=
  fold_left (fun acc term => push_unless acc (JsString.toLowerCase term) term) terms parts.

Definition patterns_stage (g : Genotype) (isAllWhiteFromDominant : bool)
    (parts : list string) : Exec (list string) :=
  if isAllWhiteFromDominant then ret_x parts
  else
    overo <~ hasAllele g "O_FrameOvero" "O" ;;
    let parts1 :=
      if overo && negb (field_is g "O_FrameOvero" "O/O")
      then push_unless parts "frame overo" "Frame Overo" else parts in
    tobiano <~ hasAllele g "TO_Tobiano" "TO" ;;
    let parts2 := if tobiano then push_unless parts1 "tobiano" "Tobiano" else parts1 in
    sabino <~ hasAllele g "SB1_Sabino1" "SB1" ;;
    let parts3 := if sabino then push_unless parts2 "sabino" "Sabino" else parts2 in
    splashAlleles <~ getSplashWhiteAlleles g ;;
    let splashTerms :=
      map (fun sa => ("Splash White " ++ JsString.replace_first "SW" "" sa)%string)
          splashAlleles in
    let parts4 := push_terms parts3 splashTerms in
    edenAlleles <~ getEdenWhiteAlleles g ;;
    let edenTerms :=
      map (fun ea => ("Eden White " ++ JsString.replace_first "EDXW" "" ea)%string)
          edenAlleles in
    ret_x (push_terms parts4 edenTerms).

(** [profile?.advanced_markings_bias?.field ?? 1.0] *)
Definition multiplier (profile : option BreedProfile)
    (field : AdvancedMarkingsBias -> option Q) : Q :=
  match profile with
  | Some p =>
      match advanced_markings_bias p with
      | Some amb => match field amb with Some q => q | None => 1 end
      | None => 1
      end
  | None => 1
  end.

(** The name of a heterozygous leopard-complex pattern without Pattern-1. *)
Definition varnish_or_blanket (profile : option BreedProfile) (ageInYears : Q) : Eff string :=
  let agePrefix :=
    if Qle_bool ageInYears 4 then "Light"
    else if Qle_bool ageInYears 8 then "Moderate" else "Heavy" in
  let snowProb := multiplier profile snowflake_probability_multiplier * (1 # 2) in
  let frostProb := multiplier profile frost_probability_multiplier * (1 # 2) in
  chosen <- selectWeightedRandom (Some [("Snowflake", WNum snowProb); ("Frost", WNum frostProb)]) ;;
  sfModifier <-
    match chosen with
    | Some sf => if nonempty sf then ret sf
                 else r <- Math_random ;; ret (if Qltb r (1 # 2) then "Snowflake" else "Frost")
    | None => r <- Math_random ;; ret (if Qltb r (1 # 2) then "Snowflake" else "Frost")
    end ;;
  r <- Math_random ;;
  let underlyingPattern := if Qltb r (1 # 2) then "Blanket" else "Varnish Roan" in
  ret (agePrefix ++ " " ++ sfModifier ++ " " ++ underlyingPattern)%string.

(** Leopard complex: [(displayColorParts, phenotypeKeyForShade,
    phenotypic_markings)]. *)
Definition leopard_stage (g : Genotype) (profile : option BreedProfile) (ageInYears : Q)
    (isAllWhiteFromDominant : bool) (parts : list string) (pks : string) (markings : Markings)
    : Exec (list string * string * Markings) :=
  hasLP <~ hasAllele g "LP_LeopardComplex" "LP" ;;
  patn1 <~ hasAllele g "PATN1_Pattern1" "PATN1" ;;
  let hasPATN1 := patn1 && negb (field_is g "PATN1_Pattern1" "patn1/patn1") in
  if hasLP && negb isAllWhiteFromDominant then
    let markings1 :=
      {| marking_face := marking_face markings; marking_legs := marking_legs markings;
         mottling := true; striping := true; bloody_shoulder := bloody_shoulder markings |} in
    lpPatternName <~
      (if field_is g "LP_LeopardComplex" "LP/LP"
       then ret_x (if hasPATN1 then "Fewspot Leopard" else "Snowcap")
       else if field_is g "LP_LeopardComplex" "LP/lp"
       then (if hasPATN1 then ret_x "Leopard Appaloosa"
             else run (varnish_or_blanket profile ageInYears))
       else ret_x "") ;;
    if nonempty lpPatternName
       && negb (JsString.includes (joined_lower parts) (JsString.toLowerCase lpPatternName))
    then
      let parts1 := parts ++ [lpPatternName] in
      ret_x (parts1, if some_part_includes parts1 "gray" then pks else lpPatternName, markings1)
    else ret_x (parts, pks, markings1)
  else ret_x (parts, pks, markings).

Definition grayBaseTone (baseColor : string) : string :=
  if (baseColor =? "Black") || (baseColor =? "Bay") then "Steel"
  else if (baseColor =? "Chestnut") || (baseColor =? "Mushroom Chestnut") then "Rose"
  else "".

Definition grayPhenotype (baseColor : string) (ageInYears : Q) : string :=
  let tone := grayBaseTone baseColor in
  let byAge :=
    if Qle_bool ageInYears 3 then JsString.trim (tone ++ " Gray")
    else if Qle_bool ageInYears 6 then JsString.trim (tone ++ " Dark Dapple Gray")
    else if Qle_bool ageInYears 9 then JsString.trim (tone ++ " Light Dapple Gray")
    else if Qle_bool ageInYears 12 then "White Gray"
    else "Fleabitten Gray" in
  if negb (nonempty tone) && Qle_bool ageInYears 9
  then JsString.trim (tone ++ " Gray") else byAge.

(** Gray: [(displayColorParts, phenotypeKeyForShade, phenotypic_markings)]. *)
Definition gray_stage (g : Genotype) (profile : option BreedProfile) (ageInYears : Q)
    (baseColor : string) (isAllWhiteFromDominant : bool)
    (parts : list string) (pks : string) (markings : Markings)
    : Exec (list string * string * Markings) :=
  gray <~ hasAllele g "G_Gray" "G" ;;
  if gray && negb isAllWhiteFromDominant then
    let color := grayPhenotype baseColor ageInYears in
    let bloodyShoulderChance :=
      (1 # 1000) * multiplier profile bloody_shoulder_probability_multiplier in
    r <~ run Math_random ;;
    let markings1 :=
      if Qltb r bloodyShoulderChance then
        {| marking_face := marking_face markings; marking_legs := marking_legs markings;
           mottling := mottling markings; striping := striping markings;
           bloody_shoulder := true |}
      else markings in
    ret_x ([color], color, markings1)
  else ret_x (parts, pks, markings).

Definition rabicano_stage (g : Genotype) (isAllWhiteFromDominant : bool)
    (parts : list string) : list string :=
  if flag_true g "rabicano" && negb isAllWhiteFromDominant
     && negb (some_part_includes parts "gray")
  then push_unless parts "rabicano" "Rabicano" else parts.

Definition dun_primitive_stage (dunEffectDescriptor : string) (isAllWhiteFromDominant : bool)
    (parts : list string) : list string :=
  if nonempty dunEffectDescriptor
     && negb (existsb (fun p => lower_includes p "dun" && negb (JsString.includes p "(")) parts)
     && negb (JsString.includes (JsString.join_space parts) dunEffectDescriptor)
     && negb isAllWhiteFromDominant
     && negb (some_part_includes parts "gray")
  then parts ++ [dunEffectDescriptor] else parts.

(** ** [determinePhenotype]: final assembly and markings (lines 1036-1159) *)

(** [xs.findIndex(f)]; [None] is [-1]. *)
Fixpoint findIndex {A} (f : A -> bool) (xs : list A) : option nat :=
  match xs with
  | [] => None
  | x :: rest => if f x then Some O else option_map S (findIndex f rest)
  end.

(** [xs[i] = v] for an index within the array. *)
Fixpoint assign_at {A} (i : nat) (v : A) (xs : list A) : list A :=
  match xs, i with
  | [], _ => []
  | _ :: rest, O => v :: rest
  | x :: rest, S j => x :: assign_at j v rest
  end.

(** The body of the deduplication loop on [(uniqueParts, seenTerms)]. *)
Definition dedup_step (state : list string * list string) (part : string)
    : list string * list string :=
  let '(uniqueParts, seenTerms) := state in
  if nonempty part && negb (JsString.trim part =? "") then
    let partWords := map JsString.toLowerCase (JsString.split_space part) in
    let primaryTerm := last partWords "" in
    if negb (JsString.mem primaryTerm seenTerms)
    then (uniqueParts ++ [JsString.trim part], primaryTerm :: seenTerms)
    else
      match findIndex (fun p => JsString.endsWith (JsString.toLowerCase p) primaryTerm)
                      uniqueParts with
      | Some existingIndex =>
          if (length (JsString.split_space (nth existingIndex uniqueParts ""))
              <? length (JsString.split_space part))%nat
          then (assign_at existingIndex (JsString.trim part) uniqueParts, seenTerms)
          else state
      | None => state
      end
  else state.

Definition deduplicate (parts : list string) : list string :=
  fst (fold_left dedup_step parts ([], [])).

(** [p !== q] where [q] may be [undefined] or [null]. *)
Definition differs (p : string) (q : option string) : bool :=
  match q with
  | Some s => negb (p =? s)
  | None => true
  end.

(** [parts.filter((v, i, a) => v && a.indexOf(v) === i)] *)
Fixpoint first_occurrences (seen : list string) (parts : list string) : list string :=
  match parts with
  | [] => []
  | v :: rest =>
      if nonempty v && negb (JsString.mem v seen)
      then v :: first_occurrences (v :: seen) rest
      else first_occurrences (v :: seen) rest
  end.

Definition is_main_candidate (determined_shade p : string) : bool :=
  let pl := JsString.toLowerCase p in
  negb (JsString.startsWith pl "sooty")
  && negb (nonempty determined_shade
           && JsString.startsWith pl (JsString.toLowerCase determined_shade)
           && negb (p =? determined_shade))
  && negb (JsString.mem pl ["pangare"; "flaxen"; "rabicano"])
  && negb (JsString.includes pl "dun (")
  && negb (JsString.includes pl "white")
  && negb (JsString.includes pl "overo")
  && negb (JsString.includes pl "tobiano")
  && negb (JsString.includes pl "sabino")
  && negb (JsString.includes pl "appaloosa").

Definition reorder (isAllWhiteFromDominant : bool) (determined_shade : string)
    (parts : list string) : list string :=
  match parts with
  | first :: _ :: _ =>
      if negb isAllWhiteFromDominant && negb (lower_includes first "gray") then
        let mainColorPart :=
          match find (is_main_candidate determined_shade) parts with
          | Some p => or_else p first
          | None => first
          end in
        let sootyPrefix := find (fun p => JsString.toLowerCase p =? "sooty") parts in
        let shadeLower := JsString.toLowerCase determined_shade in
        let shadePrefix :=
          if nonempty determined_shade && negb (shadeLower =? "standard")
             && negb (shadeLower =? "medium")
          then find (fun p =>
                       JsString.startsWith (JsString.toLowerCase p) shadeLower
                       && JsString.includes (JsString.toLowerCase p)
                            (JsString.toLowerCase
                               (last (JsString.split_space mainColorPart) "")))
                    parts
          else None in
        let otherDescriptors :=
          filter (fun p => negb (p =? mainColorPart) && differs p sootyPrefix
                           && differs p shadePrefix) parts in
        let sootyFirst :=
          match sootyPrefix with
          | Some sp => if nonempty sp && negb (sp =? mainColorPart) && differs sp shadePrefix
                       then [sp] else []
          | None => []
          end in
        first_occurrences [] (sootyFirst ++ [mainColorPart] ++ otherDescriptors)
      else parts
  | _ => parts
  end.

Definition assemble (baseColor : string) (parts : list string) : string :=
  let final_display_color :=
    JsString.trim (JsString.collapse_spaces (JsString.join_space parts)) in
  if negb (nonempty (JsString.trim final_display_color))
  then or_else baseColor "Undefined Phenotype"
  else final_display_color.

(** [selectWeightedRandom(table) || 'none'] *)
Definition select_or_none (table : obj wval) : Eff string :=
  chosen <- selectWeightedRandom (Some table) ;;
  ret match chosen with
      | Some s => or_else s "none"
      | None => "none"
      end.

(** The callback of [['LF', 'RF', 'LH', 'RH'].forEach] on
    [(legsMarkedCount, marking)]: the new count and the marking of the leg. *)
Definition mark_leg (lsp : obj wval) (probability maxLegs : Q) (legsMarkedCount : nat)
    : Eff (nat * string) :=
  if Qltb (inject_Z (Z.of_nat legsMarkedCount)) maxLegs then
    r <- Math_random ;;
    if Qltb r probability then
      marking <- select_or_none lsp ;;
      ret (if marking =? "none" then legsMarkedCount else S legsMarkedCount, marking)
    else ret (legsMarkedCount, "none")
  else ret (legsMarkedCount, "none").

Definition leg_markings (mb : MarkingBias) (current : Legs) : Eff Legs :=
  match leg_specific_probabilities mb, legs_general_probability mb with
  | Some lsp, Some probability =>
      match keys lsp with
      | [] => ret current
      | _ :: _ =>
          let maxLegs := match max_legs_marked mb with Some m => m | None => 4 end in
          '(n1, lf) <- mark_leg lsp probability maxLegs O ;;
          '(n2, rf) <- mark_leg lsp probability maxLegs n1 ;;
          '(n3, lh) <- mark_leg lsp probability maxLegs n2 ;;
          '(_, rh) <- mark_leg lsp probability maxLegs n3 ;;
          ret {| LF := lf; RF := rf; LH := lh; RH := rh |}
      end
  | _, _ => ret current
  end.

Definition markings_stage (profile : option BreedProfile) (markings : Markings) : Eff Markings :=
  match profile with
  | Some p =>
      match marking_bias p with
      | Some mb =>
          newFace <- match face mb with
                     | Some table => select_or_none table
                     | None => ret (marking_face markings)
                     end ;;
          newLegs <- leg_markings mb (marking_legs markings) ;;
          ret {| marking_face := newFace; marking_legs := newLegs;
                 mottling := mottling markings; striping := striping markings;
                 bloody_shoulder := bloody_shoulder markings |}
      | None => ret markings
      end
  | None => ret markings
  end.

(** ** [determinePhenotype] (lines 331-1170) *)

Record PhenotypeResult : Type := {
  final_display_color : string;
  phenotypic_markings : Markings;
  determined_shade : string
}.

(** Steps 1 and 2, the dilutions:
    [(baseColor, isChestnutBase, dunEffectDescriptor, currentDisplayColor,
      phenotypeKeyForShade)]. *)
Definition dilutions (g : Genotype) : Exec (string * bool * string * string * string) :=
  '(baseColor, isChestnutBase) <~ base_coat g ;;
  '(cdc1, pks1, handled) <~ mushroom_stage g isChestnutBase baseColor ;;
  '(cdc2, pks2) <~ cream_stage g baseColor cdc1 pks1 ;;
  '(cdc3, pks3, dunEffectDescriptor) <~ dun_stage g baseColor cdc2 pks2 ;;
  '(cdc4, pks4) <~ champagne_stage g baseColor isChestnutBase cdc3 pks3 ;;
  '(cdc5, pks5) <~ silver_stage g baseColor isChestnutBase cdc4 pks4 ;;
  let '(cdc6, pks6) := pearl_stage g baseColor handled cdc5 pks5 in
  ret_x (baseColor, isChestnutBase, dunEffectDescriptor, cdc6, pks6).

(** The shade applied, then sooty, flaxen, pangare and roan:
    [(displayColorParts, phenotypeKeyForShade)]. *)
Definition modifiers_stage (g : Genotype) (baseColor : string) (isChestnutBase : bool)
    (shade cdc pks : string) : Exec (list string * string) :=
  let '(cdc1, pks1) := apply_shade shade cdc pks in
  let '(cdc2, pks2) := apply_sooty g cdc1 pks1 in
  roan_stage g baseColor shade (flaxen_pangare g isChestnutBase cdc2) pks2.

(** From the white patterns to the final assembly:
    [(final_display_color, phenotypic_markings)]. *)
Definition patterns_and_assembly (g : Genotype) (profile : option BreedProfile)
    (ageInYears : Q) (baseColor dunEffectDescriptor shade : string)
    (parts : list string) (pks : string) : Exec (string * Markings) :=
  '(parts1, pks1, isAllWhiteFromDominant) <~ white_stage g parts pks ;;
  parts2 <~ patterns_stage g isAllWhiteFromDominant parts1 ;;
  '(parts3, pks3, markings3) <~
    leopard_stage g profile ageInYears isAllWhiteFromDominant parts2 pks1 initial_markings ;;
  '(parts4, pks4, markings4) <~
    gray_stage g profile ageInYears baseColor isAllWhiteFromDominant parts3 pks3 markings3 ;;
  let parts5 := rabicano_stage g isAllWhiteFromDominant parts4 in
  let parts6 := dun_primitive_stage dunEffectDescriptor isAllWhiteFromDominant parts5 in
  let parts7 := deduplicate parts6 in
  let parts8 := reorder isAllWhiteFromDominant shade parts7 in
  ret_x (assemble baseColor parts8, markings4).

(** The display colour, the shade and the markings set on the way:
    [(final_display_color, determined_shade, phenotypic_markings)]. *)
Definition display_color (g : Genotype) (profile : option BreedProfile) (ageInYears : Q)
    : Exec (string * string * Markings) :=
  '(baseColor, isChestnutBase, dunEffectDescriptor, cdc, pks) <~ dilutions g ;;
  shade <~ run (shade_stage profile baseColor pks) ;;
  '(parts, pks1) <~ modifiers_stage g baseColor isChestnutBase shade cdc pks ;;
  '(color, markings) <~
    patterns_and_assembly g profile ageInYears baseColor dunEffectDescriptor shade parts pks1 ;;
  ret_x (color, shade, markings).

(** [fullGenotype] is [None] for [null] or [undefined], on which the first
    property access, in [isHomozygous('E_Extension', 'e')], throws. *)
Definition determinePhenotype (fullGenotype : option Genotype)
    (breedGeneticProfile : option BreedProfile) (ageInYears : Q) : Exec PhenotypeResult :=
  match fullGenotype with
  | None => settle (Thrown TypeError)
  | Some g =>
      '(color, shade, markings) <~ display_color g breedGeneticProfile ageInYears ;;
      markings' <~ run (markings_stage breedGeneticProfile markings) ;;
      ret_x {| final_display_color := color;
               phenotypic_markings := markings';
               determined_shade := shade |}
  end.

(** * Sample data and predicates used in the statements *)

Definition draw_of_zero : draw := Draw 0 eq_refl.
Definition draw_of_half : draw := Draw (1 # 2) eq_refl.

Definition constant_world (d : draw) : World := MkWorld (fun _ => d) 0 [].

Definition no_profile_fields : BreedProfile :=
  {| allele_weights := None; disallowed_combinations := None; allowed_alleles := None;
     boolean_modifiers_prevalence := None; shade_bias := None; marking_bias := None;
     advanced_markings_bias := None |}.

Definition color_of (o : outcome (PhenotypeResult * World)) : option string :=
  match o with
  | Returned r => Some (final_display_color (fst r))
  | Thrown _ => None
  end.

Definition gold_champagne_genotype : Genotype :=
  [("E_Extension", GStr "e/e"); ("A_Agouti", GStr "a/a"); ("Cr_Cream", GStr "n/n");
   ("D_Dun", GStr "n/n"); ("CH_Champagne", GStr "Ch/n")].

Definition mushroom_pearl_genotype : Genotype :=
  [("E_Extension", GStr "e/e"); ("MFSD12_Mushroom", GStr "Mu/n"); ("PRL_Pearl", GStr "prl/prl");
   ("Cr_Cream", GStr "n/n"); ("A_Agouti", GStr "a/a"); ("CH_Champagne", GStr "n/n");
   ("D_Dun", GStr "n/n")].

(** No allele pair of the genotype is disallowed for its locus. *)
Definition respects_disallowed (p : BreedProfile) (g : Genotype) : Prop :=
  forall gene allelePair, lookup g gene = Some (GStr allelePair) ->
                          disallowed_includes p gene allelePair = false.

(** The allele pairs of the genotype at the keys selected by [locus] are
    not disallowed. *)
Definition pairs_not_disallowed (p : BreedProfile) (locus : string -> Prop)
    (foal : Genotype) : Prop :=
  forall gene allelePair,
    locus gene -> lookup foal gene = Some (GStr allelePair) ->
    ~ In allelePair (listed (disallowed_combinations p) gene).

Definition homozygous_e_parent : Genotype := [("E_Extension", GStr "e/e")].

Definition only_ee_profile : BreedProfile :=
  {| allele_weights := Some [("E_Extension", [("e/e", WNum 1)])];
     disallowed_combinations := Some [];
     allowed_alleles := Some [("E_Extension", ["e/e"])];
     boolean_modifiers_prevalence := None; shade_bias := None; marking_bias := None;
     advanced_markings_bias := None |}.


(** [m], run in the world [w], returns a value that satisfies [P]. *)
Definition yields {A} (m : Exec A) (w : World) (P : A -> Prop) : Prop :=
  exists a w', m w = Returned (a, w') /\ P a.

(** [m] returns in every world. *)
Definition returns {A} (m : Exec A) : Prop :=
  forall w, yields m w (fun _ => True).

(** The typing of a genotype: a boolean is held only under the name of a
    boolean modifier, so that every locus holds an allele-pair string. *)
Definition loci_hold_strings (g : Genotype) : Prop :=
  forall key b, lookup g key = Some (GBool b) -> In key booleanModifiers.

(** The same, as a test on the properties of the object. *)
Definition loci_hold_strings_b (g : Genotype) : bool :=
  forallb (fun kv => match snd kv with
                     | GStr _ => true
                     | GBool _ => JsString.mem (fst kv) booleanModifiers
                     end) g.

(** The [W_DominantWhite] pair contains an allele of the lethal set. *)
Definition carries_lethal_white (g : Genotype) : Prop :=
  exists pair allele,
    lookup g "W_DominantWhite" = Some (GStr pair)
    /\ In allele (JsString.split_slash pair) /\ In allele lethalWhite.

(** The [G_Gray] pair contains the dominant allele [G]. *)
Definition carries_gray (g : Genotype) : Prop :=
  exists pair,
    lookup g "G_Gray" = Some (GStr pair) /\ In "G" (JsString.split_slash pair).

(** The gray colours in the words of the specification: by age band,
    with the tone Steel on a black or bay base and Rose on a chestnut one. *)
Definition spec_gray_tone (baseColor : string) : string :=
  if (baseColor =? "Black") || (baseColor =? "Bay") then "Steel" else "Rose".

Definition spec_gray_color (baseColor : string) (ageInYears : Q) : string :=
  if Qle_bool ageInYears 3 then spec_gray_tone baseColor ++ " Gray"
  else if Qle_bool ageInYears 6 then spec_gray_tone baseColor ++ " Dark Dapple Gray"
  else if Qle_bool ageInYears 9 then spec_gray_tone baseColor ++ " Light Dapple Gray"
  else if Qle_bool ageInYears 12 then "White Gray"
  else "Fleabitten Gray".

(** The breed profiles of the source's tests. *)
Definition test_marking_bias : MarkingBias :=
  {| face := Some [("none", WNum 1)];
     leg_specific_probabilities := Some [("none", WNum 1)];
     legs_general_probability := Some 0;
     max_legs_marked := None |}.

Definition champagne_shade_bias : obj (obj wval) :=
  [("Gold Champagne", [("standard", WNum 1)]);
   ("Amber Champagne", [("standard", WNum 1)]);
   ("Classic Champagne", [("standard", WNum 1)]);
   ("Gold Cream Champagne", [("standard", WNum 1)]);
   ("Amber Cream Champagne", [("standard", WNum 1)]);
   ("Classic Cream Champagne", [("standard", WNum 1)]);
   ("Gold Dun Champagne", [("standard", WNum 1)]);
   ("Amber Dun Champagne", [("standard", WNum 1)]);
   ("Classic Dun Champagne", [("standard", WNum 1)]);
   ("Gold Cream Dun Champagne", [("standard", WNum 1)]);
   ("Amber Cream Dun Champagne", [("standard", WNum 1)]);
   ("Classic Cream Dun Champagne", [("standard", WNum 1)])].

Definition gold_champagne_profile : BreedProfile :=
  {| allele_weights := None; disallowed_combinations := None; allowed_alleles := None;
     boolean_modifiers_prevalence := None;
     shade_bias := Some champagne_shade_bias;
     marking_bias := Some test_marking_bias;
     advanced_markings_bias := None |}.

Definition palomino_pearl_profile : BreedProfile :=
  {| allele_weights := None; disallowed_combinations := None; allowed_alleles := None;
     boolean_modifiers_prevalence := None;
     shade_bias := Some [("Palomino Pearl", [("copper", WNum 1)])];
     marking_bias := Some test_marking_bias;
     advanced_markings_bias := None |}.

Definition extension_agouti_profile : BreedProfile :=
  {| allele_weights :=
       Some [("E_Extension", [("E/E", WNum (3 # 10)); ("E/e", WNum (4 # 10)); ("e/e", WNum (3 # 10))]);
             ("A_Agouti", [("A/A", WNum (3 # 10)); ("A/a", WNum (4 # 10)); ("a/a", WNum (3 # 10))])];
     disallowed_combinations := Some [];
     allowed_alleles :=
       Some [("E_Extension", ["E/E"; "E/e"; "e/e"]); ("A_Agouti", ["A/A"; "A/a"; "a/a"])];
     boolean_modifiers_prevalence := None; shade_bias := None; marking_bias := None;
     advanced_markings_bias := None |}.

Definition empty_maps_profile : BreedProfile :=
  {| allele_weights := Some []; disallowed_combinations := Some [];
     allowed_alleles := Some [];
     boolean_modifiers_prevalence := None; shade_bias := None; marking_bias := None;
     advanced_markings_bias := None |}.

Definition mushroom_pearl_profile : BreedProfile :=
  {| allele_weights := None; disallowed_combinations := None; allowed_alleles := None;
     boolean_modifiers_prevalence := None;
     shade_bias := Some [("Mushroom Pearl", [("standard", WNum 1)])];
     marking_bias := Some test_marking_bias;
     advanced_markings_bias := None |}.

(** A profile that disallows [E/E] at [E_Extension]. *)
Definition no_EE_profile : BreedProfile :=
  {| allele_weights := Some [("E_Extension", [("e/e", WNum 1); ("E/E", WNum 1)])];
     disallowed_combinations := Some [("E_Extension", ["E/E"])];
     allowed_alleles := Some [("E_Extension", ["E/E"; "E/e"; "e/e"])];
     boolean_modifiers_prevalence := Some [("sooty", WNum (1 # 2))];
     shade_bias := None; marking_bias := None; advanced_markings_bias := None |}.

Definition heterozygous_E_parent : Genotype :=
  [("E_Extension", GStr "E/e"); ("sooty", GBool true)].


(** * Further predicates and sample data *)

From Stdlib Require Import Lqa.

(** The sum of the valid weights of [items], as the first loop of
    [selectWeightedRandom] computes it. *)
Definition total_weight (o : obj wval) (items : list string) : Q :=
  sum_weights o items 0.

(** The world after one call of [Math.random]. *)
Definition after_draw (w : World) : World :=
  MkWorld (random_source w) (S (random_next w)) (console w).

(** A prevalence that [generateStoreHorseGenetics] accepts: a number
    between 0 and 1. *)
Definition valid_prevalence (v : option wval) : option Q :=
  match v with
  | Some (WNum q) => if Qle_bool 0 q && Qle_bool q 1 then Some q else None
  | _ => None
  end.


Definition sooty_profile (prevalence : wval) : BreedProfile :=
  {| allele_weights := Some [("E_Extension", [("e/e", WNum 1)])];
     disallowed_combinations := None; allowed_alleles := None;
     boolean_modifiers_prevalence := Some [("sooty", prevalence)];
     shade_bias := None; marking_bias := None; advanced_markings_bias := None |}.

(** Where a property of a generated genotype comes from: an allele pair is
    a key of the locus's table in [allele_weights], a boolean belongs to a
    modifier listed in [boolean_modifiers_prevalence]. *)
Definition from_profile (p : BreedProfile) (key : string) (v : gval) : Prop :=
  (exists allelePair aw table,
      v = GStr allelePair /\ allele_weights p = Some aw
      /\ lookup aw key = Some table /\ In allelePair (keys table))
  \/ (exists b bmp,
         v = GBool b /\ boolean_modifiers_prevalence p = Some bmp /\ In key (keys bmp)).

(** [fp] joins one allele of the sire's pair and one of the dam's. *)
Definition mendelian (sirePair damPair fp : string) : Prop :=
  exists a b,
    In a (JsString.split_slash sirePair) /\ In b (JsString.split_slash damPair)
    /\ (fp = pair_of a b \/ fp = pair_of b a).

(** Where a property of a foal's genotype comes from: an allele pair is
    drawn from the parents (and is then one of the allowed pairs, when the
    profile has [allowed_alleles]), or is a key of the locus's weight
    table, or is one of the allowed pairs; a boolean modifier is a boolean
    or a parent's value. *)
Definition foal_provenance (sire dam : Genotype) (p : BreedProfile)
    (key : string) (v : gval) : Prop :=
  (exists fp,
      v = GStr fp /\ In key (genesToInherit sire dam p)
      /\ ((exists s d, lookup sire key = Some (GStr s) /\ lookup dam key = Some (GStr d)
                       /\ mendelian s d fp
                       /\ (allowed_alleles p = None
                           \/ In fp (listed (allowed_alleles p) key)))
          \/ (exists aw table, allele_weights p = Some aw /\ lookup aw key = Some table
                               /\ In fp (keys table))
          \/ In fp (listed (allowed_alleles p) key)))
  \/ (In key booleanModifiers
      /\ (exists bmp, boolean_modifiers_prevalence p = Some bmp /\ In key (keys bmp))
      /\ ((exists b, v = GBool b) \/ lookup sire key = Some v \/ lookup dam key = Some v)).

Definition bay_tobiano_sire : Genotype :=
  [("E_Extension", GStr "E/e"); ("TO_Tobiano", GStr "TO/to"); ("sooty", GBool true)].

Definition chestnut_dam : Genotype :=
  [("E_Extension", GStr "e/e"); ("TO_Tobiano", GStr "to/to"); ("sooty", GBool true)].

Definition unconstrained_profile : BreedProfile :=
  {| allele_weights := None; disallowed_combinations := None; allowed_alleles := None;
     boolean_modifiers_prevalence := Some [("sooty", WNum (1 # 2))];
     shade_bias := None; marking_bias := None; advanced_markings_bias := None |}.

(** The console of [w'] is the console of [w] followed by entries that
    are all the error of [selectWeightedRandom] on invalid items. *)
Definition only_invalid_items_logged (w w' : World) : Prop :=
  exists extra,
    console w' = console w ++ extra
    /\ forall d, In d extra -> d = Error_InvalidWeightedItems.

(** Whatever [m] returns, it has logged nothing but that error. *)
Definition quiet {A} (m : Exec A) : Prop :=
  forall w a w', m w = Returned (a, w') -> only_invalid_items_logged w w'.

(** The number of legs with a marking other than ['none']. *)
Definition marked_legs (l : Legs) : nat :=
  length (filter (fun marking => negb (marking =? "none")) [LF l; RF l; LH l; RH l]).

Definition unmarked_legs : Legs :=
  {| LF := "none"; RF := "none"; LH := "none"; RH := "none" |}.

Definition sooty_bay_genotype : Genotype :=
  [("E_Extension", GStr "E/e"); ("A_Agouti", GStr "A/a"); ("sooty", GBool true)].

Definition two_socks_bias : MarkingBias :=
  {| face := Some [("star", WNum 1)];
     leg_specific_probabilities := Some [("sock", WNum 1)];
     legs_general_probability := Some 1;
     max_legs_marked := Some (inject_Z 2) |}.

Definition two_socks_profile : BreedProfile :=
  {| allele_weights := None; disallowed_combinations := None; allowed_alleles := None;
     boolean_modifiers_prevalence := None; shade_bias := None;
     marking_bias := Some two_socks_bias; advanced_markings_bias := None |}.

(** The loci on whose value [determinePhenotype] calls a string method
    ([includes] or [split]) on every run that gets that far. *)
Definition loci_always_read : list string :=
  ["E_Extension"; "Cr_Cream"; "D_Dun"; "CH_Champagne"; "Z_Silver"; "Rn_Roan";
   "W_DominantWhite"; "LP_LeopardComplex"; "PATN1_Pattern1"; "G_Gray"].

(** The same for code that cannot throw. *)
Definition quiet_eff {A} (m : Eff A) : Prop :=
  forall w, only_invalid_items_logged w (snd (m w)).

(** [breedGeneticProfile && breedGeneticProfile.shade_bias] and the like:
    [None] when the profile or the field is missing. *)
Definition shade_bias_of (profile : option BreedProfile) : option (obj (obj wval)) :=
  match profile with Some p => shade_bias p | None => None end.

Definition marking_bias_of (profile : option BreedProfile) : option MarkingBias :=
  match profile with Some p => marking_bias p | None => None end.

Definition face_bias_of (profile : option BreedProfile) : option (obj wval) :=
  match marking_bias_of profile with Some mb => face mb | None => None end.

(** The loci that a chestnut base hides: [A_Agouti] is read only when
    the base is not chestnut, and [Z_Silver] only acts on black pigment. *)
Definition masked_by_chestnut : list string := ["A_Agouti"; "Z_Silver"].

(** Two genotypes that differ at most at the loci of [masked]. *)
Definition agree_outside (masked : list string) (g g' : Genotype) : Prop :=
  forall key, ~ In key masked -> lookup g key = lookup g' key.

Definition chestnut_silver_genotype : Genotype :=
  [("E_Extension", GStr "e/e"); ("A_Agouti", GStr "A/a"); ("Z_Silver", GStr "Z/n");
   ("Cr_Cream", GStr "Cr/n"); ("flaxen", GBool true)].

Definition chestnut_plain_genotype : Genotype :=
  [("E_Extension", GStr "e/e"); ("Cr_Cream", GStr "Cr/n"); ("flaxen", GBool true);
   ("A_Agouti", GBool true)].

(** The profile lists no boolean modifier other than the four that
    [determinePhenotype] and [calculateFoalGenetics] know. *)
Definition only_known_modifiers (p : BreedProfile) : Prop :=
  forall bmp modifier,
    boolean_modifiers_prevalence p = Some bmp -> In modifier (keys bmp) ->
    In modifier booleanModifiers.

(** [s.startsWith(' ')] *)
Definition starts_with_space (s : string) : bool :=
  match s with
  | String c _ => Ascii.eqb c " "
  | EmptyString => false
  end.

(** A locus is in the genotype, or the console says since [w0] that no
    valid pair was found for it. *)
Definition assigned_or_reported (gene : string) (w0 : World) (foal : Genotype)
    (w : World) : Prop :=
  (exists v, lookup foal gene = Some v)
  \/ (exists extra, console w = console w0 ++ extra /\ In (Warn_NoValidPair gene) extra).

Definition nothing_allowed_profile : BreedProfile :=
  {| allele_weights := None; disallowed_combinations := None;
     allowed_alleles := Some [("E_Extension", ["E/E"]); ("KIT", [])];
     boolean_modifiers_prevalence := None; shade_bias := None; marking_bias := None;
     advanced_markings_bias := None |}.

(** [fullGenotype[gene]] is a string that contains [allele]. *)
Definition carries (g : Genotype) (gene allele : string) : Prop :=
  exists s, lookup g gene = Some (GStr s) /\ JsString.includes s allele = true.

Definition leopard_genotype : Genotype :=
  [("E_Extension", GStr "E/e"); ("LP_LeopardComplex", GStr "LP/LP")].

(** [Object.keys(profile.boolean_modifiers_prevalence)], empty when the
    field is missing. *)
Definition definedModifiers (p : BreedProfile) : list string :=
  match boolean_modifiers_prevalence p with
  | Some bmp => keys bmp
  | None => []
  end.

(** A genotype with no property other than the two base-coat loci. *)
Definition only_base_loci (g : Genotype) : Prop :=
  forall key, key <> "E_Extension" -> key <> "A_Agouti" -> lookup g key = None.

Definition plain_result (color : string) : PhenotypeResult :=
  {| final_display_color := color;
     phenotypic_markings := initial_markings;
     determined_shade := "standard" |}.

(** The locus that shows only when homozygous, or with a single cream. *)
Definition masked_pearl : list string := ["PRL_Pearl"].

Definition has_single_cream (g : Genotype) : bool :=
  field_is g "Cr_Cream" "Cr/n" || field_is g "Cr_Cream" "n/Cr".

Definition bay_pearl_carrier : Genotype :=
  [("E_Extension", GStr "E/e"); ("A_Agouti", GStr "A/a"); ("PRL_Pearl", GStr "prl/n")].

(** A locus is in the generated genotype, or the console says since [w0]
    why it is not: no allele could be chosen, or the chosen pair is
    disallowed. *)
Definition generated_or_reported (gene : string) (w0 : World) (g : Genotype)
    (w : World) : Prop :=
  (exists v, lookup g gene = Some v)
  \/ (exists extra,
         console w = console w0 ++ extra
         /\ (In (Warn_NoAllele gene) extra
             \/ exists allelePair, In (Warn_DisallowedPair allelePair gene) extra)).

(** ** Values that the type of a genotype excludes *)

(** None of the [loci] holds the boolean [true], the one value of a
    property on which the call of a string method throws. *)
Definition holds_no_true (g : Genotype) (loci : list string) : Prop :=
  forall gene, In gene loci -> lookup g gene <> Some (GBool true).

(** The locus that is read for the base coat after [E_Extension]:
    [MFSD12_Mushroom] on a chestnut base, [A_Agouti] on another. *)
Definition base_locus_read (g : Genotype) : string :=
  if field_is g "E_Extension" "e/e" then "MFSD12_Mushroom" else "A_Agouti".

(** The loci on which a string method is called when dominant white
    covers the whole coat. *)
Definition loci_read_when_white (g : Genotype) : list string :=
  base_locus_read g :: loci_always_read.

(** The same when it does not: the white patterns are read as well. *)
Definition loci_read (g : Genotype) : list string :=
  loci_read_when_white g
  ++ ["O_FrameOvero"; "TO_Tobiano"; "SB1_Sabino1"; "SW_SplashWhite"; "EDXW"].

(** Whatever [m] returns in the world [w] satisfies [P]. *)
Definition partially {A} (m : Exec A) (w : World) (P : A -> Prop) : Prop :=
  forall a w', m w = Returned (a, w') -> P a.

(** The same as a test. *)
Definition holds_no_true_b (g : Genotype) (loci : list string) : bool :=
  forallb (fun gene => negb (flag_true g gene)) loci.

(** What [base_coat] returns follows [E_Extension]: chestnut is [e/e]. *)
Definition base_follows_extension (g : Genotype) (r : string * bool) : Prop :=
  snd r = field_is g "E_Extension" "e/e"
  /\ (if field_is g "E_Extension" "e/e" then fst r = "Chestnut"
      else In (fst r) ["Bay"; "Black"]).

(** The colour of a gray horse in the words of the specification: the
    tone is Rose on a chestnut base, which is [e/e] at [E_Extension], and
    Steel on a bay or black one; the name follows the age band. *)
Definition spec_gray_display (g : Genotype) (ageInYears : Q) : string :=
  let tone := if field_is g "E_Extension" "e/e" then "Rose" else "Steel" in
  if Qle_bool ageInYears 3 then tone ++ " Gray"
  else if Qle_bool ageInYears 6 then tone ++ " Dark Dapple Gray"
  else if Qle_bool ageInYears 9 then tone ++ " Light Dapple Gray"
  else if Qle_bool ageInYears 12 then "White Gray"
  else "Fleabitten Gray".

Definition lethal_white_genotype : Genotype :=
  [("E_Extension", GStr "E/e"); ("W_DominantWhite", GStr "W2/w"); ("G_Gray", GStr "G/g");
   ("rabicano", GBool true); ("TO_Tobiano", GBool true); ("D_Dun", GBool false)].

Definition lethal_white_boolean_gray : Genotype :=
  [("W_DominantWhite", GStr "W2/w"); ("G_Gray", GBool true)].

Definition chestnut_gray_genotype : Genotype :=
  [("E_Extension", GStr "e/e"); ("A_Agouti", GBool true); ("G_Gray", GStr "G/g");
   ("TO_Tobiano", GStr "TO/to"); ("D_Dun", GBool false)].

Definition bay_gray_genotype : Genotype :=
  [("E_Extension", GStr "E/e"); ("A_Agouti", GStr "A/a"); ("G_Gray", GStr "G/g");
   ("Cr_Cream", GStr "Cr/n"); ("rabicano", GBool true)].

Definition black_gray_genotype : Genotype :=
  [("E_Extension", GStr "E/E"); ("A_Agouti", GStr "a/a"); ("G_Gray", GStr "g/G");
   ("LP_LeopardComplex", GStr "LP/lp")].

Definition gray_boolean_tobiano : Genotype :=
  [("E_Extension", GStr "E/e"); ("G_Gray", GStr "G/g"); ("TO_Tobiano", GBool true)].

(** ** The order of the keys of an object *)

Definition is_digit (c : ascii) : bool :=
  (48 <=? nat_of_ascii c)%nat && (nat_of_ascii c <=? 57)%nat.

(** The number that a string of decimal digits denotes. *)
Fixpoint digits_value (s : string) (acc : N) : option N :=
  match s with
  | EmptyString => Some acc
  | String c rest =>
      if is_digit c then digits_value rest (10 * acc + (N_of_ascii c - 48))%N else None
  end.

(** An array index: the canonical decimal numeral of an integer from 0
    to 2^32 - 2. *)
Definition array_index (key : string) : option N :=
  match key with
  | EmptyString => None
  | String c rest =>
      if Ascii.eqb c "0" && nonempty rest then None
      else
        match digits_value key 0 with
        | Some n => if (n <? 4294967295)%N then Some n else None
        | None => None
        end
  end.

Fixpoint insert_index {V} (n : N) (property : string * V)
    (sorted : list (N * (string * V))) : list (N * (string * V)) :=
  match sorted with
  | [] => [(n, property)]
  | (m, property') :: rest =>
      if (n <? m)%N then (n, property) :: sorted
      else (m, property') :: insert_index n property rest
  end.

(** The properties in the order of [Object.keys] and of [for ... in]:
    the array indices in ascending order, then the other keys in the
    order in which they were created. *)
Definition enumeration_order {V} (created : list (string * V)) : obj V :=
  map snd
      (fold_left (fun sorted property =>
                    match array_index (fst property) with
                    | Some n => insert_index n property sorted
                    | None => sorted
                    end) created [])
  ++ filter (fun property => match array_index (fst property) with
                             | Some _ => false
                             | None => true
                             end) created.

(** The object that an object literal with these properties denotes: a
    key written twice keeps its first place and takes the later value. *)
Definition object_literal {V} (properties : list (string * V)) : obj V :=
  enumeration_order (fold_left (fun o property => set o (fst property) (snd property))
                               properties []).

(** ** Keys that [Object.prototype] defines *)

(** The names that every object inherits: [o[name]] is not [undefined]
    for them although [o] has no such property, and an assignment to
    [__proto__] creates none. *)
Definition prototype_names : list string :=
  ["constructor"; "__defineGetter__"; "__defineSetter__"; "hasOwnProperty";
   "__lookupGetter__"; "__lookupSetter__"; "isPrototypeOf"; "propertyIsEnumerable";
   "toString"; "valueOf"; "__proto__"; "toLocaleString"].

Definition ordinary (key : string) : Prop := ~ In key prototype_names.

(** The string that exactly one parent holds under the name. *)
Definition held_by_one_parent (sire dam : Genotype) (name : string) (v : gval) : Prop :=
  (lookup sire name = Some v /\ lookup dam name = None)
  \/ (lookup sire name = None /\ lookup dam name = Some v).

(** A profile that makes [sooty] a locus, with [E/E] disallowed, and
    lists it as a boolean modifier as well. *)
Definition sooty_locus_profile : BreedProfile :=
  {| allele_weights := None;
     disallowed_combinations := Some [("sooty", ["E/E"])];
     allowed_alleles := Some [("sooty", ["e/e"; "E/E"])];
     boolean_modifiers_prevalence := Some [("sooty", WNum (1 # 4))];
     shade_bias := None; marking_bias := None; advanced_markings_bias := None |}.

(** Every key of the list is an ordinary one: for such keys the
    properties that an object has are the ones that [o[key]] finds, and
    [o[key] = v] stores one. *)
Definition ordinary_keys (names : list string) : Prop :=
  forall key, In key names -> ordinary key.

(** The same as a test. *)
Definition ordinary_keys_b (names : list string) : bool :=
  forallb (fun key => negb (JsString.mem key prototype_names)) names.

(** The loci for which [generateStoreHorseGenetics] chooses a pair. *)
Definition weighted_loci (p : BreedProfile) : list string :=
  match allele_weights p with
  | Some aw => keys aw
  | None => []
  end.
(** * Properties *)

(** ** Strings *)

Example split_pair : JsString.split_slash "Ch/n" = ["Ch"; "n"].
Proof. reflexivity. Qed.

Example split_empty : JsString.split_slash "" = [""].
Proof. reflexivity. Qed.

Example trim_both : JsString.trim "  Rose Gray " = "Rose Gray".
Proof. reflexivity. Qed.

Example replace_pearl :
  JsString.replace_all_ci "Pearl Pearl" "Pearl" "Bay pearl Pearl Pearl" = "Bay Pearl Pearl".
Proof. reflexivity. Qed.

Example collapse_runs : JsString.collapse_spaces "a   b c" = "a b c".
Proof. reflexivity. Qed.

(** ** Sample runs *)

(** ** Arrays and objects *)

Lemma mem_In (x : string) (xs : list string) : JsString.mem x xs = true <-> In x xs.
Proof.
  unfold JsString.mem. rewrite existsb_exists. split.
  - intros [y [Hy E]]. apply String.eqb_eq in E. now subst.
  - intros H. exists x. split; [assumption | apply String.eqb_refl].
Qed.

Lemma mem_false_In (x : string) (xs : list string) : JsString.mem x xs = false <-> ~ In x xs.
Proof.
  rewrite <- mem_In. destruct (JsString.mem x xs); split; congruence.
Qed.

Lemma lookup_set {V} (o : obj V) (k k' : string) (v : V) :
  lookup (set o k v) k' = if String.eqb k k' then Some v else lookup o k'.
Proof.
  induction o as [| [k0 v0] rest IH]; simpl.
  - reflexivity.
  - destruct (String.eqb k0 k) eqn:E0; simpl.
    + apply String.eqb_eq in E0. subst k0.
      destruct (String.eqb k k'); reflexivity.
    + rewrite IH. destruct (String.eqb k0 k') eqn:E1; [| reflexivity].
      apply String.eqb_eq in E1. subst k0. now rewrite String.eqb_sym, E0.
Qed.

Lemma lookup_set_other {V} (o : obj V) (k k' : string) (v : V) :
  k <> k' -> lookup (set o k v) k' = lookup o k'.
Proof.
  intros H. rewrite lookup_set. apply String.eqb_neq in H. now rewrite H.
Qed.

Lemma dedup_incl (seen ks : list string) (k : string) : In k (dedup seen ks) -> In k ks.
Proof.
  revert seen. induction ks as [| k0 rest IH]; simpl; intros seen H.
  - assumption.
  - destruct (JsString.mem k0 seen).
    + right. eapply IH. eassumption.
    + destruct H as [H | H]; [now left | right; eapply IH; eassumption].
Qed.

Lemma dedup_complete (seen ks : list string) (k : string) :
  In k ks -> In k seen \/ In k (dedup seen ks).
Proof.
  revert seen. induction ks as [| k0 rest IH]; simpl; intros seen H.
  - contradiction.
  - destruct (JsString.mem k0 seen) eqn:E.
    + destruct H as [H | H].
      * subst. left. now apply mem_In.
      * now apply IH.
    + destruct H as [H | H].
      * subst. right. now left.
      * destruct (IH (k0 :: seen) H) as [[H1 | H1] | H1].
        -- subst. right. now left.
        -- now left.
        -- right. now right.
Qed.

Lemma dedup_fresh (seen ks : list string) (k : string) :
  In k (dedup seen ks) -> ~ In k seen.
Proof.
  revert seen. induction ks as [| k0 rest IH]; simpl; intros seen H.
  - contradiction.
  - destruct (JsString.mem k0 seen) eqn:E.
    + now apply IH.
    + destruct H as [H | H].
      * subst. now apply mem_false_In.
      * intros Hs. apply (IH _ H). now right.
Qed.

Lemma dedup_NoDup (seen ks : list string) : NoDup (dedup seen ks).
Proof.
  revert seen. induction ks as [| k0 rest IH]; simpl; intros seen.
  - constructor.
  - destruct (JsString.mem k0 seen).
    + apply IH.
    + constructor; [| apply IH].
      intros H. apply dedup_fresh in H. apply H. now left.
Qed.

Lemma keys_NoDup {V} (o : obj V) : NoDup (keys o).
Proof. apply dedup_NoDup. Qed.

Lemma lookup_In_fst {V} (o : obj V) (k : string) (v : V) :
  lookup o k = Some v -> In k (map fst o).
Proof.
  induction o as [| [k0 v0] rest IH]; simpl; intros H.
  - discriminate.
  - destruct (String.eqb k0 k) eqn:E.
    + left. now apply String.eqb_eq.
    + right. now apply IH.
Qed.

Lemma lookup_In_keys {V} (o : obj V) (k : string) (v : V) :
  lookup o k = Some v -> In k (keys o).
Proof.
  intros H. apply lookup_In_fst in H.
  destruct (dedup_complete [] _ _ H) as [[] | H']. exact H'.
Qed.

Lemma keys_In_fst {V} (o : obj V) (k : string) : In k (keys o) -> In k (map fst o).
Proof. apply dedup_incl. Qed.

Lemma keys_cons {V} (k : string) (v : V) (rest : obj V) :
  keys ((k, v) :: rest) = k :: dedup [k] (map fst rest).
Proof. reflexivity. Qed.

(** ** [selectWeightedRandom] *)

Lemma walk_weights_In (o : obj wval) (items : list string) (r : Q) (item : string) :
  walk_weights o items r = Some item -> In item items.
Proof.
  revert r. induction items as [| i rest IH]; simpl; intros r H.
  - discriminate.
  - destruct (valid_weight o i) as [q |].
    + destruct (Qltb r q).
      * left. congruence.
      * right. eapply IH. eassumption.
    + right. eapply IH. eassumption.
Qed.

Lemma sum_weights_no_valid (o : obj wval) (items : list string) (acc : Q) :
  (forall item, In item items -> valid_weight o item = None) ->
  sum_weights o items acc = acc.
Proof.
  revert acc. induction items as [| i rest IH]; simpl; intros acc H.
  - reflexivity.
  - rewrite (H i (or_introl eq_refl)). apply IH. intros item Hi. apply H. now right.
Qed.

Lemma validItems_nil (o : obj wval) :
  validItems o = [] -> forall item, In item (keys o) -> valid_weight o item = None.
Proof.
  unfold validItems. intros H item Hi.
  destruct (valid_weight o item) eqn:E; [| reflexivity].
  assert (Hin : In item (filter (fun key => match valid_weight o key with
                                            | Some _ => true | None => false end) (keys o))).
  { apply filter_In. split; [assumption | now rewrite E]. }
  rewrite H in Hin. contradiction.
Qed.

Lemma last_map_Some {A} (xs : list A) (x : A) :
  xs <> [] -> exists y, last (map Some xs) None = Some y /\ In y xs.
Proof.
  induction xs as [| a rest IH]; intros H.
  - congruence.
  - destruct rest as [| b rest'].
    + exists a. simpl. auto.
    + destruct IH as [y [E Hy]]; [discriminate |].
      exists y. split; [exact E | now right].
Qed.

(** The outcomes of [selectWeightedRandom] on an object. *)
Lemma selectWeightedRandom_cases (o : obj wval) (w : World) :
  (keys o = [] /\ fst (selectWeightedRandom (Some o) w) = None)
  \/ exists k, fst (selectWeightedRandom (Some o) w) = Some k /\ In k (keys o).
Proof.
  unfold selectWeightedRandom.
  destruct (keys o) as [| key0 rest] eqn:K.
  - left. split; reflexivity.
  - right. destruct (Qeq_bool (sum_weights o (key0 :: rest) 0) 0) eqn:Z.
    + exists key0. split; [reflexivity | now left].
    + unfold bind. cbn [fst snd Math_random].
      destruct (walk_weights o (key0 :: rest) _) as [item |] eqn:Wk.
      * exists item. split; [reflexivity |]. eapply walk_weights_In. eassumption.
      * assert (Hv : validItems o <> []).
        { intros Hnil. rewrite <- K in Z.
          rewrite sum_weights_no_valid in Z by (apply validItems_nil; assumption).
          discriminate. }
        destruct (last_map_Some (validItems o) key0 Hv) as [y [E Hy]].
        exists y. split; [exact E |].
        unfold validItems in Hy. apply filter_In in Hy. rewrite <- K. tauto.
Qed.

Lemma selectWeightedRandom_zero_sum (k : string) (v : wval) (rest : obj wval) (w : World) :
  sum_weights ((k, v) :: rest) (keys ((k, v) :: rest)) 0 == 0 ->
  selectWeightedRandom (Some ((k, v) :: rest)) w = (Some k, w).
Proof.
  intros H. unfold selectWeightedRandom.
  rewrite keys_cons in *.
  apply Qeq_bool_iff in H. rewrite H. reflexivity.
Qed.

(** ** The order of the keys of an object literal *)

Lemma fold_set_head {V} (properties : list (string * V)) (k : string) (v : V) (o : obj V) :
  exists v' o',
    fold_left (fun o property => set o (fst property) (snd property)) properties ((k, v) :: o)
    = (k, v') :: o'.
Proof.
  revert v o. induction properties as [| [k1 v1] rest IH]; intros v o.
  - exists v, o. reflexivity.
  - cbn [fold_left fst snd set]. destruct (String.eqb k k1); apply IH.
Qed.

Lemma set_keys {V} (o : obj V) (k : string) (v : V) (property : string * V) :
  In property (set o k v) -> fst property = k \/ In (fst property) (map fst o).
Proof.
  induction o as [| [k1 v1] rest IH]; cbn [set].
  - intros [<- | []]. now left.
  - destruct (String.eqb k1 k) eqn:E.
    + intros [<- | H].
      * right. left. reflexivity.
      * right. right. now apply in_map.
    + intros [<- | H].
      * right. left. reflexivity.
      * destruct (IH H) as [H' | H']; [now left | right; now right].
Qed.

Lemma fold_set_keys {V} (properties : list (string * V)) (o : obj V) (property : string * V) :
  In property (fold_left (fun o property => set o (fst property) (snd property)) properties o) ->
  In (fst property) (map fst o) \/ In (fst property) (map fst properties).
Proof.
  revert o. induction properties as [| [k1 v1] rest IH]; intros o H.
  - left. now apply in_map.
  - cbn [fold_left fst snd] in H. apply IH in H. destruct H as [H | H].
    + apply in_map_iff in H. destruct H as [property' [E H]].
      apply set_keys in H. rewrite E in H.
      destruct H as [H | H]; [right; left; now symmetry | now left].
    + right. now right.
Qed.

Lemma insert_index_not_nil {V} (n : N) (property : string * V)
    (sorted : list (N * (string * V))) :
  insert_index n property sorted <> [].
Proof.
  destruct sorted as [| [m property'] rest]; cbn [insert_index]; [discriminate |].
  destruct (n <? m)%N; discriminate.
Qed.

Lemma collect_indices_not_nil {V} (created : list (string * V))
    (sorted : list (N * (string * V))) :
  sorted <> [] ->
  fold_left (fun sorted property =>
               match array_index (fst property) with
               | Some n => insert_index n property sorted
               | None => sorted
               end) created sorted <> [].
Proof.
  revert sorted. induction created as [| property rest IH]; intros sorted H; [exact H |].
  cbn [fold_left]. apply IH.
  destruct (array_index (fst property)); [apply insert_index_not_nil | exact H].
Qed.

Lemma enumeration_order_not_nil {V} (created : list (string * V)) :
  created <> [] -> enumeration_order created <> [].
Proof.
  destruct created as [| property rest]; [congruence |]. intros _.
  unfold enumeration_order. cbn [fold_left filter].
  destruct (array_index (fst property)) as [n |].
  - intros H. apply app_eq_nil in H. destruct H as [H _].
    apply map_eq_nil in H. revert H. apply collect_indices_not_nil.
    apply insert_index_not_nil.
  - intros H. apply app_eq_nil in H. destruct H as [_ H]. discriminate H.
Qed.

(** Without an array index among the keys the order is that of creation. *)
Lemma enumeration_order_plain {V} (created : list (string * V)) :
  (forall property, In property created -> array_index (fst property) = None) ->
  enumeration_order created = created.
Proof.
  intros H. unfold enumeration_order.
  assert (Hi : forall sorted,
             fold_left (fun sorted property =>
                          match array_index (fst property) with
                          | Some n => insert_index n property sorted
                          | None => sorted
                          end) created sorted = sorted).
  { induction created as [| property rest IH]; intros sorted; [reflexivity |].
    cbn [fold_left]. rewrite (H property (or_introl eq_refl)).
    apply IH. intros property' Hin. apply H. now right. }
  rewrite Hi. cbn [map app].
  induction created as [| property rest IH]; [reflexivity |].
  cbn [filter]. rewrite (H property (or_introl eq_refl)). f_equal.
  apply IH.
  - intros property' Hin. apply H. now right.
  - intros sorted. specialize (Hi sorted). cbn [fold_left] in Hi.
    now rewrite (H property (or_introl eq_refl)) in Hi.
Qed.

Lemma object_literal_not_nil {V} (property : string * V) (rest : list (string * V)) :
  object_literal (property :: rest) <> [].
Proof.
  unfold object_literal. apply enumeration_order_not_nil.
  destruct property as [k v]. cbn [fold_left set fst snd].
  destruct (fold_set_head rest k v []) as [v' [o' ->]]. discriminate.
Qed.

Lemma object_literal_plain {V} (k : string) (v : V) (rest : list (string * V)) :
  (forall key, In key (map fst ((k, v) :: rest)) -> array_index key = None) ->
  exists v' o', object_literal ((k, v) :: rest) = (k, v') :: o'.
Proof.
  intros H. unfold object_literal. rewrite enumeration_order_plain.
  - cbn [fold_left set fst snd]. apply fold_set_head.
  - intros property Hin. apply H.
    apply fold_set_keys in Hin. destruct Hin as [[] | Hin]. exact Hin.
Qed.

(** C8, as amended.  When the valid weights of a non-empty weight map
    sum to zero, [selectWeightedRandom] returns
    [Object.keys(weightedItems)[0]] without drawing a random number: the
    first key in the order of enumeration, in which the array indices
    come first.  When no key of the map is an array index this is the
    key declared first.  At [{a: 0, b: 0}] it returns ["a"]. *)
Theorem selectWeightedRandom_zero_sum_first_key :
  forall (k : string) (v : wval) (rest : list (string * wval)) (w : World),
    sum_weights (object_literal ((k, v) :: rest))
                (keys (object_literal ((k, v) :: rest))) 0 == 0 ->
    (exists first,
        hd_error (keys (object_literal ((k, v) :: rest))) = Some first
        /\ selectWeightedRandom (Some (object_literal ((k, v) :: rest))) w = (Some first, w))
    /\ ((forall key, In key (map fst ((k, v) :: rest)) -> array_index key = None) ->
        selectWeightedRandom (Some (object_literal ((k, v) :: rest))) w = (Some k, w)).
Proof.
  intros k v rest w H. split.
  - destruct (object_literal ((k, v) :: rest)) as [| [k0 v0] o] eqn:E.
    + exfalso. revert E. apply object_literal_not_nil.
    + exists k0. split; [now rewrite keys_cons |].
      now apply selectWeightedRandom_zero_sum.
  - intros plain.
    destruct (object_literal_plain k v rest plain) as [v' [o' E]].
    rewrite E in *. now apply selectWeightedRandom_zero_sum.
Qed.

Lemma selectWeightedRandom_zero_sum_first_key_witness :
  object_literal [("a", WNum 0); ("b", WNum 0)] = [("a", WNum 0); ("b", WNum 0)]
  /\ selectWeightedRandom (Some (object_literal [("a", WNum 0); ("b", WNum 0)]))
                          (constant_world draw_of_half)
     = (Some "a", constant_world draw_of_half).
Proof.
  split.
  - reflexivity.
  - apply (selectWeightedRandom_zero_sum_first_key "a" (WNum 0) [("b", WNum 0)]).
    + reflexivity.
    + intros key [<- | [<- | []]]; reflexivity.
Defined.

(** C8, as stated, fails: in the map [{b: 0, 1: 0}] the key declared
    first is [b], but the array index [1] is enumerated first and is the
    key returned. *)
Lemma selectWeightedRandom_zero_sum_first_key_counterexample :
  object_literal [("b", WNum 0); ("1", WNum 0)] = [("1", WNum 0); ("b", WNum 0)]
  /\ sum_weights (object_literal [("b", WNum 0); ("1", WNum 0)])
                 (keys (object_literal [("b", WNum 0); ("1", WNum 0)])) 0 == 0
  /\ selectWeightedRandom (Some (object_literal [("b", WNum 0); ("1", WNum 0)]))
                          (constant_world draw_of_half)
     = (Some "1", constant_world draw_of_half)
  /\ "1" <> "b".
Proof.
  split; [reflexivity | split; [reflexivity | split; [reflexivity | discriminate]]].
Qed.



(** ** [generateStoreHorseGenetics] *)

Lemma for_each_invariant {A X} (P : A -> Prop) (body : A -> X -> Eff A) (xs : list X) :
  (forall acc x w, P acc -> P (fst (body acc x w))) ->
  forall acc w, P acc -> P (fst (for_each xs body acc w)).
Proof.
  intros Hbody. induction xs as [| x rest IH]; intros acc w H.
  - exact H.
  - simpl. unfold bind. apply IH. now apply Hbody.
Qed.

(** An invariant of a loop whose body keeps it on the elements of the list. *)
Lemma for_each_invariant_in {A X} (P : A -> Prop) (body : A -> X -> Eff A) (xs : list X) :
  (forall acc x w, In x xs -> P acc -> P (fst (body acc x w))) ->
  forall acc w, P acc -> P (fst (for_each xs body acc w)).
Proof.
  induction xs as [| x rest IH]; intros Hbody acc w H.
  - exact H.
  - simpl. unfold bind. apply IH.
    + intros acc' x' w' Hin. apply Hbody. now right.
    + apply Hbody; [now left | exact H].
Qed.

Lemma disallowed_includes_spec (p : BreedProfile) (gene allelePair : string) :
  disallowed_includes p gene allelePair = true
  <-> exists dc pairs, disallowed_combinations p = Some dc
                       /\ lookup dc gene = Some pairs /\ In allelePair pairs.
Proof.
  unfold disallowed_includes. split.
  - destruct (disallowed_combinations p) as [dc |]; [| discriminate].
    destruct (lookup dc gene) as [pairs |] eqn:L; [| discriminate].
    intros H. exists dc, pairs. split; [reflexivity | split; [exact L | now apply mem_In]].
  - intros [dc [pairs [-> [-> H]]]]. now apply mem_In.
Qed.

Lemma generate_gene_respects (p : BreedProfile) (aw : obj (obj wval))
    (acc : Genotype) (gene : string) (w : World) :
  respects_disallowed p acc -> respects_disallowed p (fst (generate_gene p aw acc gene w)).
Proof.
  intros H. unfold generate_gene, bind.
  destruct (fst (selectWeightedRandom (lookup aw gene) w)) as [chosen |]; [| exact H].
  destruct (nonempty chosen); [| exact H].
  destruct (disallowed_includes p gene chosen) eqn:D; [exact H |].
  intros gene' s. cbn [fst ret]. rewrite lookup_set.
  destruct (String.eqb gene gene') eqn:E.
  - apply String.eqb_eq in E. subst gene'. intros [= <-]. exact D.
  - apply H.
Qed.

Lemma generate_modifier_respects (p : BreedProfile) (bmp : obj wval)
    (acc : Genotype) (modifier : string) (w : World) :
  respects_disallowed p acc -> respects_disallowed p (fst (generate_modifier bmp acc modifier w)).
Proof.
  intros H.
  assert (Hset : forall b, respects_disallowed p (set acc modifier (GBool b))).
  { intros b gene' s. rewrite lookup_set.
    destruct (String.eqb modifier gene'); [discriminate | apply H]. }
  unfold generate_modifier, bind.
  destruct (lookup bmp modifier) as [[q |] |]; try apply Hset.
  destruct (Qle_bool 0 q && Qle_bool q 1); apply Hset.
Qed.

Lemma generateStoreHorseGenetics_respects (p : BreedProfile) (w : World) :
  respects_disallowed p (fst (generateStoreHorseGenetics (Some p) w)).
Proof.
  unfold generateStoreHorseGenetics, bind.
  assert (Hg : respects_disallowed p (fst (generate_genes p [] w))).
  { unfold generate_genes. destruct (allele_weights p) as [aw |].
    - apply for_each_invariant; [intros; now apply generate_gene_respects |].
      intros gene s H. discriminate.
    - intros gene s H. discriminate. }
  unfold generate_modifiers. destruct (boolean_modifiers_prevalence p) as [bmp |].
  - apply for_each_invariant; [intros; now apply generate_modifier_respects | exact Hg].
  - exact Hg.
Qed.

(** ** [generateStoreHorseGenetics]: what a warning in the console means *)

Lemma selectWeightedRandom_console (x : option (obj wval)) (w : World) :
  exists extra,
    console (snd (selectWeightedRandom x w)) = console w ++ extra
    /\ forall d, In d extra -> d = Error_InvalidWeightedItems.
Proof.
  assert (Herr : exists extra,
             console (snd ((emit Error_InvalidWeightedItems ;; ret (@None string)) w))
             = console w ++ extra
             /\ forall d, In d extra -> d = Error_InvalidWeightedItems).
  { exists [Error_InvalidWeightedItems]. split; [reflexivity |].
    intros d [<- | []]. reflexivity. }
  assert (Hnone : forall w' : World, console w' = console w ->
             exists extra, console w' = console w ++ extra
                           /\ forall d, In d extra -> d = Error_InvalidWeightedItems).
  { intros w' E. exists []. rewrite app_nil_r. split; [exact E | intros d []]. }
  unfold selectWeightedRandom. destruct x as [o |]; [| exact Herr].
  destruct (keys o) as [| key0 rest]; [exact Herr |].
  destruct (Qeq_bool _ 0); [now apply Hnone |].
  unfold bind. cbn [fst snd Math_random].
  destruct (walk_weights o (key0 :: rest) _); now apply Hnone.
Qed.

(** One round of the loop over [allele_weights]: the lines it writes, the
    keys it leaves alone, and what a disallowed-pair warning means. *)
Lemma generate_gene_round (p : BreedProfile) (aw : obj (obj wval))
    (acc : Genotype) (gene : string) (w : World) :
  exists extra,
    console (snd (generate_gene p aw acc gene w)) = console w ++ extra
    /\ (forall y, y <> gene -> lookup (fst (generate_gene p aw acc gene w)) y = lookup acc y)
    /\ (forall allelePair g', In (Warn_DisallowedPair allelePair g') extra ->
                              g' = gene /\ fst (generate_gene p aw acc gene w) = acc).
Proof.
  unfold generate_gene, bind.
  destruct (selectWeightedRandom_console (lookup aw gene) w) as [extra [E Hx]].
  set (sel := selectWeightedRandom (lookup aw gene) w) in *.
  assert (Hquiet : forall allelePair g', ~ In (Warn_DisallowedPair allelePair g') extra).
  { intros allelePair g' H. apply Hx in H. discriminate H. }
  assert (Hwarn : exists extra',
             console (snd ((emit (Warn_NoAllele gene) ;; ret acc) (snd sel)))
             = console w ++ extra'
             /\ (forall y, y <> gene ->
                           lookup (fst ((emit (Warn_NoAllele gene) ;; ret acc) (snd sel))) y
                           = lookup acc y)
             /\ (forall allelePair g', In (Warn_DisallowedPair allelePair g') extra' ->
                    g' = gene /\ fst ((emit (Warn_NoAllele gene) ;; ret acc) (snd sel)) = acc)).
  { exists (extra ++ [Warn_NoAllele gene]).
    split; [unfold bind; cbn; rewrite E; symmetry; apply app_assoc |].
    split; [reflexivity |].
    intros allelePair g' H. apply in_app_or in H. destruct H as [H | [H | []]].
    - now apply Hquiet in H.
    - discriminate H. }
  destruct (fst sel) as [chosen |]; [| exact Hwarn].
  destruct (nonempty chosen); [| exact Hwarn].
  destruct (disallowed_includes p gene chosen).
  - exists (extra ++ [Warn_DisallowedPair chosen gene]).
    split; [unfold bind; cbn; rewrite E; symmetry; apply app_assoc |].
    split; [reflexivity |].
    intros allelePair g' H. apply in_app_or in H. destruct H as [H | [H | []]].
    + now apply Hquiet in H.
    + injection H as _ <-. split; reflexivity.
  - exists extra. split; [exact E |]. split.
    + intros y N. cbn [fst ret]. apply lookup_set_other. congruence.
    + intros allelePair g' H. now apply Hquiet in H.
Qed.

Lemma generate_genes_rounds (p : BreedProfile) (aw : obj (obj wval)) (xs : list string) :
  NoDup xs ->
  forall (acc : Genotype) (w : World),
  exists extra,
    console (snd (for_each xs (generate_gene p aw) acc w)) = console w ++ extra
    /\ (forall y, ~ In y xs ->
                  lookup (fst (for_each xs (generate_gene p aw) acc w)) y = lookup acc y)
    /\ (forall allelePair g', In (Warn_DisallowedPair allelePair g') extra ->
                              In g' xs
                              /\ lookup (fst (for_each xs (generate_gene p aw) acc w)) g'
                                 = lookup acc g').
Proof.
  induction xs as [| x rest IH]; intros ND acc w.
  - exists []. rewrite app_nil_r.
    split; [reflexivity | split; [reflexivity | intros pair' g' []]].
  - inversion ND as [| x' rest' Hx NDrest]; subst.
    destruct (generate_gene_round p aw acc x w) as [extra1 [E1 [K1 W1]]].
    cbn [for_each]. unfold bind.
    set (acc1 := fst (generate_gene p aw acc x w)) in *.
    set (w1 := snd (generate_gene p aw acc x w)) in *.
    destruct (IH NDrest acc1 w1) as [extra2 [E2 [K2 W2]]].
    exists (extra1 ++ extra2). split; [rewrite E2, E1; symmetry; apply app_assoc |]. split.
    + intros y Hy. rewrite K2 by (intros H; apply Hy; now right).
      apply K1. intros ->. apply Hy. now left.
    + intros allelePair g' H. apply in_app_or in H. destruct H as [H | H].
      * destruct (W1 _ _ H) as [-> Eacc]. split; [now left |].
        rewrite K2 by exact Hx. now rewrite Eacc.
      * destruct (W2 _ _ H) as [Hin El]. split; [now right |].
        rewrite El. apply K1. intros ->. contradiction.
Qed.

Lemma generate_modifier_round (bmp : obj wval) (acc : Genotype) (modifier : string) (w : World) :
  exists extra,
    console (snd (generate_modifier bmp acc modifier w)) = console w ++ extra
    /\ (forall allelePair g', ~ In (Warn_DisallowedPair allelePair g') extra)
    /\ (forall y s, lookup (fst (generate_modifier bmp acc modifier w)) y = Some (GStr s) ->
                    lookup acc y = Some (GStr s)).
Proof.
  assert (Hset : forall b y s, lookup (set acc modifier (GBool b)) y = Some (GStr s) ->
                               lookup acc y = Some (GStr s)).
  { intros b y s. rewrite lookup_set. destruct (String.eqb modifier y); [discriminate | auto]. }
  assert (Hwarn : exists extra,
             console (snd ((emit (Warn_InvalidPrevalence modifier) ;;
                            ret (set acc modifier (GBool false))) w)) = console w ++ extra
             /\ (forall allelePair g', ~ In (Warn_DisallowedPair allelePair g') extra)
             /\ (forall y s,
                    lookup (fst ((emit (Warn_InvalidPrevalence modifier) ;;
                                  ret (set acc modifier (GBool false))) w)) y = Some (GStr s) ->
                    lookup acc y = Some (GStr s))).
  { exists [Warn_InvalidPrevalence modifier]. split; [reflexivity |]. split.
    - intros allelePair g' [H | []]. discriminate H.
    - apply Hset. }
  unfold generate_modifier.
  destruct (lookup bmp modifier) as [[q |] |]; try exact Hwarn.
  destruct (Qle_bool 0 q && Qle_bool q 1); [| exact Hwarn].
  exists []. rewrite app_nil_r. split; [reflexivity |]. split.
  - intros allelePair g' [].
  - unfold bind. cbn [fst snd ret Math_random]. apply Hset.
Qed.

Lemma generate_modifiers_rounds (bmp : obj wval) (xs : list string) :
  forall (acc : Genotype) (w : World),
  exists extra,
    console (snd (for_each xs (generate_modifier bmp) acc w)) = console w ++ extra
    /\ (forall allelePair g', ~ In (Warn_DisallowedPair allelePair g') extra)
    /\ (forall y s, lookup (fst (for_each xs (generate_modifier bmp) acc w)) y = Some (GStr s) ->
                    lookup acc y = Some (GStr s)).
Proof.
  induction xs as [| x rest IH]; intros acc w.
  - exists []. rewrite app_nil_r.
    split; [reflexivity | split; [intros pair' g' [] | auto]].
  - destruct (generate_modifier_round bmp acc x w) as [extra1 [E1 [Q1 S1]]].
    cbn [for_each]. unfold bind.
    destruct (IH (fst (generate_modifier bmp acc x w)) (snd (generate_modifier bmp acc x w)))
      as [extra2 [E2 [Q2 S2]]].
    exists (extra1 ++ extra2). split; [rewrite E2, E1; symmetry; apply app_assoc |]. split.
    + intros allelePair g' H. apply in_app_or in H. destruct H as [H | H].
      * exact (Q1 _ _ H).
      * exact (Q2 _ _ H).
    + intros y s H. apply S1. now apply S2.
Qed.

(** A disallowed-pair warning written during the call names a locus that
    holds no allele pair in the genotype returned. *)
Lemma generateStoreHorseGenetics_warned_omitted (p : BreedProfile) (w : World)
    (extra : list diag) (allelePair gene : string) :
  console (snd (generateStoreHorseGenetics (Some p) w)) = console w ++ extra ->
  In (Warn_DisallowedPair allelePair gene) extra ->
  forall s, lookup (fst (generateStoreHorseGenetics (Some p) w)) gene <> Some (GStr s).
Proof.
  unfold generateStoreHorseGenetics, bind.
  set (g1 := fst (generate_genes p [] w)). set (w1 := snd (generate_genes p [] w)).
  assert (Hgenes : exists extra1,
             console w1 = console w ++ extra1
             /\ forall pair' g', In (Warn_DisallowedPair pair' g') extra1 ->
                                 lookup g1 g' = None).
  { subst g1 w1. unfold generate_genes. destruct (allele_weights p) as [aw |].
    - destruct (generate_genes_rounds p aw (keys aw) (keys_NoDup aw) [] w)
        as [extra1 [E1 [_ W1]]].
      exists extra1. split; [exact E1 |]. intros pair' g' H. now destruct (W1 _ _ H).
    - exists [Warn_NoAlleleWeights]. split; [reflexivity |].
      intros pair' g' [H | []]. discriminate H. }
  destruct Hgenes as [extra1 [E1 W1]].
  assert (Hmods : exists extra2,
             console (snd (generate_modifiers p g1 w1)) = console w1 ++ extra2
             /\ (forall pair' g', ~ In (Warn_DisallowedPair pair' g') extra2)
             /\ (forall y s, lookup (fst (generate_modifiers p g1 w1)) y = Some (GStr s) ->
                             lookup g1 y = Some (GStr s))).
  { unfold generate_modifiers. destruct (boolean_modifiers_prevalence p) as [bmp |].
    - apply generate_modifiers_rounds.
    - exists [Warn_NoModifierPrevalence]. split; [reflexivity |]. split.
      + intros pair' g' [H | []]. discriminate H.
      + auto. }
  destruct Hmods as [extra2 [E2 [Q2 S2]]].
  intros E Hin s Hl.
  rewrite E2, E1, <- app_assoc in E. apply app_inv_head in E. subst extra.
  apply in_app_or in Hin. destruct Hin as [Hin | Hin].
  - apply S2 in Hl. rewrite (W1 _ _ Hin) in Hl. discriminate Hl.
  - exact (Q2 _ _ Hin).
Qed.

(** C7.  The genotype returned by [generateStoreHorseGenetics] never maps
    a locus to an allele pair listed in [disallowed_combinations] for that
    locus.  When the selection for a locus picks a disallowed pair, the
    loop body leaves the genotype as it was, draws nothing further (no
    retry) and writes one warning; and a locus named by such a warning
    holds no allele pair in the genotype returned. *)
Theorem generateStoreHorseGenetics_never_disallowed :
  forall (p : BreedProfile) (w : World),
    (forall gene allelePair dc pairs,
        lookup (fst (generateStoreHorseGenetics (Some p) w)) gene = Some (GStr allelePair) ->
        disallowed_combinations p = Some dc -> lookup dc gene = Some pairs ->
        ~ In allelePair pairs)
    /\ (forall aw acc gene w0 chosen dc pairs,
           fst (selectWeightedRandom (lookup aw gene) w0) = Some chosen ->
           disallowed_combinations p = Some dc -> lookup dc gene = Some pairs ->
           In chosen pairs ->
           let w1 := snd (selectWeightedRandom (lookup aw gene) w0) in
           generate_gene p aw acc gene w0
           = (acc, MkWorld (random_source w1) (random_next w1)
                           (console w1 ++ [if nonempty chosen
                                           then Warn_DisallowedPair chosen gene
                                           else Warn_NoAllele gene])))
    /\ (forall extra allelePair gene,
           console (snd (generateStoreHorseGenetics (Some p) w)) = console w ++ extra ->
           In (Warn_DisallowedPair allelePair gene) extra ->
           forall s, lookup (fst (generateStoreHorseGenetics (Some p) w)) gene
                     <> Some (GStr s)).
Proof.
  intros p w. split; [| split].
  - intros gene allelePair dc pairs Hg Hdc Hl Hin.
    pose proof (generateStoreHorseGenetics_respects p w gene allelePair Hg) as D.
    assert (T : disallowed_includes p gene allelePair = true)
      by (apply disallowed_includes_spec; eauto).
    congruence.
  - intros aw acc gene w0 chosen dc pairs Hsel Hdc Hl Hin w1.
    assert (T : disallowed_includes p gene chosen = true)
      by (apply disallowed_includes_spec; eauto).
    unfold generate_gene, bind. rewrite Hsel.
    destruct (nonempty chosen); [rewrite T |]; reflexivity.
  - intros extra allelePair gene. apply generateStoreHorseGenetics_warned_omitted.
Qed.

(** ** Random draws *)

Lemma draw_bounds (d : draw) : 0 <= draw_val d /\ draw_val d < 1.
Proof.
  pose proof (draw_in_range d) as H. apply andb_true_iff in H.
  destruct H as [H0 H1]. split.
  - now apply Qle_bool_iff.
  - apply Qnot_le_lt. intros H. apply Qle_bool_iff in H. rewrite H in H1. discriminate.
Qed.

(** The index computed by [Math.floor(Math.random() * n)] is within an
    array of [n] elements. *)
Lemma random_index_lt (d : draw) (n : nat) :
  (0 < n)%nat -> (random_index (draw_val d) n < n)%nat.
Proof.
  intros Hn. destruct (draw_bounds d) as [H0 H1]. unfold random_index.
  assert (Hpos : 0 < inject_Z (Z.of_nat n)).
  { change (inject_Z 0 < inject_Z (Z.of_nat n)). rewrite <- Zlt_Qlt. lia. }
  assert (Hlt : (Qfloor (draw_val d * inject_Z (Z.of_nat n)) < Z.of_nat n)%Z).
  { rewrite Zlt_Qlt. eapply Qle_lt_trans; [apply Qfloor_le |].
    rewrite <- (Qmult_1_l (inject_Z (Z.of_nat n))) at 2.
    now apply Qmult_lt_compat_r. }
  assert (Hge : (0 <= Qfloor (draw_val d * inject_Z (Z.of_nat n)))%Z).
  { change 0%Z with (Qfloor 0). apply Qfloor_resp_le.
    apply Qmult_le_0_compat; [assumption | now apply Qlt_le_weak]. }
  lia.
Qed.

(** ** [calculateFoalGenetics] *)


Lemma sample_attempts_not_disallowed (n : nat) (p : BreedProfile) (gene : string)
    (sirePair damPair : option gval) (w : World) (fp : string) :
  fst (sample_attempts n p gene sirePair damPair w) = Some fp ->
  ~ In fp (listed (disallowed_combinations p) gene).
Proof.
  revert w. induction n as [| k IH]; intros w; simpl.
  - discriminate.
  - unfold bind.
    destruct (fst (getParentAllele sirePair w)) as [a1 |]; [| discriminate].
    destruct (fst (getParentAllele damPair _)) as [a2 |]; [| discriminate].
    destruct (combineAlleles (Some a1) (Some a2)) as [pair |]; [| discriminate].
    destruct (negb (nonempty pair)); [discriminate |].
    destruct (match allowed_alleles p with
              | Some _ => negb (JsString.mem pair (listed (allowed_alleles p) gene))
              | None => false
              end); [apply IH |].
    destruct (JsString.mem pair (listed (disallowed_combinations p) gene)) eqn:D; [apply IH |].
    intros [= <-]. now apply mem_false_In.
Qed.

Lemma weights_fallback_not_disallowed (p : BreedProfile) (gene : string) (w : World)
    (fp : string) :
  fst (weights_fallback p gene w) = Some fp ->
  ~ In fp (listed (disallowed_combinations p) gene).
Proof.
  unfold weights_fallback, bind.
  destruct (allele_weights p) as [aw |]; [| discriminate].
  destruct (lookup aw gene) as [table |]; [| discriminate].
  destruct (fst (selectWeightedRandom (Some table) w)) as [f |]; [| discriminate].
  destruct (nonempty f); [| discriminate]. cbn [andb].
  destruct (JsString.mem f (listed (disallowed_combinations p) gene)) eqn:D; [discriminate |].
  intros [= <-]. now apply mem_false_In.
Qed.

(** What [inherit_gene] does to the foal genotype: nothing, or one
    assignment of an allele pair that is not disallowed. *)
Lemma inherit_gene_cases (sire dam : Genotype) (p : BreedProfile)
    (foal : Genotype) (gene : string) (w : World) :
  fst (inherit_gene sire dam p foal gene w) = foal
  \/ exists fp, fst (inherit_gene sire dam p foal gene w) = set foal gene (GStr fp)
                /\ ~ In fp (listed (disallowed_combinations p) gene).
Proof.
  unfold inherit_gene, bind.
  set (sampled := (if truthy (lookup sire gene) && truthy (lookup dam gene)
                   then sample_attempts MAX_ATTEMPTS p gene (lookup sire gene) (lookup dam gene)
                   else ret None) w).
  destruct (fst sampled) as [fp |] eqn:Es.
  - right. exists fp. split; [reflexivity |].
    subst sampled. destruct (truthy (lookup sire gene) && truthy (lookup dam gene)).
    + eapply sample_attempts_not_disallowed. eassumption.
    + discriminate.
  - destruct (fst (weights_fallback p gene (snd sampled))) as [fp |] eqn:Ew.
    + right. exists fp. split; [reflexivity |].
      eapply weights_fallback_not_disallowed. eassumption.
    + destruct (recessive_fallback (listed (allowed_alleles p) gene)) as [fp |]; [| now left].
      destruct (nonempty fp); [| now left]. cbn [andb].
      destruct (JsString.mem fp (listed (disallowed_combinations p) gene)) eqn:D; [now left |].
      right. exists fp. split; [reflexivity | now apply mem_false_In].
Qed.

(** What [inherit_modifier] does: nothing, or one assignment under the
    name of a boolean modifier, of a boolean or of a parent's value. *)
Lemma inherit_modifier_cases (sire dam : Genotype) (bmp : obj wval)
    (foal : Genotype) (modifier : string) (w : World) :
  fst (inherit_modifier sire dam bmp foal modifier w) = foal
  \/ (In modifier booleanModifiers
      /\ exists v, fst (inherit_modifier sire dam bmp foal modifier w) = set foal modifier v
                   /\ ((exists b, v = GBool b) \/ lookup sire modifier = Some v
                       \/ lookup dam modifier = Some v)).
Proof.
  unfold inherit_modifier.
  destruct (JsString.mem modifier booleanModifiers) eqn:M; [| now left].
  right. split; [now apply mem_In |]. cbn [negb].
  unfold parent_or_prevalence, bind.
  destruct (lookup sire modifier) as [[s | [|]] |];
    destruct (lookup dam modifier) as [[s' | [|]] |];
    cbn [fst snd ret Math_random];
    try (eexists; split; [reflexivity | left; eexists; reflexivity]);
    try (destruct (Qltb _ (1 # 2)); cbn [fst snd ret Math_random];
         eexists; split; try reflexivity; eauto; fail).
  destruct (lookup bmp modifier) as [[q |] |]; cbn [fst snd ret Math_random];
    eexists; split; try reflexivity; eauto.
Qed.

Lemma listed_spec (table : option (obj (list string))) (gene x : string) :
  In x (listed table gene)
  <-> exists t pairs, table = Some t /\ lookup t gene = Some pairs /\ In x pairs.
Proof.
  unfold listed. split.
  - destruct table as [t |]; [| contradiction].
    destruct (lookup t gene) as [pairs |] eqn:L; [| contradiction].
    intros H. exists t, pairs. auto.
  - intros [t [pairs [-> [-> H]]]]. exact H.
Qed.

Lemma inherit_gene_preserves (sire dam : Genotype) (p : BreedProfile)
    (locus : string -> Prop) (foal : Genotype) (gene : string) (w : World) :
  pairs_not_disallowed p locus foal ->
  pairs_not_disallowed p locus (fst (inherit_gene sire dam p foal gene w)).
Proof.
  intros H.
  destruct (inherit_gene_cases sire dam p foal gene w) as [-> | [fp [-> Hfp]]]; [exact H |].
  intros gene' s Hl. rewrite lookup_set.
  destruct (String.eqb gene gene') eqn:E.
  - apply String.eqb_eq in E. subst gene'. now intros [= <-].
  - now apply H.
Qed.

(** The same with the origin of a string: the callback stores a boolean,
    or the value that exactly one parent holds under the name. *)
Lemma inherit_modifier_origin (sire dam : Genotype) (bmp : obj wval)
    (foal : Genotype) (modifier : string) (w : World) :
  fst (inherit_modifier sire dam bmp foal modifier w) = foal
  \/ (In modifier booleanModifiers
      /\ exists v, fst (inherit_modifier sire dam bmp foal modifier w) = set foal modifier v
                   /\ ((exists b, v = GBool b) \/ held_by_one_parent sire dam modifier v)).
Proof.
  unfold inherit_modifier, held_by_one_parent.
  destruct (JsString.mem modifier booleanModifiers) eqn:M; [| now left].
  right. split; [now apply mem_In |]. cbn [negb].
  unfold parent_or_prevalence, bind.
  destruct (lookup sire modifier) as [[s | [|]] |];
    destruct (lookup dam modifier) as [[s' | [|]] |];
    cbn [fst snd ret Math_random];
    try (eexists; split; [reflexivity | left; eexists; reflexivity]);
    try (destruct (Qltb _ (1 # 2)); cbn [fst snd ret Math_random];
         eexists; split; try reflexivity; eauto; fail).
  destruct (lookup bmp modifier) as [[q |] |]; cbn [fst snd ret Math_random];
    eexists; split; try reflexivity; eauto.
Qed.

(** The gene loop of [calculateFoalGenetics] stores no disallowed pair. *)
Lemma gene_loop_invariant (sire dam : Genotype) (p : BreedProfile) (genes : list string)
    (w : World) :
  pairs_not_disallowed p (fun _ => True)
                       (fst (for_each genes (inherit_gene sire dam p) [] w)).
Proof.
  apply for_each_invariant.
  - intros. now apply inherit_gene_preserves.
  - intros gene s _ H. discriminate.
Qed.

(** A disallowed pair of the foal is a string that the modifier step has
    copied from the one parent that holds it. *)
Lemma calculateFoalGenetics_disallowed_origin (sire dam : Genotype) (p : BreedProfile)
    (w : World) (gene allelePair : string) :
  lookup (fst (calculateFoalGenetics (Some sire) (Some dam) (Some p) w)) gene
    = Some (GStr allelePair) ->
  In allelePair (listed (disallowed_combinations p) gene) ->
  In gene booleanModifiers /\ In gene (definedModifiers p)
  /\ held_by_one_parent sire dam gene (GStr allelePair).
Proof.
  set (origin := fun foal : Genotype =>
         forall gene allelePair,
           lookup foal gene = Some (GStr allelePair) ->
           In allelePair (listed (disallowed_combinations p) gene) ->
           In gene booleanModifiers /\ In gene (definedModifiers p)
           /\ held_by_one_parent sire dam gene (GStr allelePair)).
  enough (H : origin (fst (calculateFoalGenetics (Some sire) (Some dam) (Some p) w)))
    by (apply H).
  unfold calculateFoalGenetics, bind.
  set (genes := for_each (genesToInherit sire dam p) (inherit_gene sire dam p) [] w).
  assert (Hg : origin (fst genes)).
  { intros gene' s Hl Hin. exfalso.
    exact (gene_loop_invariant sire dam p _ w gene' s I Hl Hin). }
  unfold definedModifiers in origin.
  destruct (boolean_modifiers_prevalence p) as [bmp |]; [| exact Hg].
  clearbody genes. revert Hg. generalize (fst genes) (snd genes). clear genes.
  intros foal w0 Hg.
  apply (for_each_invariant_in origin (inherit_modifier sire dam bmp) (keys bmp));
    [| exact Hg].
  intros acc modifier w' Hkey Hacc.
  destruct (inherit_modifier_origin sire dam bmp acc modifier w')
    as [-> | [Hm [v [-> Hv]]]]; [exact Hacc |].
  intros gene' s Hl Hin. rewrite lookup_set in Hl.
  destruct (String.eqb modifier gene') eqn:E; [| now apply Hacc].
  apply String.eqb_eq in E. subst gene'. injection Hl as ->.
  destruct Hv as [[b Hb] | Hv]; [discriminate |].
  repeat split; assumption.
Qed.

(** C10, as amended.  In the genotype that [calculateFoalGenetics]
    builds, no allele pair is listed in [disallowed_combinations] for its
    locus after the loop over the loci, whichever of the three paths
    assigned the pair.  The same holds for the genotype returned but for
    one case: the step for the boolean modifiers copies, without a check,
    the value that exactly one parent holds under the name of a modifier
    listed in [boolean_modifiers_prevalence]; every other pair returned
    is not disallowed. *)
Theorem calculateFoalGenetics_never_disallowed :
  forall (sire dam : Genotype) (p : BreedProfile) (w : World)
         (gene allelePair : string) (dc : obj (list string)) (pairs : list string),
    disallowed_combinations p = Some dc -> lookup dc gene = Some pairs ->
    (lookup (fst (for_each (genesToInherit sire dam p) (inherit_gene sire dam p) [] w)) gene
       = Some (GStr allelePair) ->
     ~ In allelePair pairs)
    /\ (lookup (fst (calculateFoalGenetics (Some sire) (Some dam) (Some p) w)) gene
          = Some (GStr allelePair) ->
        ~ (In gene booleanModifiers /\ In gene (definedModifiers p)
           /\ held_by_one_parent sire dam gene (GStr allelePair)) ->
        ~ In allelePair pairs).
Proof.
  intros sire dam p w gene allelePair dc pairs Hdc Hp.
  assert (L : In allelePair pairs -> In allelePair (listed (disallowed_combinations p) gene))
    by (intros Hin; apply listed_spec; eauto).
  split.
  - intros Hl Hin.
    exact (gene_loop_invariant sire dam p _ w gene allelePair I Hl (L Hin)).
  - intros Hl Hn Hin. apply Hn.
    exact (calculateFoalGenetics_disallowed_origin sire dam p w gene allelePair Hl (L Hin)).
Qed.

Lemma inherit_gene_other (sire dam : Genotype) (p : BreedProfile)
    (foal : Genotype) (gene x : string) (w : World) :
  gene <> x -> lookup (fst (inherit_gene sire dam p foal gene w)) x = lookup foal x.
Proof.
  intros H.
  destruct (inherit_gene_cases sire dam p foal gene w) as [-> | [fp [-> _]]];
    [reflexivity | now apply lookup_set_other].
Qed.

Lemma inherit_modifier_other (sire dam : Genotype) (bmp : obj wval)
    (foal : Genotype) (modifier x : string) (w : World) :
  ~ In x booleanModifiers ->
  lookup (fst (inherit_modifier sire dam bmp foal modifier w)) x = lookup foal x.
Proof.
  intros H.
  destruct (inherit_modifier_cases sire dam bmp foal modifier w)
    as [-> | [Hm [v [-> _]]]]; [reflexivity |].
  apply lookup_set_other. intros ->. contradiction.
Qed.






Lemma calculateFoalGenetics_never_disallowed_witness :
  (lookup (fst (calculateFoalGenetics (Some heterozygous_E_parent) (Some heterozygous_E_parent)
                  (Some no_EE_profile) (constant_world draw_of_half))) "E_Extension"
   = Some (GStr "e/e")
   /\ ~ In "e/e" ["E/E"])
  /\ (lookup (fst (calculateFoalGenetics (Some [("sooty", GStr "E/E")]) (Some [])
                     (Some sooty_locus_profile) (constant_world draw_of_half))) "sooty"
      = Some (GBool false)
      /\ lookup (fst (for_each ["sooty"]
                        (inherit_gene [("sooty", GStr "E/E")] [] sooty_locus_profile) []
                        (constant_world draw_of_half))) "sooty"
         = Some (GStr "e/e")
      /\ ~ In "e/e" ["E/E"]).
Proof.
  split; [split | split; [| split]].
  - vm_compute. reflexivity.
  - apply (proj2 (calculateFoalGenetics_never_disallowed
                    heterozygous_E_parent heterozygous_E_parent no_EE_profile
                    (constant_world draw_of_half) "E_Extension" "e/e"
                    [("E_Extension", ["E/E"])] ["E/E"] eq_refl eq_refl)).
    + vm_compute. reflexivity.
    + intros [H _]. simpl in H.
      destruct H as [H | [H | [H | [H | []]]]]; discriminate H.
  - vm_compute. reflexivity.
  - vm_compute. reflexivity.
  - apply (proj1 (calculateFoalGenetics_never_disallowed
                    [("sooty", GStr "E/E")] [] sooty_locus_profile
                    (constant_world draw_of_half) "sooty" "e/e"
                    [("sooty", ["E/E"])] ["E/E"] eq_refl eq_refl)).
    vm_compute. reflexivity.
Defined.

(** C10, as stated, fails: the sire holds the string [E/E] under [sooty],
    the dam holds nothing there, and the profile, which has [sooty] as a
    locus with [E/E] disallowed, lists [sooty] as a boolean modifier; with
    a first draw below one half the modifier step copies the sire's
    value over the pair that the loop over the loci had stored. *)
Lemma calculateFoalGenetics_never_disallowed_counterexample :
  lookup (fst (calculateFoalGenetics (Some [("sooty", GStr "E/E")]) (Some [])
                 (Some sooty_locus_profile) (constant_world draw_of_zero))) "sooty"
  = Some (GStr "E/E")
  /\ disallowed_combinations sooty_locus_profile = Some [("sooty", ["E/E"])]
  /\ In "E/E" ["E/E"].
Proof.
  split; [vm_compute; reflexivity | split; [reflexivity | simpl; tauto]].
Qed.

Lemma generateStoreHorseGenetics_never_disallowed_witness :
  (lookup (fst (generateStoreHorseGenetics (Some no_EE_profile) (constant_world draw_of_zero)))
          "E_Extension" = Some (GStr "e/e")
   /\ ~ In "e/e" ["E/E"])
  /\ generate_gene no_EE_profile [("E_Extension", [("e/e", WNum 1); ("E/E", WNum 1)])]
                   [] "E_Extension" (constant_world draw_of_half)
     = ([], MkWorld (fun _ => draw_of_half) 1 [Warn_DisallowedPair "E/E" "E_Extension"])
  /\ (console (snd (generateStoreHorseGenetics (Some no_EE_profile)
                      (constant_world draw_of_half)))
      = [Warn_DisallowedPair "E/E" "E_Extension"]
      /\ lookup (fst (generateStoreHorseGenetics (Some no_EE_profile)
                        (constant_world draw_of_half))) "E_Extension"
         <> Some (GStr "E/E")).
Proof.
  split; [split | split; [| split]].
  - vm_compute. reflexivity.
  - apply (proj1 (generateStoreHorseGenetics_never_disallowed
                    no_EE_profile (constant_world draw_of_zero))
                 "E_Extension" "e/e" [("E_Extension", ["E/E"])] ["E/E"]).
    + vm_compute. reflexivity.
    + reflexivity.
    + reflexivity.
  - apply (proj1 (proj2 (generateStoreHorseGenetics_never_disallowed
                           no_EE_profile (constant_world draw_of_zero)))
                 [("E_Extension", [("e/e", WNum 1); ("E/E", WNum 1)])]
                 [] "E_Extension" (constant_world draw_of_half) "E/E"
                 [("E_Extension", ["E/E"])] ["E/E"]).
    + vm_compute. reflexivity.
    + reflexivity.
    + reflexivity.
    + simpl. tauto.
  - vm_compute. reflexivity.
  - apply (proj2 (proj2 (generateStoreHorseGenetics_never_disallowed
                           no_EE_profile (constant_world draw_of_half)))
                 [Warn_DisallowedPair "E/E" "E_Extension"] "E/E" "E_Extension").
    + vm_compute. reflexivity.
    + simpl. tauto.
Defined.

(** ** Running code that may throw *)

Lemma yields_ret {A} (a : A) (w : World) (P : A -> Prop) : P a -> yields (ret_x a) w P.
Proof. intros H. exists a, w. split; [reflexivity | exact H]. Qed.

Lemma yields_bind {A B} (m : Exec A) (f : A -> Exec B) (w : World)
    (Q : A -> Prop) (P : B -> Prop) :
  yields m w Q -> (forall a w', Q a -> yields (f a) w' P) -> yields (bind_x m f) w P.
Proof.
  intros [a [w' [E HQ]]] Hf. unfold yields, bind_x. rewrite E. cbn [fst snd].
  exact (Hf a w' HQ).
Qed.

Lemma yields_run {A} (m : Eff A) (w : World) (P : A -> Prop) :
  P (fst (m w)) -> yields (run m) w P.
Proof.
  intros H. exists (fst (m w)), (snd (m w)). split; [| exact H].
  unfold run. now rewrite <- surjective_pairing.
Qed.

Lemma yields_weaken {A} (m : Exec A) (w : World) (P Q : A -> Prop) :
  yields m w P -> (forall a, P a -> Q a) -> yields m w Q.
Proof. intros [a [w' [E H]]] HPQ. exists a, w'. auto. Qed.

Lemma returns_ret {A} (a : A) : returns (ret_x a).
Proof. intros w. now apply yields_ret. Qed.

Lemma returns_bind {A B} (m : Exec A) (f : A -> Exec B) :
  returns m -> (forall a, returns (f a)) -> returns (bind_x m f).
Proof.
  intros Hm Hf w. eapply yields_bind; [apply Hm |]. intros a w' _. apply Hf.
Qed.

Lemma returns_run {A} (m : Eff A) : returns (run m).
Proof. intros w. now apply yields_run. Qed.

Lemma returns_settle {A} (a : A) : returns (settle (Returned a)).
Proof. intros w. exists a, w. split; [reflexivity | exact I]. Qed.

(** ** Well-typed genotypes *)

Lemma loci_hold_strings_check (g : Genotype) :
  loci_hold_strings_b g = true -> loci_hold_strings g.
Proof.
  unfold loci_hold_strings_b, loci_hold_strings.
  induction g as [| [k0 v0] rest IH]; cbn [forallb lookup fst snd]; intros H key b L.
  - discriminate.
  - apply andb_true_iff in H. destruct H as [H0 H].
    destruct (String.eqb k0 key) eqn:E.
    + apply String.eqb_eq in E. subst k0. injection L as ->. now apply mem_In.
    + now apply (IH H key b).
Qed.

Lemma string_method_returns {A} (g : Genotype) (gene : string) (falsy : A)
    (method : string -> A) :
  loci_hold_strings g -> ~ In gene booleanModifiers ->
  returns (settle (string_method (lookup g gene) falsy method)).
Proof.
  intros Hg Hn. destruct (lookup g gene) as [[s | [|]] |] eqn:L; try apply returns_settle.
  exfalso. apply Hn. eapply Hg. eassumption.
Qed.

Lemma hasAllele_returns (g : Genotype) (gene allele : string) :
  loci_hold_strings g -> ~ In gene booleanModifiers -> returns (hasAllele g gene allele).
Proof. apply string_method_returns. Qed.

Lemma getAlleles_returns (g : Genotype) (gene : string) :
  loci_hold_strings g -> ~ In gene booleanModifiers -> returns (getAlleles g gene).
Proof. apply string_method_returns. Qed.

Lemma isHomozygous_returns (g : Genotype) (gene allele : string) :
  loci_hold_strings g -> ~ In gene booleanModifiers -> returns (isHomozygous g gene allele).
Proof.
  intros Hg Hn. apply returns_bind; [now apply getAlleles_returns |].
  intros. apply returns_ret.
Qed.

Lemma isHeterozygous_returns (g : Genotype) (gene allele1 allele2 : string) :
  loci_hold_strings g -> ~ In gene booleanModifiers ->
  returns (isHeterozygous g gene allele1 allele2).
Proof.
  intros Hg Hn. apply returns_bind; [now apply getAlleles_returns |].
  intros. apply returns_ret.
Qed.

Lemma pattern_alleles_returns (g : Genotype) (gene neutral : string) (keep : string -> bool) :
  loci_hold_strings g -> ~ In gene booleanModifiers ->
  returns (pattern_alleles g gene neutral keep).
Proof.
  intros Hg Hn. unfold pattern_alleles.
  destruct (negb (truthy (lookup g gene)) || field_is g gene neutral);
    [apply returns_ret |].
  apply returns_bind; [now apply getAlleles_returns |]. intros. apply returns_ret.
Qed.

Ltac not_a_modifier := apply mem_false_In; reflexivity.

(** One step in showing that a stage returns on a well-typed genotype. *)
Ltac returns_step :=
  match goal with
  | |- returns (ret_x _) => apply returns_ret
  | |- returns (run _) => apply returns_run
  | |- returns (hasAllele _ _ _) => apply hasAllele_returns; [assumption | not_a_modifier]
  | |- returns (isHomozygous _ _ _) => apply isHomozygous_returns; [assumption | not_a_modifier]
  | |- returns (isHeterozygous _ _ _ _) =>
      apply isHeterozygous_returns; [assumption | not_a_modifier]
  | |- returns (pattern_alleles _ _ _ _) =>
      apply pattern_alleles_returns; [assumption | not_a_modifier]
  | |- returns (bind_x _ _) => apply returns_bind; [| intros]
  | |- returns (if ?b then _ else _) => destruct b
  | |- returns (match ?x with _ => _ end) => destruct x
  end.

Ltac returns_auto := repeat returns_step.

Section StagesReturn.

Variable g : Genotype.
Hypothesis typed : loci_hold_strings g.

Lemma base_coat_returns : returns (base_coat g).
Proof. unfold base_coat. returns_auto. Qed.

Lemma mushroom_stage_returns (c : bool) (pks : string) : returns (mushroom_stage g c pks).
Proof. unfold mushroom_stage. returns_auto. Qed.

Lemma cream_stage_returns (base cdc pks : string) : returns (cream_stage g base cdc pks).
Proof. unfold cream_stage. returns_auto. Qed.

Lemma dun_stage_returns (base cdc pks : string) : returns (dun_stage g base cdc pks).
Proof. unfold dun_stage. returns_auto. Qed.

Lemma champagne_stage_returns (base : string) (c : bool) (cdc pks : string) :
  returns (champagne_stage g base c cdc pks).
Proof. unfold champagne_stage. returns_auto. Qed.

Lemma silver_stage_returns (base : string) (c : bool) (cdc pks : string) :
  returns (silver_stage g base c cdc pks).
Proof. unfold silver_stage. returns_auto. Qed.

Lemma roan_stage_returns (base shade : string) (parts : list string) (pks : string) :
  returns (roan_stage g base shade parts pks).
Proof. unfold roan_stage. returns_auto. Qed.

Lemma white_stage_returns (parts : list string) (pks : string) :
  returns (white_stage g parts pks).
Proof. unfold white_stage, getDominantWhiteAlleles. returns_auto. Qed.

Lemma patterns_stage_returns (allWhite : bool) (parts : list string) :
  returns (patterns_stage g allWhite parts).
Proof. unfold patterns_stage, getSplashWhiteAlleles, getEdenWhiteAlleles. returns_auto. Qed.

Lemma leopard_stage_returns (profile : option BreedProfile) (age : Q) (allWhite : bool)
    (parts : list string) (pks : string) (markings : Markings) :
  returns (leopard_stage g profile age allWhite parts pks markings).
Proof. unfold leopard_stage. returns_auto. Qed.

Lemma gray_stage_returns (profile : option BreedProfile) (age : Q) (base : string)
    (allWhite : bool) (parts : list string) (pks : string) (markings : Markings) :
  returns (gray_stage g profile age base allWhite parts pks markings).
Proof. unfold gray_stage. returns_auto. Qed.

Lemma dilutions_returns : returns (dilutions g).
Proof.
  unfold dilutions.
  repeat first
    [ apply base_coat_returns | apply mushroom_stage_returns | apply cream_stage_returns
    | apply dun_stage_returns | apply champagne_stage_returns | apply silver_stage_returns
    | returns_step ].
Qed.

Lemma modifiers_stage_returns (base : string) (c : bool) (shade cdc pks : string) :
  returns (modifiers_stage g base c shade cdc pks).
Proof.
  unfold modifiers_stage.
  destruct (apply_shade shade cdc pks) as [cdc1 pks1].
  destruct (apply_sooty g cdc1 pks1) as [cdc2 pks2].
  apply roan_stage_returns.
Qed.

Lemma patterns_and_assembly_returns (profile : option BreedProfile) (age : Q)
    (base dun shade : string) (parts : list string) (pks : string) :
  returns (patterns_and_assembly g profile age base dun shade parts pks).
Proof.
  unfold patterns_and_assembly.
  repeat first
    [ apply white_stage_returns | apply patterns_stage_returns
    | apply leopard_stage_returns | apply gray_stage_returns | returns_step ].
Qed.

Lemma display_color_returns (profile : option BreedProfile) (age : Q) :
  returns (display_color g profile age).
Proof.
  unfold display_color.
  repeat first
    [ apply dilutions_returns | apply modifiers_stage_returns
    | apply patterns_and_assembly_returns | returns_step ].
Qed.

(** On a well-typed genotype [determinePhenotype] always returns. *)
Lemma determinePhenotype_returns (profile : option BreedProfile) (age : Q) :
  returns (determinePhenotype (Some g) profile age).
Proof.
  unfold determinePhenotype.
  repeat first [ apply display_color_returns | returns_step ].
Qed.

End StagesReturn.

(** ** Strings: the pieces of a split string occur in it *)

Lemma includes_unfold (s sub : string) :
  JsString.includes s sub
  = if prefix sub s then true
    else match s with
         | EmptyString => false
         | String _ s' => JsString.includes s' sub
         end.
Proof. destruct s; reflexivity. Qed.

Lemma split_not_nil (c : ascii) (s : string) : JsString.split c s <> [].
Proof.
  destruct s as [| x s']; simpl; [discriminate |].
  destruct (Ascii.eqb x c); [discriminate |].
  destruct (JsString.split c s'); discriminate.
Qed.

Lemma split_head_prefix (c : ascii) (s h : string) (t : list string) :
  JsString.split c s = h :: t -> prefix h s = true.
Proof.
  revert h t. induction s as [| x s' IH]; simpl; intros h t H.
  - injection H as <- _. reflexivity.
  - destruct (Ascii.eqb x c).
    + injection H as <- _. reflexivity.
    + destruct (JsString.split c s') as [| h' t'] eqn:E.
      * injection H as <- _. simpl. destruct (ascii_dec x x); [| congruence].
        destruct s'; reflexivity.
      * injection H as <- _. simpl. destruct (ascii_dec x x); [| congruence].
        eapply IH. reflexivity.
Qed.

Lemma split_includes (c : ascii) (s a : string) :
  In a (JsString.split c s) -> JsString.includes s a = true.
Proof.
  induction s as [| x s' IH]; intros H.
  - simpl in H. destruct H as [<- | []]. reflexivity.
  - rewrite includes_unfold.
    destruct (prefix a (String x s')) eqn:P; [reflexivity |].
    simpl in H. destruct (Ascii.eqb x c).
    + destruct H as [<- | H]; [discriminate P | now apply IH].
    + destruct (JsString.split c s') as [| h t] eqn:E.
      * exfalso. eapply split_not_nil. eassumption.
      * destruct H as [<- | H].
        -- apply split_head_prefix in E. simpl in P.
           destruct (ascii_dec x x); congruence.
        -- apply IH. now right.
Qed.

(** ** [determinePhenotype]: missing arguments *)

(** C1.  What the three entry points do on a missing argument.
    [generateStoreHorseGenetics] and [calculateFoalGenetics] write an
    error to the console and return the empty genotype;
    [determinePhenotype] has no such guard for its genotype and throws a
    [TypeError] at the first property access, which is where the claim
    fails. *)
Theorem missing_arguments :
  (forall w, generateStoreHorseGenetics None w
             = ([], MkWorld (random_source w) (random_next w)
                            (console w ++ [Error_ProfileMissing])))
  /\ (forall dam profile w,
         calculateFoalGenetics None dam profile w
         = ([], MkWorld (random_source w) (random_next w)
                        (console w ++ [Error_MissingParentOrProfile])))
  /\ (forall sire profile w,
         calculateFoalGenetics sire None profile w
         = ([], MkWorld (random_source w) (random_next w)
                        (console w ++ [Error_MissingParentOrProfile])))
  /\ (forall sire dam w,
         calculateFoalGenetics sire dam None w
         = ([], MkWorld (random_source w) (random_next w)
                        (console w ++ [Error_MissingParentOrProfile])))
  /\ (forall profile age w, determinePhenotype None profile age w = Thrown TypeError).
Proof.
  repeat split.
  - intros [sire |] profile w; reflexivity.
  - intros [sire |] [dam |] w; reflexivity.
Qed.

(** ** Code that may throw: what it returns, if it returns *)

Lemma partially_ret {A} (a : A) (w : World) (P : A -> Prop) :
  P a -> partially (ret_x a) w P.
Proof. intros H a' w' [= <- _]. exact H. Qed.

Lemma partially_bind {A B} (m : Exec A) (f : A -> Exec B) (w : World)
    (Q : A -> Prop) (P : B -> Prop) :
  partially m w Q -> (forall a w', Q a -> partially (f a) w' P) ->
  partially (bind_x m f) w P.
Proof.
  intros Hm Hf b w2. unfold bind_x.
  destruct (m w) as [[a w1] | e] eqn:E; [| discriminate].
  cbn [fst snd]. apply (Hf a w1). eapply Hm. exact E.
Qed.

Lemma partially_any {A} (m : Exec A) (w : World) : partially m w (fun _ => True).
Proof. intros a w' _. exact I. Qed.

Lemma partially_of_yields {A} (m : Exec A) (w : World) (P : A -> Prop) :
  yields m w P -> partially m w P.
Proof. intros [a [w' [E H]]] a' w'' E'. rewrite E in E'. now injection E' as <- _. Qed.

Lemma yields_of_partially {A} (m : Exec A) (w : World) (P : A -> Prop) :
  partially m w P -> yields m w (fun _ => True) -> yields m w P.
Proof. intros H [a [w' [E _]]]. exists a, w'. split; [exact E | now apply (H a w')]. Qed.

(** ** Genotypes that hold a boolean at a locus *)

Lemma holds_no_true_check (g : Genotype) (loci : list string) :
  holds_no_true_b g loci = true -> holds_no_true g loci.
Proof.
  unfold holds_no_true_b, holds_no_true, flag_true. intros H gene Hin E.
  rewrite forallb_forall in H. specialize (H gene Hin). now rewrite E in H.
Qed.

Lemma string_method_reads {A} (g : Genotype) (gene : string) (falsy : A)
    (method : string -> A) :
  lookup g gene <> Some (GBool true) ->
  returns (settle (string_method (lookup g gene) falsy method)).
Proof.
  intros H. destruct (lookup g gene) as [[s | [|]] |]; try apply returns_settle.
  congruence.
Qed.

Lemma hasAllele_reads (g : Genotype) (gene allele : string) :
  lookup g gene <> Some (GBool true) -> returns (hasAllele g gene allele).
Proof. apply string_method_reads. Qed.

Lemma getAlleles_reads (g : Genotype) (gene : string) :
  lookup g gene <> Some (GBool true) -> returns (getAlleles g gene).
Proof. apply string_method_reads. Qed.

Lemma isHomozygous_reads (g : Genotype) (gene allele : string) :
  lookup g gene <> Some (GBool true) -> returns (isHomozygous g gene allele).
Proof.
  intros H. apply returns_bind; [now apply getAlleles_reads |].
  intros. apply returns_ret.
Qed.

Lemma isHeterozygous_reads (g : Genotype) (gene allele1 allele2 : string) :
  lookup g gene <> Some (GBool true) -> returns (isHeterozygous g gene allele1 allele2).
Proof.
  intros H. apply returns_bind; [now apply getAlleles_reads |].
  intros. apply returns_ret.
Qed.

Lemma pattern_alleles_reads (g : Genotype) (gene neutral : string) (keep : string -> bool) :
  lookup g gene <> Some (GBool true) -> returns (pattern_alleles g gene neutral keep).
Proof.
  intros H. unfold pattern_alleles.
  destruct (negb (truthy (lookup g gene)) || field_is g gene neutral);
    [apply returns_ret |].
  apply returns_bind; [now apply getAlleles_reads |]. intros. apply returns_ret.
Qed.

(** One step in showing that a stage returns when the loci it reads hold
    no [true]. *)
Ltac reads_step :=
  match goal with
  | |- returns (ret_x _) => apply returns_ret
  | |- returns (run _) => apply returns_run
  | |- returns (hasAllele _ _ _) => apply hasAllele_reads; assumption
  | |- returns (isHomozygous _ _ _) => apply isHomozygous_reads; assumption
  | |- returns (isHeterozygous _ _ _ _) => apply isHeterozygous_reads; assumption
  | |- returns (pattern_alleles _ _ _ _) => apply pattern_alleles_reads; assumption
  | |- returns (bind_x _ _) => apply returns_bind; [| intros]
  | |- returns (if ?b then _ else _) => destruct b
  | |- returns (match ?x with _ => _ end) => destruct x
  end.

Ltac reads_auto := repeat reads_step.

(** ** Strings: joining the pieces of a split string *)

Lemma split_join (c : ascii) (s : string) :
  String.concat (String c "") (JsString.split c s) = s.
Proof.
  induction s as [| x s' IH]; [reflexivity |].
  cbn [JsString.split]. destruct (Ascii.eqb x c) eqn:E.
  - apply Ascii.eqb_eq in E. subst x.
    destruct (JsString.split c s') as [| h t] eqn:S.
    + exfalso. eapply split_not_nil. eassumption.
    + cbn [String.concat]. cbn [String.concat] in IH.
      destruct t; cbn [append]; now rewrite <- IH.
  - destruct (JsString.split c s') as [| h t] eqn:S.
    + exfalso. eapply split_not_nil. eassumption.
    + cbn [String.concat]. cbn [String.concat] in IH.
      destruct t; cbn [append]; now rewrite <- IH.
Qed.

(** The test of [isHomozygous] for [e] is the comparison with [e/e]. *)
Lemma homozygous_e (s : string) :
  match JsString.split_slash s with
  | [a0; a1] => (a0 =? "e") && (a1 =? "e")
  | _ => false
  end = (s =? "e/e").
Proof.
  destruct (String.eqb_spec s "e/e") as [-> | N]; [reflexivity |].
  pose proof (split_join "/" s) as J. unfold JsString.split_slash.
  destruct (JsString.split "/" s) as [| a0 [| a1 [| a2 t]]]; try reflexivity.
  destruct (String.eqb_spec a0 "e") as [-> | N0]; [| reflexivity].
  destruct (String.eqb_spec a1 "e") as [-> | N1]; [| reflexivity].
  exfalso. apply N. now rewrite <- J.
Qed.

(** ** [determinePhenotype]: the base coat *)

Lemma isHomozygous_e (g : Genotype) (w : World) :
  partially (isHomozygous g "E_Extension" "e") w
            (fun chestnut => chestnut = field_is g "E_Extension" "e/e").
Proof.
  unfold isHomozygous, getAlleles, field_is, partially, bind_x, settle, ret_x.
  intros a w'.
  destruct (lookup g "E_Extension") as [[s | [|]] |]; cbn [string_method fst snd];
    try discriminate; try (now intros [= <- _]).
  intros [= <- _]. destruct s as [| c s']; [reflexivity |].
  cbn [nonempty]. apply homozygous_e.
Qed.

Lemma base_coat_partially (g : Genotype) (w : World) :
  partially (base_coat g) w (base_follows_extension g).
Proof.
  unfold base_coat.
  eapply partially_bind; [apply isHomozygous_e |].
  intros chestnut w1 ->. unfold base_follows_extension.
  destruct (field_is g "E_Extension" "e/e").
  - apply partially_ret. split; reflexivity.
  - eapply partially_bind; [apply partially_any |].
    intros agouti w2 _. apply partially_ret. split; [reflexivity |].
    destruct agouti; simpl; tauto.
Qed.

Lemma dilutions_partially (g : Genotype) (w : World) :
  partially (dilutions g) w
            (fun r => base_follows_extension
                        g (fst (fst (fst (fst r))), snd (fst (fst (fst r))))).
Proof.
  unfold dilutions.
  eapply partially_bind; [apply base_coat_partially |].
  intros [base chest] w1 Hb.
  eapply partially_bind; [apply partially_any |]. intros [[cdc1 pks1] handled] w2 _.
  eapply partially_bind; [apply partially_any |]. intros [cdc2 pks2] w3 _.
  eapply partially_bind; [apply partially_any |]. intros [[cdc3 pks3] dun] w4 _.
  eapply partially_bind; [apply partially_any |]. intros [cdc4 pks4] w5 _.
  eapply partially_bind; [apply partially_any |]. intros [cdc5 pks5] w6 _.
  destruct (pearl_stage g base handled cdc5 pks5) as [cdc6 pks6].
  apply partially_ret. exact Hb.
Qed.

(** ** [determinePhenotype]: a lethal allele of dominant white *)

Lemma lethal_alleles_kept (a : string) :
  In a lethalWhite -> JsString.startsWith a "W" && negb (a =? "w") = true.
Proof.
  intros H. simpl in H.
  repeat (destruct H as [<- | H]; [reflexivity |]). contradiction.
Qed.

Lemma getDominantWhiteAlleles_lethal (g : Genotype) (w : World) :
  carries_lethal_white g ->
  yields (getDominantWhiteAlleles g) w
         (fun ws => exists a, In a ws /\ In a lethalWhite).
Proof.
  intros [pair [a [L [Hin Hl]]]].
  assert (Hne : nonempty pair = true).
  { destruct pair; [| reflexivity]. simpl in Hin. destruct Hin as [<- | []].
    simpl in Hl. repeat (destruct Hl as [Hl | Hl]; [discriminate |]). contradiction. }
  assert (Hww : (pair =? "w/w") = false).
  { apply String.eqb_neq. intros ->. simpl in Hin.
    destruct Hin as [<- | [<- | []]];
      simpl in Hl; repeat (destruct Hl as [Hl | Hl]; [discriminate |]); contradiction. }
  unfold getDominantWhiteAlleles, pattern_alleles, field_is.
  rewrite L. cbn [truthy]. rewrite Hne, Hww. cbn [negb orb].
  apply (yields_bind _ _ _ (fun ws => ws = JsString.split_slash pair)).
  - unfold getAlleles. rewrite L. cbn [string_method]. rewrite Hne.
    exists (JsString.split_slash pair), w. split; reflexivity.
  - intros ws w' ->. apply yields_ret. exists a. split; [| exact Hl].
    apply filter_In. split; [exact Hin | now apply lethal_alleles_kept].
Qed.

Lemma white_stage_lethal (g : Genotype) (parts : list string) (pks : string) (w : World) :
  carries_lethal_white g ->
  yields (white_stage g parts pks) w (fun r => r = (["White"], "Dominant White", true)).
Proof.
  intros H. unfold white_stage.
  eapply yields_bind; [now apply getDominantWhiteAlleles_lethal |].
  intros ws w' [a [Hin Hl]].
  destruct ws as [| w0 ws']; [contradiction |].
  assert (E : existsb (fun x => JsString.mem x lethalWhite) (w0 :: ws') = true).
  { apply existsb_exists. exists a. split; [exact Hin | now apply mem_In]. }
  rewrite E. now apply yields_ret.
Qed.

(** ** [determinePhenotype] returns when the loci it reads hold no [true] *)

Section StagesRead.

Variable g : Genotype.

Hypothesis read_E : lookup g "E_Extension" <> Some (GBool true).
Hypothesis read_A :
  field_is g "E_Extension" "e/e" = false -> lookup g "A_Agouti" <> Some (GBool true).
Hypothesis read_Mu :
  field_is g "E_Extension" "e/e" = true -> lookup g "MFSD12_Mushroom" <> Some (GBool true).
Hypothesis read_Cr : lookup g "Cr_Cream" <> Some (GBool true).
Hypothesis read_D : lookup g "D_Dun" <> Some (GBool true).
Hypothesis read_CH : lookup g "CH_Champagne" <> Some (GBool true).
Hypothesis read_Z : lookup g "Z_Silver" <> Some (GBool true).
Hypothesis read_Rn : lookup g "Rn_Roan" <> Some (GBool true).
Hypothesis read_W : lookup g "W_DominantWhite" <> Some (GBool true).
Hypothesis read_LP : lookup g "LP_LeopardComplex" <> Some (GBool true).
Hypothesis read_PATN1 : lookup g "PATN1_Pattern1" <> Some (GBool true).
Hypothesis read_G : lookup g "G_Gray" <> Some (GBool true).

Lemma base_coat_reads : returns (base_coat g).
Proof.
  intros w. unfold base_coat.
  apply (yields_bind _ _ _ (fun chestnut => chestnut = field_is g "E_Extension" "e/e")).
  - apply yields_of_partially; [apply isHomozygous_e |].
    now apply isHomozygous_reads.
  - intros chestnut w1 ->.
    destruct (field_is g "E_Extension" "e/e") eqn:E.
    + now apply yields_ret.
    + specialize (read_A eq_refl). revert w1.
      change (returns (agouti <~ hasAllele g "A_Agouti" "A" ;;
                       ret_x (if agouti then "Bay" else "Black", false))).
      reads_auto.
Qed.

Lemma mushroom_stage_reads (pks : string) :
  returns (mushroom_stage g (field_is g "E_Extension" "e/e") pks).
Proof.
  unfold mushroom_stage. destruct (field_is g "E_Extension" "e/e").
  - specialize (read_Mu eq_refl). reads_auto.
  - reads_auto.
Qed.

Lemma cream_stage_reads (base cdc pks : string) : returns (cream_stage g base cdc pks).
Proof. unfold cream_stage. reads_auto. Qed.

Lemma dun_stage_reads (base cdc pks : string) : returns (dun_stage g base cdc pks).
Proof. unfold dun_stage. reads_auto. Qed.

Lemma champagne_stage_reads (base : string) (c : bool) (cdc pks : string) :
  returns (champagne_stage g base c cdc pks).
Proof. unfold champagne_stage. reads_auto. Qed.

Lemma silver_stage_reads (base : string) (c : bool) (cdc pks : string) :
  returns (silver_stage g base c cdc pks).
Proof. unfold silver_stage. reads_auto. Qed.

Lemma roan_stage_reads (base shade : string) (parts : list string) (pks : string) :
  returns (roan_stage g base shade parts pks).
Proof. unfold roan_stage. reads_auto. Qed.

Lemma white_stage_reads (parts : list string) (pks : string) :
  returns (white_stage g parts pks).
Proof. unfold white_stage, getDominantWhiteAlleles. reads_auto. Qed.

Lemma leopard_stage_reads (profile : option BreedProfile) (age : Q) (allWhite : bool)
    (parts : list string) (pks : string) (markings : Markings) :
  returns (leopard_stage g profile age allWhite parts pks markings).
Proof. unfold leopard_stage. reads_auto. Qed.

Lemma gray_stage_reads (profile : option BreedProfile) (age : Q) (base : string)
    (allWhite : bool) (parts : list string) (pks : string) (markings : Markings) :
  returns (gray_stage g profile age base allWhite parts pks markings).
Proof. unfold gray_stage. reads_auto. Qed.

Lemma dilutions_reads : returns (dilutions g).
Proof.
  intros w. unfold dilutions.
  apply (yields_bind _ _ _ (fun r => snd r = field_is g "E_Extension" "e/e")).
  - apply yields_of_partially; [| apply base_coat_reads].
    intros r w' E. now apply (base_coat_partially g w r w' E).
  - intros [base chest] w1 Ec. cbn [snd] in Ec. subst chest. revert w1.
    change (returns
              ('(cdc1, pks1, handled) <~
                 mushroom_stage g (field_is g "E_Extension" "e/e") base ;;
               '(cdc2, pks2) <~ cream_stage g base cdc1 pks1 ;;
               '(cdc3, pks3, dunEffectDescriptor) <~ dun_stage g base cdc2 pks2 ;;
               '(cdc4, pks4) <~
                 champagne_stage g base (field_is g "E_Extension" "e/e") cdc3 pks3 ;;
               '(cdc5, pks5) <~
                 silver_stage g base (field_is g "E_Extension" "e/e") cdc4 pks4 ;;
               let '(cdc6, pks6) := pearl_stage g base handled cdc5 pks5 in
               ret_x (base, field_is g "E_Extension" "e/e", dunEffectDescriptor,
                      cdc6, pks6))).
    repeat first
      [ apply mushroom_stage_reads | apply cream_stage_reads
      | apply dun_stage_reads | apply champagne_stage_reads | apply silver_stage_reads
      | reads_step ].
Qed.

Lemma modifiers_stage_reads (base : string) (c : bool) (shade cdc pks : string) :
  returns (modifiers_stage g base c shade cdc pks).
Proof.
  unfold modifiers_stage.
  destruct (apply_shade shade cdc pks) as [cdc1 pks1].
  destruct (apply_sooty g cdc1 pks1) as [cdc2 pks2].
  apply roan_stage_reads.
Qed.

(** The steps after the white patterns, which are read only when
    dominant white does not cover the coat. *)
Lemma after_patterns_reads (profile : option BreedProfile) (age : Q)
    (base dun shade : string) (allWhite : bool) (parts : list string) (pks : string) :
  returns
    ('(parts3, pks3, markings3) <~
       leopard_stage g profile age allWhite parts pks initial_markings ;;
     '(parts4, pks4, markings4) <~
       gray_stage g profile age base allWhite parts3 pks3 markings3 ;;
     let parts5 := rabicano_stage g allWhite parts4 in
     let parts6 := dun_primitive_stage dun allWhite parts5 in
     let parts7 := deduplicate parts6 in
     let parts8 := reorder allWhite shade parts7 in
     ret_x (assemble base parts8, markings4)).
Proof.
  repeat first [ apply leopard_stage_reads | apply gray_stage_reads | reads_step
               | progress cbv zeta ].
Qed.

Lemma patterns_and_assembly_reads_white (profile : option BreedProfile) (age : Q)
    (base dun shade : string) (parts : list string) (pks : string) :
  carries_lethal_white g ->
  returns (patterns_and_assembly g profile age base dun shade parts pks).
Proof.
  intros lethal w. unfold patterns_and_assembly.
  eapply yields_bind; [now apply white_stage_lethal |].
  intros r w1 ->. cbn [patterns_stage].
  apply (yields_bind _ _ _ (fun _ => True)); [now apply yields_ret |].
  intros parts2 w2 _. apply after_patterns_reads.
Qed.

Hypothesis read_O : lookup g "O_FrameOvero" <> Some (GBool true).
Hypothesis read_TO : lookup g "TO_Tobiano" <> Some (GBool true).
Hypothesis read_SB1 : lookup g "SB1_Sabino1" <> Some (GBool true).
Hypothesis read_SW : lookup g "SW_SplashWhite" <> Some (GBool true).
Hypothesis read_EDXW : lookup g "EDXW" <> Some (GBool true).

Lemma patterns_stage_reads (allWhite : bool) (parts : list string) :
  returns (patterns_stage g allWhite parts).
Proof. unfold patterns_stage, getSplashWhiteAlleles, getEdenWhiteAlleles. reads_auto. Qed.

Lemma patterns_and_assembly_reads (profile : option BreedProfile) (age : Q)
    (base dun shade : string) (parts : list string) (pks : string) :
  returns (patterns_and_assembly g profile age base dun shade parts pks).
Proof.
  unfold patterns_and_assembly.
  apply returns_bind; [apply white_stage_reads |]. intros [[parts1 pks1] allWhite].
  apply returns_bind; [apply patterns_stage_reads |]. intros parts2.
  apply after_patterns_reads.
Qed.

End StagesRead.

(** The two cases share the steps around the patterns. *)
Lemma determinePhenotype_reads (g : Genotype) (profile : option BreedProfile) (age : Q) :
  returns (dilutions g) ->
  (forall base c shade cdc pks, returns (modifiers_stage g base c shade cdc pks)) ->
  (forall base dun shade parts pks,
      returns (patterns_and_assembly g profile age base dun shade parts pks)) ->
  returns (determinePhenotype (Some g) profile age).
Proof.
  intros Hd Hm Hp. unfold determinePhenotype, display_color.
  repeat first [ apply Hd | apply Hm | apply Hp | reads_step ].
Qed.

Ltac read_locus H :=
  apply H; unfold loci_read, loci_read_when_white, loci_always_read;
  cbn [In app]; tauto.

Ltac read_base_locus H E :=
  intros E; apply H; unfold loci_read, loci_read_when_white, base_locus_read;
  rewrite E; cbn [In app]; tauto.

Lemma determinePhenotype_reads_white (g : Genotype) (profile : option BreedProfile)
    (age : Q) :
  carries_lethal_white g -> holds_no_true g (loci_read_when_white g) ->
  returns (determinePhenotype (Some g) profile age).
Proof.
  intros lethal H. apply determinePhenotype_reads.
  - apply dilutions_reads;
      first [ read_locus H | let E := fresh "E" in read_base_locus H E ].
  - intros. apply modifiers_stage_reads. read_locus H.
  - intros. apply patterns_and_assembly_reads_white; try assumption; read_locus H.
Qed.

Lemma determinePhenotype_reads_all (g : Genotype) (profile : option BreedProfile)
    (age : Q) :
  holds_no_true g (loci_read g) -> returns (determinePhenotype (Some g) profile age).
Proof.
  intros H. apply determinePhenotype_reads.
  - apply dilutions_reads;
      first [ read_locus H | let E := fresh "E" in read_base_locus H E ].
  - intros. apply modifiers_stage_reads. read_locus H.
  - intros. apply patterns_and_assembly_reads; read_locus H.
Qed.

Lemma bind_x_thrown {A B} (m : Exec A) (f : A -> Exec B) (w : World) (e : exn) :
  m w = Thrown e -> bind_x m f w = Thrown e.
Proof. intros H. unfold bind_x. now rewrite H. Qed.

Lemma bind_x_throws_later {A B} (m : Exec A) (f : A -> Exec B) (w : World) :
  (forall a w', f a w' = Thrown TypeError) -> bind_x m f w = Thrown TypeError.
Proof.
  intros H. unfold bind_x. destruct (m w) as [[a w'] | []]; [apply H | reflexivity].
Qed.

Section BooleanAtLocus.

Variable g : Genotype.
Variable gene : string.
Hypothesis held : lookup g gene = Some (GBool true).

Lemma hasAllele_throws (allele : string) (w : World) :
  hasAllele g gene allele w = Thrown TypeError.
Proof. unfold hasAllele. now rewrite held. Qed.

Lemma getAlleles_throws (w : World) : getAlleles g gene w = Thrown TypeError.
Proof. unfold getAlleles. now rewrite held. Qed.

Lemma isHomozygous_throws (allele : string) (w : World) :
  isHomozygous g gene allele w = Thrown TypeError.
Proof. apply bind_x_thrown, getAlleles_throws. Qed.

Lemma isHeterozygous_throws (allele1 allele2 : string) (w : World) :
  isHeterozygous g gene allele1 allele2 w = Thrown TypeError.
Proof. apply bind_x_thrown, getAlleles_throws. Qed.

Lemma pattern_alleles_throws (neutral : string) (keep : string -> bool) (w : World) :
  pattern_alleles g gene neutral keep w = Thrown TypeError.
Proof.
  unfold pattern_alleles, field_is. rewrite held. cbn [truthy negb orb].
  apply bind_x_thrown, getAlleles_throws.
Qed.

End BooleanAtLocus.

(** Walking down a chain of binds to the call that throws. *)
Ltac throws_at :=
  lazymatch goal with
  | |- hasAllele _ _ _ _ = Thrown TypeError => apply hasAllele_throws; assumption
  | |- isHomozygous _ _ _ _ = Thrown TypeError => apply isHomozygous_throws; assumption
  | |- isHeterozygous _ _ _ _ _ = Thrown TypeError =>
      apply isHeterozygous_throws; assumption
  | |- pattern_alleles _ _ _ _ _ = Thrown TypeError =>
      apply pattern_alleles_throws; assumption
  | |- bind_x _ _ _ = Thrown TypeError =>
      first
        [ apply bind_x_thrown; throws_at
        | apply bind_x_throws_later;
          let a := fresh "a" in
          intros a ?; repeat (destruct a as [a ?]); cbv beta iota; throws_at ]
  | |- (match ?x with (_, _) => _ end) _ = Thrown TypeError => destruct x; throws_at
  end.

Lemma getDominantWhiteAlleles_not_lethal (g : Genotype) (w : World) :
  ~ carries_lethal_white g ->
  partially (getDominantWhiteAlleles g) w
            (fun ws => forall a, In a ws -> ~ In a lethalWhite).
Proof.
  intros Hn. unfold getDominantWhiteAlleles, pattern_alleles.
  destruct (negb (truthy (lookup g "W_DominantWhite")) || field_is g "W_DominantWhite" "w/w").
  - apply partially_ret. intros a [].
  - apply (partially_bind _ _ _ (fun ws => forall a, In a ws -> ~ In a lethalWhite)).
    + unfold getAlleles, partially, settle. intros ws w'.
      destruct (lookup g "W_DominantWhite") as [[pair | [|]] |] eqn:L; cbn [string_method];
        try discriminate; try (intros [= <- _] a []).
      intros [= <- _]. destruct (nonempty pair); [| intros a []].
      intros a Hin Hl. apply Hn. exists pair, a. auto.
    + intros ws w' H. apply partially_ret. intros a Hin.
      apply filter_In in Hin. now apply H.
Qed.

Lemma white_stage_not_lethal (g : Genotype) (parts : list string) (pks : string) (w : World) :
  ~ carries_lethal_white g ->
  partially (white_stage g parts pks) w (fun r => snd r = false).
Proof.
  intros Hn. unfold white_stage.
  eapply partially_bind; [now apply getDominantWhiteAlleles_not_lethal |].
  intros ws w' H. cbv beta in H.
  destruct ws as [| w0 ws']; [now apply partially_ret |].
  assert (E : existsb (fun x => JsString.mem x lethalWhite) (w0 :: ws') = false).
  { apply not_true_is_false. intros T. apply existsb_exists in T.
    destruct T as [a [Hin Hm]]. apply mem_In in Hm. exact (H a Hin Hm). }
  rewrite E. destruct (JsString.mem "W20" (w0 :: ws')); now apply partially_ret.
Qed.

(** A locus that is always read. *)
Lemma always_read_throws (g : Genotype) (gene : string) (profile : option BreedProfile)
    (age : Q) (w : World) :
  In gene loci_always_read ->
  lookup g gene = Some (GBool true) ->
  determinePhenotype (Some g) profile age w = Thrown TypeError.
Proof.
  intros Hin H.
  unfold determinePhenotype. apply bind_x_thrown.
  unfold display_color, dilutions, base_coat, mushroom_stage, cream_stage, dun_stage,
    champagne_stage, silver_stage, modifiers_stage, roan_stage, patterns_and_assembly,
    white_stage, getDominantWhiteAlleles, leopard_stage, gray_stage.
  unfold loci_always_read in Hin. cbn [In] in Hin.
  repeat (destruct Hin as [<- | Hin]; [rewrite ?H; cbn [truthy]; throws_at |]).
  contradiction.
Qed.

(** The locus read for the base coat. *)
Lemma base_coat_throws (g : Genotype) (w : World) :
  field_is g "E_Extension" "e/e" = false ->
  lookup g "A_Agouti" = Some (GBool true) ->
  base_coat g w = Thrown TypeError.
Proof.
  intros E H. unfold base_coat. unfold bind_x at 1.
  destruct (isHomozygous g "E_Extension" "e" w) as [[chestnut w1] | []] eqn:Eh;
    [| reflexivity].
  rewrite (isHomozygous_e g w chestnut w1 Eh), E. cbn [fst snd].
  apply bind_x_thrown. now apply hasAllele_throws.
Qed.

Lemma base_locus_throws (g : Genotype) (profile : option BreedProfile) (age : Q)
    (w : World) :
  lookup g (base_locus_read g) = Some (GBool true) ->
  determinePhenotype (Some g) profile age w = Thrown TypeError.
Proof.
  unfold base_locus_read. intros H.
  unfold determinePhenotype. apply bind_x_thrown.
  unfold display_color. apply bind_x_thrown.
  unfold dilutions.
  destruct (field_is g "E_Extension" "e/e") eqn:E.
  - unfold bind_x at 1.
    destruct (base_coat g w) as [[[base chest] w1] | []] eqn:Eb; [| reflexivity].
    destruct (base_coat_partially g w (base, chest) w1 Eb) as [Ec _].
    cbn [fst snd] in *. rewrite E in Ec. subst chest.
    apply bind_x_thrown. unfold mushroom_stage. apply bind_x_thrown.
    now apply hasAllele_throws.
  - apply bind_x_thrown. now apply base_coat_throws.
Qed.

(** A locus of the white patterns, when dominant white does not cover
    the coat. *)
Lemma pattern_locus_throws (g : Genotype) (gene : string) (profile : option BreedProfile)
    (age : Q) (w : World) :
  ~ carries_lethal_white g ->
  In gene ["O_FrameOvero"; "TO_Tobiano"; "SB1_Sabino1"; "SW_SplashWhite"; "EDXW"] ->
  lookup g gene = Some (GBool true) ->
  determinePhenotype (Some g) profile age w = Thrown TypeError.
Proof.
  intros notWhite Hin H.
  unfold determinePhenotype. apply bind_x_thrown.
  unfold display_color.
  apply bind_x_throws_later. intros [[[[base chest] dun] cdc] pks] w1.
  apply bind_x_throws_later. intros shade w2.
  apply bind_x_throws_later. intros [parts pks1] w3.
  apply bind_x_thrown. unfold patterns_and_assembly.
  unfold bind_x at 1.
  destruct (white_stage g parts pks1 w3) as [[[[parts1 pks2] allWhite] w4] | []] eqn:Ew;
    [| reflexivity].
  pose proof (white_stage_not_lethal g parts pks1 w3 notWhite _ _ Ew) as F.
  cbn [fst snd] in *. subst allWhite.
  apply bind_x_thrown.
  unfold patterns_stage, getSplashWhiteAlleles, getEdenWhiteAlleles.
  cbn [In] in Hin.
  repeat (destruct Hin as [<- | Hin]; [throws_at |]).
  contradiction.
Qed.

Lemma returns_reads_white (g : Genotype) (profile : option BreedProfile) (age : Q)
    (w : World) :
  yields (determinePhenotype (Some g) profile age) w (fun _ => True) ->
  holds_no_true g (loci_read_when_white g).
Proof.
  intros [result [w' [E _]]] gene Hin H.
  unfold loci_read_when_white in Hin. destruct Hin as [<- | Hin].
  - rewrite (base_locus_throws g profile age w H) in E. discriminate E.
  - rewrite (always_read_throws g gene profile age w Hin H) in E. discriminate E.
Qed.

Lemma returns_reads_all (g : Genotype) (profile : option BreedProfile) (age : Q)
    (w : World) :
  ~ carries_lethal_white g ->
  yields (determinePhenotype (Some g) profile age) w (fun _ => True) ->
  holds_no_true g (loci_read g).
Proof.
  intros notWhite R gene Hin H.
  unfold loci_read in Hin. apply in_app_or in Hin. destruct Hin as [Hin | Hin].
  - exact (returns_reads_white g profile age w R gene Hin H).
  - destruct R as [result [w' [E _]]].
    rewrite (pattern_locus_throws g gene profile age w notWhite Hin H) in E.
    discriminate E.
Qed.

(** ** [determinePhenotype]: dominant white *)

Lemma leopard_stage_all_white (g : Genotype) (profile : option BreedProfile) (age : Q)
    (parts : list string) (pks : string) (markings : Markings) (w : World) :
  partially (leopard_stage g profile age true parts pks markings) w
            (fun r => r = (parts, pks, markings)).
Proof.
  unfold leopard_stage.
  eapply partially_bind; [apply partially_any |]. intros hasLP w1 _.
  eapply partially_bind; [apply partially_any |]. intros patn1 w2 _.
  cbn [negb]. rewrite andb_false_r. now apply partially_ret.
Qed.

Lemma gray_stage_all_white (g : Genotype) (profile : option BreedProfile) (age : Q)
    (base : string) (parts : list string) (pks : string) (markings : Markings) (w : World) :
  partially (gray_stage g profile age base true parts pks markings) w
            (fun r => r = (parts, pks, markings)).
Proof.
  unfold gray_stage.
  eapply partially_bind; [apply partially_any |]. intros gray w1 _.
  cbn [negb]. rewrite andb_false_r. now apply partially_ret.
Qed.

Lemma rabicano_stage_all_white (g : Genotype) (parts : list string) :
  rabicano_stage g true parts = parts.
Proof. unfold rabicano_stage. cbn [negb]. now rewrite andb_false_r. Qed.

Lemma dun_primitive_stage_all_white (dun : string) (parts : list string) :
  dun_primitive_stage dun true parts = parts.
Proof. unfold dun_primitive_stage. cbn [negb]. now rewrite andb_false_r. Qed.

Lemma patterns_and_assembly_lethal (g : Genotype) (profile : option BreedProfile) (age : Q)
    (base dun shade : string) (parts : list string) (pks : string) (w : World) :
  carries_lethal_white g ->
  partially (patterns_and_assembly g profile age base dun shade parts pks) w
            (fun r => fst r = "White").
Proof.
  intros lethal. unfold patterns_and_assembly.
  eapply partially_bind; [apply partially_of_yields; now apply white_stage_lethal |].
  intros r w1 ->. cbn [patterns_stage].
  apply (partially_bind _ _ _ (fun parts2 => parts2 = ["White"]));
    [now apply partially_ret |].
  intros parts2 w2 ->.
  eapply partially_bind; [apply leopard_stage_all_white |].
  intros r3 w3 ->.
  eapply partially_bind; [apply gray_stage_all_white |].
  intros r4 w4 ->.
  rewrite rabicano_stage_all_white, dun_primitive_stage_all_white.
  apply partially_ret. reflexivity.
Qed.

(** The colour that [determinePhenotype] returns is the one that the
    steps from the white patterns on return. *)
Lemma determinePhenotype_colour (g : Genotype) (profile : option BreedProfile) (age : Q)
    (w : World) (P : string -> string -> Prop) :
  (forall base dun shade parts pks w',
      base_follows_extension g (base, field_is g "E_Extension" "e/e") ->
      partially (patterns_and_assembly g profile age base dun shade parts pks) w'
                (fun r => P base (fst r))) ->
  partially (determinePhenotype (Some g) profile age) w
            (fun result => exists base,
                 base_follows_extension g (base, field_is g "E_Extension" "e/e")
                 /\ P base (final_display_color result)).
Proof.
  intros H. unfold determinePhenotype, display_color.
  apply (partially_bind _ _ _
           (fun r => exists base,
                base_follows_extension g (base, field_is g "E_Extension" "e/e")
                /\ P base (fst (fst r)))).
  - eapply partially_bind; [apply dilutions_partially |].
    intros [[[[base chest] dun] cdc] pks] w1 Hb. cbn [fst snd] in Hb.
    assert (Hb' : base_follows_extension g (base, field_is g "E_Extension" "e/e")).
    { destruct Hb as [Hc Hb]. split; [reflexivity | exact Hb]. }
    eapply partially_bind; [apply partially_any |]. intros shade w2 _.
    eapply partially_bind; [apply partially_any |]. intros [parts pks1] w3 _.
    eapply partially_bind; [now apply H |].
    intros [color markings] w4 Hc. apply partially_ret. exists base. now split.
  - intros [[color shade] markings] w1 Hc.
    eapply partially_bind; [apply partially_any |].
    intros markings' w2 _. now apply partially_ret.
Qed.

(** C2, as amended.  When the [W_DominantWhite] pair of a genotype
    contains an allele of the lethal set, the display colour that
    [determinePhenotype] returns is ["White"], for every breed profile,
    age and random draw and whatever the other loci and the boolean
    modifiers hold.  It returns exactly when none of the loci read on the
    way holds the boolean [true], the value on which the call of a string
    method throws: these are the loci that are always read and
    [A_Agouti], or [MFSD12_Mushroom] on a chestnut base. *)
Theorem determinePhenotype_lethal_white :
  forall (g : Genotype) (profile : option BreedProfile) (age : Q) (w : World),
    carries_lethal_white g ->
    partially (determinePhenotype (Some g) profile age) w
              (fun result => final_display_color result = "White")
    /\ (holds_no_true g (loci_read_when_white g)
        <-> yields (determinePhenotype (Some g) profile age) w
                   (fun result => final_display_color result = "White")).
Proof.
  intros g profile age w lethal.
  assert (P : partially (determinePhenotype (Some g) profile age) w
                        (fun result => final_display_color result = "White")).
  { intros result w' E.
    destruct (determinePhenotype_colour g profile age w (fun _ color => color = "White"))
      with (a := result) (w' := w') as [base [_ Hc]]; [| exact E | exact Hc].
    intros. now apply patterns_and_assembly_lethal. }
  split; [exact P |]. split.
  - intros H. apply yields_of_partially; [exact P |].
    now apply determinePhenotype_reads_white.
  - intros Y. apply (returns_reads_white g profile age w).
    apply (yields_weaken _ _ _ _ Y). trivial.
Qed.

Lemma determinePhenotype_lethal_white_witness :
  yields (determinePhenotype (Some lethal_white_genotype) None 5)
         (constant_world draw_of_half)
         (fun result => final_display_color result = "White").
Proof.
  assert (lethal : carries_lethal_white lethal_white_genotype)
    by (exists "W2/w", "W2"; simpl; tauto).
  apply (proj1 (proj2 (determinePhenotype_lethal_white
                         lethal_white_genotype None 5 (constant_world draw_of_half) lethal))).
  apply holds_no_true_check. reflexivity.
Defined.

(** C2, as stated, fails: with the lethal allele [W2] and the boolean
    [true] at [G_Gray], [determinePhenotype] throws, as [G_Gray] is read
    before the test for an all-white coat. *)
Lemma determinePhenotype_lethal_white_counterexample :
  carries_lethal_white lethal_white_boolean_gray
  /\ determinePhenotype (Some lethal_white_boolean_gray) None 5 (constant_world draw_of_half)
     = Thrown TypeError
  /\ ~ yields (determinePhenotype (Some lethal_white_boolean_gray) None 5)
              (constant_world draw_of_half)
              (fun result => final_display_color result = "White").
Proof.
  split; [| split].
  - exists "W2/w", "W2". simpl. tauto.
  - reflexivity.
  - intros [result [w' [E _]]]. discriminate E.
Qed.

(** ** [determinePhenotype]: gray *)

Lemma hasAllele_gray (g : Genotype) (w : World) :
  carries_gray g -> yields (hasAllele g "G_Gray" "G") w (fun b => b = true).
Proof.
  intros [pair [L Hin]]. unfold hasAllele. rewrite L. cbn [string_method].
  exists true, w. split; [| reflexivity].
  assert (Hne : nonempty pair = true).
  { destruct pair; [| reflexivity]. simpl in Hin. destruct Hin as [E | []]. discriminate. }
  rewrite Hne. unfold JsString.split_slash in Hin.
  now rewrite (split_includes _ _ _ Hin).
Qed.

Lemma gray_stage_gray (g : Genotype) (profile : option BreedProfile) (age : Q)
    (base : string) (parts : list string) (pks : string) (markings : Markings) (w : World) :
  carries_gray g ->
  yields (gray_stage g profile age base false parts pks markings) w
         (fun r => fst (fst r) = [grayPhenotype base age]).
Proof.
  intros gray. unfold gray_stage.
  eapply yields_bind; [now apply hasAllele_gray |].
  intros b w1 ->. cbn [negb andb].
  eapply yields_bind; [apply returns_run |].
  intros r w2 _. now apply yields_ret.
Qed.

Lemma rabicano_stage_gray (g : Genotype) (allWhite : bool) (parts : list string) :
  some_part_includes parts "gray" = true -> rabicano_stage g allWhite parts = parts.
Proof. intros H. unfold rabicano_stage. rewrite H. cbn [negb]. now rewrite andb_false_r. Qed.

Lemma dun_primitive_stage_gray (dun : string) (allWhite : bool) (parts : list string) :
  some_part_includes parts "gray" = true -> dun_primitive_stage dun allWhite parts = parts.
Proof. intros H. unfold dun_primitive_stage. rewrite H. cbn [negb]. now rewrite andb_false_r. Qed.

(** The code's gray colour is the specification's, and the final assembly
    leaves it as it is. *)
Lemma gray_assembly (base shade : string) (age : Q) :
  In base ["Chestnut"; "Bay"; "Black"] ->
  some_part_includes [grayPhenotype base age] "gray" = true
  /\ assemble base (reorder false shade (deduplicate [grayPhenotype base age]))
     = spec_gray_color base age.
Proof.
  intros H. unfold grayPhenotype, spec_gray_color.
  destruct H as [<- | [<- | [<- | []]]];
    destruct (Qle_bool age 3), (Qle_bool age 6), (Qle_bool age 9), (Qle_bool age 12);
    split; vm_compute; reflexivity.
Qed.

(** The tone by the base colour is the tone by [E_Extension]. *)
Lemma spec_gray_color_display (g : Genotype) (base : string) (age : Q) :
  base_follows_extension g (base, field_is g "E_Extension" "e/e") ->
  In base ["Chestnut"; "Bay"; "Black"]
  /\ spec_gray_color base age = spec_gray_display g age.
Proof.
  unfold base_follows_extension, spec_gray_display. cbn [fst snd]. intros [_ H].
  destruct (field_is g "E_Extension" "e/e").
  - subst base. split; [simpl; tauto | reflexivity].
  - destruct H as [<- | [<- | []]]; (split; [simpl; tauto | reflexivity]).
Qed.

Lemma patterns_and_assembly_gray (g : Genotype) (profile : option BreedProfile) (age : Q)
    (base dun shade : string) (parts : list string) (pks : string) (w : World) :
  carries_gray g -> ~ carries_lethal_white g ->
  In base ["Chestnut"; "Bay"; "Black"] ->
  partially (patterns_and_assembly g profile age base dun shade parts pks) w
            (fun r => fst r = spec_gray_color base age).
Proof.
  intros gray notWhite Hbase. unfold patterns_and_assembly.
  eapply partially_bind; [now apply white_stage_not_lethal |].
  intros [[parts1 pks1] allWhite] w1 E. cbn [snd] in E. subst allWhite.
  eapply partially_bind; [apply partially_any |].
  intros parts2 w2 _.
  eapply partially_bind; [apply partially_any |].
  intros [[parts3 pks3] markings3] w3 _.
  eapply partially_bind; [apply partially_of_yields; now apply gray_stage_gray |].
  intros [[parts4 pks4] markings4] w4 E. cbn [fst] in E. subst parts4.
  destruct (gray_assembly base shade age Hbase) as [Hg Ha].
  rewrite (rabicano_stage_gray _ _ _ Hg), (dun_primitive_stage_gray _ _ _ Hg).
  now apply partially_ret.
Qed.

(** C6, as amended.  For a genotype that carries the dominant allele [G]
    at [G_Gray] and no lethal dominant-white allele, the display colour
    that [determinePhenotype] returns is fixed by the age band and the
    base coat: up to 3 years ["<tone> Gray"], up to 6
    ["<tone> Dark Dapple Gray"], up to 9 ["<tone> Light Dapple Gray"], up
    to 12 ["White Gray"], and ["Fleabitten Gray"] beyond, with the tone
    Rose on a chestnut base ([e/e] at [E_Extension]) and Steel on a bay
    or black one.  It returns exactly when none of the loci that it reads
    holds the boolean [true], the value on which the call of a string
    method throws. *)
Theorem determinePhenotype_gray_by_age :
  forall (g : Genotype) (profile : option BreedProfile) (age : Q) (w : World),
    carries_gray g ->
    ~ carries_lethal_white g ->
    partially (determinePhenotype (Some g) profile age) w
              (fun result => final_display_color result = spec_gray_display g age)
    /\ (holds_no_true g (loci_read g)
        <-> yields (determinePhenotype (Some g) profile age) w
                   (fun result => final_display_color result = spec_gray_display g age)).
Proof.
  intros g profile age w gray notWhite.
  assert (P : partially (determinePhenotype (Some g) profile age) w
                        (fun result => final_display_color result = spec_gray_display g age)).
  { intros result w' E.
    destruct (determinePhenotype_colour g profile age w
                (fun base color => color = spec_gray_color base age))
      with (a := result) (w' := w') as [base [Hb Hc]]; [| exact E |].
    - intros base dun shade parts pks w1 Hb.
      apply patterns_and_assembly_gray; try assumption.
      now apply (spec_gray_color_display g base age).
    - rewrite Hc. now apply spec_gray_color_display. }
  split; [exact P |]. split.
  - intros H. apply yields_of_partially; [exact P |].
    now apply determinePhenotype_reads_all.
  - intros Y. apply (returns_reads_all g profile age w notWhite).
    apply (yields_weaken _ _ _ _ Y). trivial.
Qed.

Lemma determinePhenotype_gray_by_age_witness :
  yields (determinePhenotype (Some chestnut_gray_genotype) None 0)
         (constant_world draw_of_half)
         (fun result => final_display_color result = "Rose Gray")
  /\ yields (determinePhenotype (Some bay_gray_genotype) None 5)
            (constant_world draw_of_half)
            (fun result => final_display_color result = "Steel Dark Dapple Gray")
  /\ yields (determinePhenotype (Some black_gray_genotype) None 13)
            (constant_world draw_of_half)
            (fun result => final_display_color result = "Fleabitten Gray").
Proof.
  assert (notWhite : forall g, lookup g "W_DominantWhite" = None -> ~ carries_lethal_white g).
  { intros g N [pair [a [L _]]]. rewrite N in L. discriminate L. }
  split; [| split].
  - apply (proj1 (proj2 (determinePhenotype_gray_by_age
                           chestnut_gray_genotype None 0 (constant_world draw_of_half)
                           (ex_intro _ "G/g" (conj eq_refl (or_introl eq_refl)))
                           (notWhite chestnut_gray_genotype eq_refl)))).
    apply holds_no_true_check. reflexivity.
  - apply (proj1 (proj2 (determinePhenotype_gray_by_age
                           bay_gray_genotype None 5 (constant_world draw_of_half)
                           (ex_intro _ "G/g" (conj eq_refl (or_introl eq_refl)))
                           (notWhite bay_gray_genotype eq_refl)))).
    apply holds_no_true_check. reflexivity.
  - apply (proj1 (proj2 (determinePhenotype_gray_by_age
                           black_gray_genotype None 13 (constant_world draw_of_half)
                           (ex_intro _ "g/G" (conj eq_refl (or_intror (or_introl eq_refl))))
                           (notWhite black_gray_genotype eq_refl)))).
    apply holds_no_true_check. reflexivity.
Defined.

(** C6, as stated, fails: with [G/g] at [G_Gray] and the boolean [true]
    at [TO_Tobiano], [determinePhenotype] throws. *)
Lemma determinePhenotype_gray_by_age_counterexample :
  carries_gray gray_boolean_tobiano
  /\ ~ carries_lethal_white gray_boolean_tobiano
  /\ determinePhenotype (Some gray_boolean_tobiano) None 5 (constant_world draw_of_half)
     = Thrown TypeError
  /\ ~ yields (determinePhenotype (Some gray_boolean_tobiano) None 5)
              (constant_world draw_of_half)
              (fun result => final_display_color result = spec_gray_display gray_boolean_tobiano 5).
Proof.
  split; [| split; [| split]].
  - exists "G/g". simpl. tauto.
  - intros [pair [a [L _]]]. simpl in L. discriminate L.
  - reflexivity.
  - intros [result [w' [E _]]]. discriminate E.
Qed.

(** ** [determinePhenotype]: the two scenarios *)

Lemma select_standard (w : World) :
  fst (selectWeightedRandom (Some [("standard", WNum 1)]) w) = Some "standard".
Proof.
  unfold selectWeightedRandom, bind.
  change (keys [("standard", WNum 1)]) with ["standard"].
  change (sum_weights [("standard", WNum 1)] ["standard"] 0) with (0 + 1).
  change (Qeq_bool (0 + 1) 0) with false. cbv iota.
  cbn [walk_weights fst snd Math_random].
  change (valid_weight [("standard", WNum 1)] "standard") with (Some 1).
  cbv iota.
  assert (H : Qltb (draw_val (random_source w (random_next w)) * (0 + 1)) 1 = true).
  { unfold Qltb. apply negb_true_iff. apply not_true_is_false. intros T.
    apply Qle_bool_iff in T.
    destruct (draw_bounds (random_source w (random_next w))) as [_ Hlt].
    apply (Qlt_not_le _ _ Hlt). eapply Qle_trans; [exact T |].
    rewrite Qplus_0_l, Qmult_1_r. apply Qle_refl. }
  rewrite H. reflexivity.
Qed.

(** [determinePhenotype] put together from the results of its stages. *)
Lemma determinePhenotype_from_stages (g : Genotype) (profile : option BreedProfile) (age : Q)
    (w w1 w2 w3 : World) (base : string) (chest : bool) (dun cdc pks : string)
    (parts : list string) (pks1 color : string) (markings : Markings) :
  dilutions g w = Returned ((base, chest, dun, cdc, pks), w1) ->
  modifiers_stage g base chest (fst (shade_stage profile base pks w1)) cdc pks
                  (snd (shade_stage profile base pks w1))
    = Returned ((parts, pks1), w2) ->
  patterns_and_assembly g profile age base dun (fst (shade_stage profile base pks w1))
                        parts pks1 w2
    = Returned ((color, markings), w3) ->
  yields (determinePhenotype (Some g) profile age) w
         (fun result => final_display_color result = color
                        /\ determined_shade result = fst (shade_stage profile base pks w1)).
Proof.
  intros Ed Em Ep.
  unfold yields, determinePhenotype, display_color, bind_x, run.
  rewrite Ed. cbn [fst snd]. rewrite Em. cbn [fst snd]. rewrite Ep. cbn [fst snd].
  eexists. eexists. split; [reflexivity |]. split; reflexivity.
Qed.

Lemma gold_champagne_dilutions (w : World) :
  dilutions gold_champagne_genotype w
  = Returned (("Chestnut", true, "", "Gold Champagne", "Gold Champagne"), w).
Proof. reflexivity. Qed.

Lemma gold_champagne_shade (p : BreedProfile) (sb : obj (obj wval)) (w : World) :
  shade_bias p = Some sb ->
  lookup sb "Gold Champagne" = Some [("standard", WNum 1)] ->
  fst (shade_stage (Some p) "Chestnut" "Gold Champagne" w) = "standard".
Proof.
  intros Hsb Hl. unfold shade_stage, bind. rewrite Hsb.
  unfold shade_table. rewrite Hl. rewrite select_standard. reflexivity.
Qed.

Lemma gold_champagne_modifiers (w : World) :
  modifiers_stage gold_champagne_genotype "Chestnut" true "standard"
                  "Gold Champagne" "Gold Champagne" w
  = Returned ((["Gold Champagne"], "Gold Champagne"), w).
Proof. reflexivity. Qed.

Lemma gold_champagne_assembly (profile : option BreedProfile) (age : Q) (w : World) :
  patterns_and_assembly gold_champagne_genotype profile age "Chestnut" "" "standard"
                        ["Gold Champagne"] "Gold Champagne" w
  = Returned (("Gold Champagne", initial_markings), w).
Proof. reflexivity. Qed.

(** C4.  For the genotype [{E_Extension: 'e/e', A_Agouti: 'a/a',
    Cr_Cream: 'n/n', D_Dun: 'n/n', CH_Champagne: 'Ch/n'}] and a breed
    profile with [shade_bias['Gold Champagne'] = {standard: 1}],
    [determinePhenotype] returns the display colour ["Gold Champagne"],
    at every age and on every random draw. *)
Theorem determinePhenotype_gold_champagne :
  forall (p : BreedProfile) (sb : obj (obj wval)) (age : Q) (w : World),
    shade_bias p = Some sb ->
    lookup sb "Gold Champagne" = Some [("standard", WNum 1)] ->
    yields (determinePhenotype (Some gold_champagne_genotype) (Some p) age) w
           (fun result => final_display_color result = "Gold Champagne").
Proof.
  intros p sb age w Hsb Hl.
  eapply yields_weaken.
  - eapply determinePhenotype_from_stages.
    + apply gold_champagne_dilutions.
    + rewrite (gold_champagne_shade p sb w Hsb Hl). apply gold_champagne_modifiers.
    + rewrite (gold_champagne_shade p sb w Hsb Hl). apply gold_champagne_assembly.
  - intros result [H _]. exact H.
Qed.

Lemma determinePhenotype_gold_champagne_witness :
  yields (determinePhenotype (Some gold_champagne_genotype) (Some gold_champagne_profile) 0)
         (constant_world draw_of_half)
         (fun result => final_display_color result = "Gold Champagne").
Proof.
  apply (determinePhenotype_gold_champagne gold_champagne_profile champagne_shade_bias).
  - reflexivity.
  - reflexivity.
Defined.

Lemma mushroom_pearl_typed : loci_hold_strings mushroom_pearl_genotype.
Proof. apply loci_hold_strings_check. reflexivity. Qed.

Lemma mushroom_pearl_dilutions (w : World) :
  dilutions mushroom_pearl_genotype w
  = Returned (("Chestnut", true, "", "Mushroom Pearl", "Mushroom Pearl"), w).
Proof. reflexivity. Qed.

Lemma mushroom_pearl_modifiers (w : World) :
  modifiers_stage mushroom_pearl_genotype "Chestnut" true "standard"
                  "Mushroom Pearl" "Mushroom Pearl" w
  = Returned ((["Mushroom Pearl"], "Mushroom Pearl"), w).
Proof. reflexivity. Qed.

Lemma mushroom_pearl_assembly (profile : option BreedProfile) (age : Q) (w : World) :
  patterns_and_assembly mushroom_pearl_genotype profile age "Chestnut" "" "standard"
                        ["Mushroom Pearl"] "Mushroom Pearl" w
  = Returned (("Mushroom Pearl", initial_markings), w).
Proof. reflexivity. Qed.

(** C5.  For the genotype [{E_Extension: 'e/e', MFSD12_Mushroom: 'Mu/n',
    PRL_Pearl: 'prl/prl', Cr_Cream: 'n/n', A_Agouti: 'a/a',
    CH_Champagne: 'n/n', D_Dun: 'n/n'}] the mushroom allele is found, the
    mushroom step with its special case for homozygous pearl without cream
    gives ["Mushroom Pearl"] and marks the case as handled, the pearl
    sub-routine is then skipped, and whenever the shade determined is
    ["standard"] the display colour returned is ["Mushroom Pearl"]. *)
Theorem determinePhenotype_mushroom_pearl :
  forall (profile : option BreedProfile) (age : Q) (w : World),
    yields (hasAllele mushroom_pearl_genotype "MFSD12_Mushroom" "Mu") w (fun b => b = true)
    /\ yields (mushroom_stage mushroom_pearl_genotype true "Chestnut") w
              (fun r => r = ("Mushroom Pearl", "Mushroom Pearl", true))
    /\ (forall baseColor cdc pks,
           pearl_stage mushroom_pearl_genotype baseColor true cdc pks = (cdc, pks))
    /\ yields (determinePhenotype (Some mushroom_pearl_genotype) profile age) w
              (fun result => determined_shade result = "standard" ->
                             final_display_color result = "Mushroom Pearl").
Proof.
  intros profile age w.
  split; [exists true, w; split; reflexivity |].
  split; [eexists; exists w; split; reflexivity |].
  split; [reflexivity |].
  pose proof (mushroom_pearl_dilutions w) as Ed.
  set (shade := fst (shade_stage profile "Chestnut" "Mushroom Pearl" w)).
  destruct (string_dec shade "standard") as [Es | Ns].
  - eapply yields_weaken.
    + eapply determinePhenotype_from_stages.
      * exact Ed.
      * fold shade. rewrite Es. apply mushroom_pearl_modifiers.
      * fold shade. rewrite Es. apply mushroom_pearl_assembly.
    + intros result [H _] _. exact H.
  - destruct (modifiers_stage_returns mushroom_pearl_genotype mushroom_pearl_typed
                "Chestnut" true shade "Mushroom Pearl" "Mushroom Pearl"
                (snd (shade_stage profile "Chestnut" "Mushroom Pearl" w)))
      as [[parts pks1] [w2 [Em _]]].
    destruct (patterns_and_assembly_returns mushroom_pearl_genotype mushroom_pearl_typed
                profile age "Chestnut" "" shade parts pks1 w2)
      as [[color markings] [w3 [Ep _]]].
    eapply yields_weaken.
    + eapply determinePhenotype_from_stages; [exact Ed | exact Em | exact Ep].
    + intros result [_ H] Hs. fold shade in H. congruence.
Qed.

Lemma determinePhenotype_mushroom_pearl_witness :
  yields (determinePhenotype (Some mushroom_pearl_genotype) (Some mushroom_pearl_profile) 0)
         (constant_world draw_of_half)
         (fun result => final_display_color result = "Mushroom Pearl").
Proof.
  destruct (determinePhenotype_mushroom_pearl (Some mushroom_pearl_profile) 0
              (constant_world draw_of_half)) as [_ [_ [_ [result [w' [E H]]]]]].
  exists result, w'. split; [exact E |]. apply H.
  vm_compute in E. injection E as <- _. reflexivity.
Defined.

(** ** The expectations of the source's tests

    [geneticsEngine.test.js] and [geneticsEngine.hello.test.js], the
    latter with [Math.random] fixed at 0.5. *)

Example source_test_01 :
  color_of
    (determinePhenotype
       (Some
         [("E_Extension", GStr "e/e"); ("A_Agouti", GStr "a/a"); ("Cr_Cream", GStr "n/n");
          ("D_Dun", GStr "n/n"); ("CH_Champagne", GStr "Ch/n")])
       (Some gold_champagne_profile) 0 (constant_world draw_of_half))
  = Some "Gold Champagne".
Proof. vm_compute. reflexivity. Qed.

Example source_test_02 :
  color_of
    (determinePhenotype
       (Some
         [("E_Extension", GStr "E/e"); ("A_Agouti", GStr "A/a"); ("Cr_Cream", GStr "n/n");
          ("D_Dun", GStr "n/n"); ("CH_Champagne", GStr "Ch/Ch")])
       (Some gold_champagne_profile) 0 (constant_world draw_of_half))
  = Some "Amber Champagne".
Proof. vm_compute. reflexivity. Qed.

Example source_test_03 :
  color_of
    (determinePhenotype
       (Some
         [("E_Extension", GStr "E/E"); ("A_Agouti", GStr "a/a"); ("Cr_Cream", GStr "n/n");
          ("D_Dun", GStr "n/n"); ("CH_Champagne", GStr "Ch/n")])
       (Some gold_champagne_profile) 0 (constant_world draw_of_half))
  = Some "Classic Champagne".
Proof. vm_compute. reflexivity. Qed.

Example source_test_04 :
  color_of
    (determinePhenotype
       (Some
         [("E_Extension", GStr "e/e"); ("A_Agouti", GStr "a/a"); ("Cr_Cream", GStr "Cr/n");
          ("D_Dun", GStr "n/n"); ("CH_Champagne", GStr "Ch/n")])
       (Some gold_champagne_profile) 0 (constant_world draw_of_half))
  = Some "Gold Cream Champagne".
Proof. vm_compute. reflexivity. Qed.

Example source_test_05 :
  color_of
    (determinePhenotype
       (Some
         [("E_Extension", GStr "e/e"); ("A_Agouti", GStr "a/a"); ("Cr_Cream", GStr "Cr/Cr");
          ("D_Dun", GStr "n/n"); ("CH_Champagne", GStr "Ch/n")])
       (Some gold_champagne_profile) 0 (constant_world draw_of_half))
  = Some "Ivory Champagne (Cremello)".
Proof. vm_compute. reflexivity. Qed.

Example source_test_06 :
  color_of
    (determinePhenotype
       (Some
         [("E_Extension", GStr "E/e"); ("A_Agouti", GStr "A/a"); ("Cr_Cream", GStr "Cr/n");
          ("D_Dun", GStr "n/n"); ("CH_Champagne", GStr "Ch/n")])
       (Some gold_champagne_profile) 0 (constant_world draw_of_half))
  = Some "Amber Cream Champagne".
Proof. vm_compute. reflexivity. Qed.

Example source_test_07 :
  color_of
    (determinePhenotype
       (Some
         [("E_Extension", GStr "E/e"); ("A_Agouti", GStr "A/a"); ("Cr_Cream", GStr "Cr/Cr");
          ("D_Dun", GStr "n/n"); ("CH_Champagne", GStr "Ch/n")])
       (Some gold_champagne_profile) 0 (constant_world draw_of_half))
  = Some "Ivory Champagne (Perlino)".
Proof. vm_compute. reflexivity. Qed.

Example source_test_08 :
  color_of
    (determinePhenotype
       (Some
         [("E_Extension", GStr "E/E"); ("A_Agouti", GStr "a/a"); ("Cr_Cream", GStr "Cr/n");
          ("D_Dun", GStr "n/n"); ("CH_Champagne", GStr "Ch/n")])
       (Some gold_champagne_profile) 0 (constant_world draw_of_half))
  = Some "Classic Cream Champagne".
Proof. vm_compute. reflexivity. Qed.

Example source_test_09 :
  color_of
    (determinePhenotype
       (Some
         [("E_Extension", GStr "E/E"); ("A_Agouti", GStr "a/a"); ("Cr_Cream", GStr "Cr/Cr");
          ("D_Dun", GStr "n/n"); ("CH_Champagne", GStr "Ch/n")])
       (Some gold_champagne_profile) 0 (constant_world draw_of_half))
  = Some "Ivory Champagne (Smoky Cream)".
Proof. vm_compute. reflexivity. Qed.

Example source_test_10 :
  color_of
    (determinePhenotype
       (Some
         [("E_Extension", GStr "e/e"); ("A_Agouti", GStr "a/a"); ("Cr_Cream", GStr "n/n");
          ("D_Dun", GStr "D/nd1"); ("CH_Champagne", GStr "Ch/n")])
       (Some gold_champagne_profile) 0 (constant_world draw_of_half))
  = Some "Gold Dun Champagne".
Proof. vm_compute. reflexivity. Qed.

Example source_test_11 :
  color_of
    (determinePhenotype
       (Some
         [("E_Extension", GStr "E/e"); ("A_Agouti", GStr "A/a"); ("Cr_Cream", GStr "n/n");
          ("D_Dun", GStr "D/nd1"); ("CH_Champagne", GStr "Ch/n")])
       (Some gold_champagne_profile) 0 (constant_world draw_of_half))
  = Some "Amber Dun Champagne".
Proof. vm_compute. reflexivity. Qed.

Example source_test_12 :
  color_of
    (determinePhenotype
       (Some
         [("E_Extension", GStr "E/E"); ("A_Agouti", GStr "a/a"); ("Cr_Cream", GStr "n/n");
          ("D_Dun", GStr "D/nd1"); ("CH_Champagne", GStr "Ch/n")])
       (Some gold_champagne_profile) 0 (constant_world draw_of_half))
  = Some "Classic Dun Champagne".
Proof. vm_compute. reflexivity. Qed.

Example source_test_13 :
  color_of
    (determinePhenotype
       (Some
         [("E_Extension", GStr "e/e"); ("A_Agouti", GStr "a/a"); ("Cr_Cream", GStr "Cr/n");
          ("D_Dun", GStr "D/nd1"); ("CH_Champagne", GStr "Ch/n")])
       (Some gold_champagne_profile) 0 (constant_world draw_of_half))
  = Some "Gold Cream Dun Champagne".
Proof. vm_compute. reflexivity. Qed.

Example source_test_14 :
  color_of
    (determinePhenotype
       (Some
         [("E_Extension", GStr "E/e"); ("A_Agouti", GStr "A/a"); ("Cr_Cream", GStr "Cr/n");
          ("D_Dun", GStr "D/nd1"); ("CH_Champagne", GStr "Ch/n")])
       (Some gold_champagne_profile) 0 (constant_world draw_of_half))
  = Some "Amber Cream Dun Champagne".
Proof. vm_compute. reflexivity. Qed.

Example source_test_15 :
  color_of
    (determinePhenotype
       (Some
         [("E_Extension", GStr "E/E"); ("A_Agouti", GStr "a/a"); ("Cr_Cream", GStr "Cr/n");
          ("D_Dun", GStr "D/nd1"); ("CH_Champagne", GStr "Ch/n")])
       (Some gold_champagne_profile) 0 (constant_world draw_of_half))
  = Some "Classic Cream Dun Champagne".
Proof. vm_compute. reflexivity. Qed.

Example source_test_16 :
  color_of
    (determinePhenotype
       (Some
         [("E_Extension", GStr "e/e"); ("A_Agouti", GStr "a/a"); ("Cr_Cream", GStr "Cr/Cr");
          ("D_Dun", GStr "D/nd1"); ("CH_Champagne", GStr "Ch/n")])
       (Some gold_champagne_profile) 0 (constant_world draw_of_half))
  = Some "Ivory Dun Champagne (Cremello)".
Proof. vm_compute. reflexivity. Qed.

Example source_test_17 :
  color_of
    (determinePhenotype
       (Some
         [("E_Extension", GStr "E/e"); ("A_Agouti", GStr "A/a"); ("Cr_Cream", GStr "Cr/Cr");
          ("D_Dun", GStr "D/nd1"); ("CH_Champagne", GStr "Ch/n")])
       (Some gold_champagne_profile) 0 (constant_world draw_of_half))
  = Some "Ivory Dun Champagne (Perlino)".
Proof. vm_compute. reflexivity. Qed.

Example source_test_18 :
  color_of
    (determinePhenotype
       (Some
         [("E_Extension", GStr "E/E"); ("A_Agouti", GStr "a/a"); ("Cr_Cream", GStr "Cr/Cr");
          ("D_Dun", GStr "D/nd1"); ("CH_Champagne", GStr "Ch/n")])
       (Some gold_champagne_profile) 0 (constant_world draw_of_half))
  = Some "Ivory Dun Champagne (Smoky Cream)".
Proof. vm_compute. reflexivity. Qed.

Example source_test_19 :
  color_of
    (determinePhenotype
       (Some
         [("E_Extension", GStr "e/e"); ("A_Agouti", GStr "a/a"); ("Cr_Cream", GStr "n/Cr");
          ("PRL_Pearl", GStr "prl/n"); ("CH_Champagne", GStr "n/n"); ("D_Dun", GStr "n/n");
          ("G_Gray", GStr "n/n"); ("Rn_Roan", GStr "n/n"); ("Z_Silver", GStr "n/n");
          ("W_DominantWhite", GStr "w/w"); ("SW_SplashWhite", GStr "n/n");
          ("EDXW", GStr "n/n"); ("O_FrameOvero", GStr "n/n"); ("TO_Tobiano", GStr "n/n");
          ("SB1_Sabino1", GStr "n/n"); ("LP_LeopardComplex", GStr "lp/lp");
          ("PATN1_Pattern1", GStr "patn1/patn1"); ("MFSD12_Mushroom", GStr "n/n");
          ("sooty", GBool false); ("flaxen", GBool false); ("pangare", GBool false);
          ("rabicano", GBool false)])
       (Some palomino_pearl_profile) 0 (constant_world draw_of_half))
  = Some "Copper Palomino Pearl".
Proof. vm_compute. reflexivity. Qed.

Example source_test_20 :
  color_of
    (determinePhenotype
       (Some
         [("E_Extension", GStr "e/e"); ("MFSD12_Mushroom", GStr "Mu/n");
          ("PRL_Pearl", GStr "prl/prl"); ("Cr_Cream", GStr "n/n"); ("A_Agouti", GStr "a/a");
          ("CH_Champagne", GStr "n/n"); ("D_Dun", GStr "n/n")])
       (Some mushroom_pearl_profile) 0 (constant_world draw_of_half))
  = Some "Mushroom Pearl".
Proof. vm_compute. reflexivity. Qed.

Example foal_test_expected_traits :
  fst (calculateFoalGenetics
         (Some [("E_Extension", GStr "E/e"); ("A_Agouti", GStr "A/a")])
         (Some [("E_Extension", GStr "e/e"); ("A_Agouti", GStr "a/a")])
         (Some extension_agouti_profile) (constant_world draw_of_half))
  = [("E_Extension", GStr "e/e"); ("A_Agouti", GStr "a/a")].
Proof. vm_compute. reflexivity. Qed.

Example foal_test_no_traits :
  fst (calculateFoalGenetics (Some []) (Some []) (Some empty_maps_profile)
         (constant_world draw_of_half))
  = [].
Proof. vm_compute. reflexivity. Qed.

Example foal_test_one_parent_without_traits :
  fst (calculateFoalGenetics (Some [("E_Extension", GStr "E/e")]) (Some [])
         (Some extension_agouti_profile) (constant_world draw_of_half))
  = [("E_Extension", GStr "E/e"); ("A_Agouti", GStr "A/a")].
Proof. vm_compute. reflexivity. Qed.

Example foal_test_same_traits :
  fst (calculateFoalGenetics (Some homozygous_e_parent) (Some homozygous_e_parent)
         (Some only_ee_profile) (constant_world draw_of_half))
  = [("E_Extension", GStr "e/e")].
Proof. vm_compute. reflexivity. Qed.

(** * Further properties of the engine *)

(** ** [selectWeightedRandom]: the key that is chosen *)

Lemma Qltb_lt (a b : Q) : Qltb a b = true <-> a < b.
Proof.
  unfold Qltb. rewrite negb_true_iff. split.
  - intros H. apply Qnot_le_lt. intros L. apply Qle_bool_iff in L. congruence.
  - intros H. apply not_true_is_false. intros L. apply Qle_bool_iff in L.
    exact (Qlt_not_le _ _ H L).
Qed.

Lemma Qltb_ge (a b : Q) : Qltb a b = false <-> b <= a.
Proof.
  unfold Qltb. rewrite negb_false_iff. apply Qle_bool_iff.
Qed.

Lemma ordinary_keys_check (names : list string) :
  ordinary_keys_b names = true -> ordinary_keys names.
Proof.
  unfold ordinary_keys_b, ordinary_keys, ordinary. intros H key Hin Hp.
  rewrite forallb_forall in H. specialize (H key Hin).
  apply mem_In in Hp. now rewrite Hp in H.
Qed.

(** The key at which the walk stops has a valid weight. *)
Lemma walk_weights_valid (o : obj wval) (items : list string) (randomNum : Q) (k : string) :
  walk_weights o items randomNum = Some k ->
  In k items /\ exists q, valid_weight o k = Some q.
Proof.
  revert randomNum. induction items as [| item rest IH]; intros randomNum; [discriminate |].
  cbn [walk_weights]. destruct (valid_weight o item) as [q |] eqn:E.
  - destruct (Qltb randomNum q).
    + intros [= <-]. split; [now left | eauto].
    + intros H. destruct (IH _ H) as [Hin Hv]. split; [now right | exact Hv].
  - intros H. destruct (IH _ H) as [Hin Hv]. split; [now right | exact Hv].
Qed.

Lemma sum_weights_none_valid (o : obj wval) (items : list string) (acc : Q) :
  (forall item, In item items -> valid_weight o item = None) ->
  sum_weights o items acc = acc.
Proof.
  revert acc. induction items as [| item rest IH]; intros acc H; [reflexivity |].
  cbn [sum_weights]. rewrite (H item (or_introl eq_refl)).
  apply IH. intros item' Hin. apply H. now right.
Qed.

Lemma last_some {A} (xs : list A) :
  xs <> [] -> exists y, last (map Some xs) None = Some y /\ In y xs.
Proof.
  induction xs as [| a rest IH]; [congruence |]. intros _.
  destruct rest as [| b rest'].
  - exists a. split; [reflexivity | now left].
  - destruct IH as [y [E Hin]]; [discriminate |].
    exists y. split; [exact E | now right].
Qed.

(** When the valid weights do not sum to zero, the key returned has a
    valid weight. *)
Lemma selectWeightedRandom_valid (o : obj wval) (w : World) :
  ~ total_weight o (keys o) == 0 ->
  exists k q,
    selectWeightedRandom (Some o) w = (Some k, after_draw w)
    /\ In k (keys o)
    /\ valid_weight o k = Some q.
Proof.
  intros Hpos. unfold selectWeightedRandom.
  destruct (keys o) as [| key0 rest] eqn:K.
  - exfalso. apply Hpos. reflexivity.
  - assert (Z : Qeq_bool (sum_weights o (key0 :: rest) 0) 0 = false).
    { apply not_true_is_false. intros T. apply Qeq_bool_iff in T. exact (Hpos T). }
    rewrite Z. unfold bind. cbn [fst snd Math_random].
    destruct (walk_weights o (key0 :: rest) _) as [k |] eqn:W.
    + destruct (walk_weights_valid _ _ _ _ W) as [Hin [q Hv]].
      exists k, q. repeat split; assumption.
    + assert (N : validItems o <> []).
      { intros E. apply Hpos. unfold total_weight. rewrite <- K.
        rewrite sum_weights_none_valid; [reflexivity |].
        intros item Hin. destruct (valid_weight o item) as [q |] eqn:V; [| reflexivity].
        exfalso. assert (Hf : In item (validItems o)).
        { unfold validItems. apply filter_In. split; [exact Hin | now rewrite V]. }
        rewrite E in Hf. exact Hf. }
      destruct (last_some (validItems o) N) as [k [E Hin]].
      unfold validItems in Hin. apply filter_In in Hin. destruct Hin as [Hin Hv].
      destruct (valid_weight o k) as [q |] eqn:V; [| discriminate].
      exists k, q. cbn [ret]. rewrite E, <- K. repeat split; assumption.
Qed.



Lemma valid_weight_nonneg (o : obj wval) (item : string) (q : Q) :
  valid_weight o item = Some q -> 0 <= q.
Proof.
  unfold valid_weight. destruct (lookup o item) as [[q' |] |]; try discriminate.
  destruct (Qle_bool 0 q') eqn:E; [| discriminate].
  intros [= <-]. now apply Qle_bool_iff.
Qed.

Lemma sum_weights_acc (o : obj wval) (items : list string) (acc : Q) :
  sum_weights o items acc == acc + total_weight o items.
Proof.
  unfold total_weight. revert acc. induction items as [| i rest IH]; intros acc; simpl.
  - ring.
  - destruct (valid_weight o i) as [q |].
    + rewrite (IH (acc + q)), (IH (0 + q)). ring.
    + apply IH.
Qed.

Lemma total_weight_cons (o : obj wval) (i : string) (rest : list string) :
  total_weight o (i :: rest)
  == match valid_weight o i with Some q => q | None => 0 end + total_weight o rest.
Proof.
  unfold total_weight at 1. simpl. destruct (valid_weight o i) as [q |].
  - rewrite sum_weights_acc. ring.
  - fold (total_weight o rest). ring.
Qed.

Lemma total_weight_nonneg (o : obj wval) (items : list string) : 0 <= total_weight o items.
Proof.
  induction items as [| i rest IH].
  - apply Qle_refl.
  - pose proof (total_weight_cons o i rest) as C.
    destruct (valid_weight o i) as [q |] eqn:E.
    + apply valid_weight_nonneg in E. lra.
    + lra.
Qed.

Lemma total_weight_member (o : obj wval) (items : list string) (k : string) (q : Q) :
  In k items -> valid_weight o k = Some q -> q <= total_weight o items.
Proof.
  intros Hin Hv. induction items as [| i rest IH]; [contradiction |].
  pose proof (total_weight_cons o i rest) as C.
  pose proof (total_weight_nonneg o rest) as N.
  destruct Hin as [-> | Hin].
  - rewrite Hv in C. lra.
  - specialize (IH Hin). destruct (valid_weight o i) as [q' |] eqn:E; [| lra].
    apply valid_weight_nonneg in E. lra.
Qed.

Lemma valid_weight_key (o : obj wval) (k : string) (q : Q) :
  valid_weight o k = Some q -> In k (keys o).
Proof.
  unfold valid_weight. destruct (lookup o k) as [v |] eqn:L; [| discriminate].
  intros _. eapply lookup_In_keys. eassumption.
Qed.

(** X19.  A table with one candidate.  When one key has a valid weight
    that is not zero and no other key has a valid weight,
    [selectWeightedRandom] returns that key on every draw. *)
Theorem selectWeightedRandom_sole_candidate :
  forall (o : obj wval) (k : string) (q : Q) (w : World),
    valid_weight o k = Some q -> ~ q == 0 ->
    (forall k', k' <> k -> valid_weight o k' = None) ->
    fst (selectWeightedRandom (Some o) w) = Some k.
Proof.
  intros o k q w Hv Hq Hothers.
  pose proof (total_weight_member o (keys o) k q (valid_weight_key o k q Hv) Hv) as M.
  pose proof (valid_weight_nonneg o k q Hv) as P.
  destruct (selectWeightedRandom_valid o w) as [k0 [q0 [E [_ Hv0]]]]; [lra |].
  rewrite E. cbn [fst]. f_equal.
  destruct (string_dec k0 k) as [-> | N]; [reflexivity |].
  rewrite (Hothers k0 N) in Hv0. discriminate.
Qed.

Lemma selectWeightedRandom_sole_candidate_witness :
  fst (selectWeightedRandom (Some [("none", WNum (-1)); ("standard", WNum 1); ("odd", WOther)])
         (constant_world draw_of_zero)) = Some "standard".
Proof.
  apply (selectWeightedRandom_sole_candidate _ "standard" 1); [reflexivity | discriminate |].
  intros k' N. unfold valid_weight. cbn [lookup].
  destruct (String.eqb_spec "none" k') as [<- | _]; [reflexivity |].
  rewrite (proj2 (String.eqb_neq "standard" k')) by congruence.
  destruct (String.eqb_spec "odd" k') as [<- | _]; reflexivity.
Defined.

(** ** Loops over the keys of an object *)

(** A loop whose body, when it visits [x], leaves at [x] a value that
    satisfies [P], and leaves [x] alone otherwise, ends with such a value
    at [x] once [x] has been visited. *)
Lemma for_each_establishes {V} (body : obj V -> string -> Eff (obj V)) (x : string)
    (P : V -> Prop) (xs : list string) :
  (forall acc w, exists v, lookup (fst (body acc x w)) x = Some v /\ P v) ->
  (forall acc y w, y <> x -> lookup (fst (body acc y w)) x = lookup acc x) ->
  In x xs ->
  forall acc w, exists v, lookup (fst (for_each xs body acc w)) x = Some v /\ P v.
Proof.
  intros Hx Hy.
  assert (Hkeep : forall acc y w,
             (exists v, lookup acc x = Some v /\ P v) ->
             exists v, lookup (fst (body acc y w)) x = Some v /\ P v).
  { intros acc y w H. destruct (string_dec y x) as [-> | N]; [apply Hx |].
    now rewrite Hy. }
  induction xs as [| y rest IH]; intros Hin acc w; [contradiction |].
  simpl. unfold bind.
  destruct (string_dec y x) as [-> | N].
  - apply (for_each_invariant (fun acc => exists v, lookup acc x = Some v /\ P v));
      [exact Hkeep | apply Hx].
  - apply IH. destruct Hin as [E | Hin]; [congruence | exact Hin].
Qed.

(** ** [generateStoreHorseGenetics]: the boolean modifiers *)

Lemma generate_modifier_other (bmp : obj wval) (acc : Genotype) (modifier y : string)
    (w : World) :
  modifier <> y -> lookup (fst (generate_modifier bmp acc modifier w)) y = lookup acc y.
Proof.
  intros N. unfold generate_modifier, bind.
  destruct (lookup bmp modifier) as [[q |] |]; cbn [fst snd ret emit];
    try (now apply lookup_set_other).
  destruct (Qle_bool 0 q && Qle_bool q 1); cbn [fst snd ret emit Math_random];
    now apply lookup_set_other.
Qed.

Lemma generate_modifier_value (bmp : obj wval) (acc : Genotype) (modifier : string)
    (w : World) :
  exists v,
    lookup (fst (generate_modifier bmp acc modifier w)) modifier = Some v
    /\ exists b, v = GBool b
                 /\ (forall q, valid_prevalence (lookup bmp modifier) = Some q ->
                               (q == 1 -> b = true) /\ (q == 0 -> b = false))
                 /\ (valid_prevalence (lookup bmp modifier) = None -> b = false).
Proof.
  unfold generate_modifier, valid_prevalence, bind.
  destruct (lookup bmp modifier) as [[q |] |]; cbn [fst snd ret emit].
  - destruct (Qle_bool 0 q && Qle_bool q 1); cbn [fst snd ret emit Math_random].
    + eexists. split; [rewrite lookup_set, String.eqb_refl; reflexivity |].
      eexists. split; [reflexivity |]. split; [| discriminate].
      intros q' [= <-].
      destruct (draw_bounds (random_source w (random_next w))) as [R0 R1]. split; intros E.
      * apply Qltb_lt. lra.
      * apply Qltb_ge. lra.
    + eexists. split; [rewrite lookup_set, String.eqb_refl; reflexivity |].
      exists false. split; [reflexivity |]. split; [discriminate | reflexivity].
  - eexists. split; [rewrite lookup_set, String.eqb_refl; reflexivity |].
    exists false. split; [reflexivity |]. split; [discriminate | reflexivity].
  - eexists. split; [rewrite lookup_set, String.eqb_refl; reflexivity |].
    exists false. split; [reflexivity |]. split; [discriminate | reflexivity].
Qed.

(** X2.  Under a profile whose loci and modifiers have ordinary names
    (none that [Object.prototype] defines), every modifier listed in
    [boolean_modifiers_prevalence] is in the genotype returned by
    [generateStoreHorseGenetics], as a boolean, even when a locus of the
    same name was generated before.  A prevalence of 1 gives [true] and
    a prevalence of 0 gives [false] on every draw; a prevalence that is
    not a number between 0 and 1 gives [false]. *)
Theorem generateStoreHorseGenetics_modifiers :
  forall (p : BreedProfile) (bmp : obj wval) (w : World) (modifier : string),
    ordinary_keys (weighted_loci p) ->
    ordinary_keys (keys bmp) ->
    boolean_modifiers_prevalence p = Some bmp ->
    In modifier (keys bmp) ->
    exists b,
      lookup (fst (generateStoreHorseGenetics (Some p) w)) modifier = Some (GBool b)
      /\ (forall q, valid_prevalence (lookup bmp modifier) = Some q ->
                    (q == 1 -> b = true) /\ (q == 0 -> b = false))
      /\ (valid_prevalence (lookup bmp modifier) = None -> b = false).
Proof.
  intros p bmp w modifier _ _ Hb Hin.
  unfold generateStoreHorseGenetics, bind, generate_modifiers. rewrite Hb.
  destruct (for_each_establishes (generate_modifier bmp) modifier
              (fun v => exists b, v = GBool b
                 /\ (forall q, valid_prevalence (lookup bmp modifier) = Some q ->
                               (q == 1 -> b = true) /\ (q == 0 -> b = false))
                 /\ (valid_prevalence (lookup bmp modifier) = None -> b = false))
              (keys bmp))
    with (acc := fst (generate_genes p [] w)) (w := snd (generate_genes p [] w))
    as [v [El [b [-> Hb']]]].
  - intros acc w'. apply generate_modifier_value.
  - intros acc y w' N. now apply generate_modifier_other.
  - exact Hin.
  - exists b. split; [exact El | exact Hb'].
Qed.

Lemma generateStoreHorseGenetics_modifiers_witness :
  exists b,
    lookup (fst (generateStoreHorseGenetics (Some (sooty_profile (WNum 1)))
                   (constant_world draw_of_half))) "sooty" = Some (GBool b)
    /\ (forall q, valid_prevalence (lookup [("sooty", WNum 1)] "sooty") = Some q ->
                  (q == 1 -> b = true) /\ (q == 0 -> b = false))
    /\ (valid_prevalence (lookup [("sooty", WNum 1)] "sooty") = None -> b = false).
Proof.
  apply (generateStoreHorseGenetics_modifiers (sooty_profile (WNum 1)) [("sooty", WNum 1)]).
  - apply ordinary_keys_check. reflexivity.
  - apply ordinary_keys_check. reflexivity.
  - reflexivity.
  - simpl. tauto.
Defined.

(** ** [generateStoreHorseGenetics]: nothing but what the profile lists *)

Lemma generate_gene_from_profile (p : BreedProfile) (aw : obj (obj wval))
    (acc : Genotype) (gene : string) (w : World) :
  allele_weights p = Some aw ->
  (forall key v, lookup acc key = Some v -> from_profile p key v) ->
  forall key v, lookup (fst (generate_gene p aw acc gene w)) key = Some v ->
                from_profile p key v.
Proof.
  intros Haw Hacc key v. unfold generate_gene, bind.
  destruct (fst (selectWeightedRandom (lookup aw gene) w)) as [chosen |] eqn:Es;
    [| apply Hacc].
  destruct (nonempty chosen); [| apply Hacc].
  destruct (disallowed_includes p gene chosen); [apply Hacc |].
  cbn [fst ret]. rewrite lookup_set.
  destruct (String.eqb gene key) eqn:E; [| apply Hacc].
  apply String.eqb_eq in E. subst key. intros [= <-].
  left. destruct (lookup aw gene) as [table |] eqn:L; [| discriminate Es].
  exists chosen, aw, table. repeat split; try assumption.
  destruct (selectWeightedRandom_cases table w) as [[_ N] | [k [Ek Hk]]]; congruence.
Qed.

Lemma generate_modifier_from_profile (p : BreedProfile) (bmp : obj wval)
    (acc : Genotype) (modifier : string) (w : World) :
  boolean_modifiers_prevalence p = Some bmp -> In modifier (keys bmp) ->
  (forall key v, lookup acc key = Some v -> from_profile p key v) ->
  forall key v, lookup (fst (generate_modifier bmp acc modifier w)) key = Some v ->
                from_profile p key v.
Proof.
  intros Hb Hin Hacc key v Hl.
  destruct (string_dec modifier key) as [-> | N].
  - destruct (generate_modifier_value bmp acc key w) as [v' [El [b [-> _]]]].
    rewrite El in Hl. injection Hl as <-. right. exists b, bmp. auto.
  - rewrite generate_modifier_other in Hl by exact N. now apply Hacc.
Qed.

(** X3.  The genotype returned by [generateStoreHorseGenetics] holds
    nothing but what the profile lists: an allele pair at a key is one of
    the keys of that locus's weight table, and a boolean is held only
    under a modifier of [boolean_modifiers_prevalence]. *)
Theorem generateStoreHorseGenetics_from_profile :
  forall (p : BreedProfile) (w : World) (key : string) (v : gval),
    lookup (fst (generateStoreHorseGenetics (Some p) w)) key = Some v ->
    from_profile p key v.
Proof.
  intros p w. unfold generateStoreHorseGenetics, bind.
  assert (Hg : forall key v, lookup (fst (generate_genes p [] w)) key = Some v ->
                             from_profile p key v).
  { unfold generate_genes. destruct (allele_weights p) as [aw |] eqn:Haw.
    - apply (for_each_invariant
               (fun acc => forall key v, lookup acc key = Some v -> from_profile p key v)).
      + intros acc x w' H. now apply generate_gene_from_profile.
      + intros key v H. discriminate H.
    - intros key v H. discriminate H. }
  unfold generate_modifiers. destruct (boolean_modifiers_prevalence p) as [bmp |] eqn:Hb.
  - apply (for_each_invariant_in
             (fun acc => forall key v, lookup acc key = Some v -> from_profile p key v)).
    + intros acc x w' Hin H. now apply (generate_modifier_from_profile p bmp).
    + exact Hg.
  - exact Hg.
Qed.

Lemma generateStoreHorseGenetics_from_profile_witness :
  from_profile (sooty_profile (WNum 1)) "E_Extension" (GStr "e/e").
Proof.
  apply (generateStoreHorseGenetics_from_profile (sooty_profile (WNum 1))
           (constant_world draw_of_half)).
  vm_compute. reflexivity.
Defined.

(** ** [combineAlleles] and [getParentAllele] *)

Lemma sort2_symmetric (a b : string) :
  String.concat "/" (JsString.sort2 a b) = String.concat "/" (JsString.sort2 b a).
Proof.
  unfold JsString.sort2, String.ltb. rewrite (String.compare_antisym b a).
  destruct (String.compare a b) eqn:C; cbn [CompOpp]; try reflexivity.
  apply String.compare_eq_iff in C. now subst.
Qed.

Lemma order_preserving_symmetric (prefixes : list string) (a b : string) :
  order_preserving prefixes a b = order_preserving prefixes b a.
Proof.
  induction prefixes as [| p rest IH]; [reflexivity |]. cbn [order_preserving].
  destruct (JsString.startsWith a p && negb (a =? b) && (b =? "w")) eqn:C1;
    destruct (JsString.startsWith b p && negb (b =? a) && (a =? "w")) eqn:C2;
    try reflexivity; [| exact IH].
  exfalso.
  apply andb_true_iff in C1. destruct C1 as [C1 Eb]. apply andb_true_iff in C1.
  destruct C1 as [_ N]. apply andb_true_iff in C2. destruct C2 as [_ Ea].
  apply String.eqb_eq in Ea, Eb. subst. discriminate N.
Qed.

Lemma order_preserving_pair (prefixes : list string) (a b r : string) :
  order_preserving prefixes a b = Some r -> r = pair_of a b \/ r = pair_of b a.
Proof.
  induction prefixes as [| p rest IH]; [discriminate |]. cbn [order_preserving].
  destruct (JsString.startsWith a p && negb (a =? b) && (b =? "w")); [intros [= <-]; now left |].
  destruct (JsString.startsWith b p && negb (b =? a) && (a =? "w")); [intros [= <-]; now right |].
  exact IH.
Qed.

Lemma dominantLike_exclusive (a b : string) :
  JsString.mem a dominantLike = true -> JsString.mem b dominantLike = true ->
  (b =? "n") || (b =? JsString.toLowerCase a) = false.
Proof.
  intros Ha Hb. apply mem_In in Ha. apply mem_In in Hb.
  unfold dominantLike in Ha, Hb. cbn [In] in Ha, Hb.
  repeat (destruct Ha as [<- | Ha]; [
    repeat (destruct Hb as [<- | Hb]; [reflexivity |]); contradiction |]).
  contradiction.
Qed.

Lemma combineAlleles_cases (a b : string) :
  exists r,
    combineAlleles (Some a) (Some b) = Some r
    /\ combineAlleles (Some b) (Some a) = Some r
    /\ (r = pair_of a b \/ r = pair_of b a).
Proof.
  unfold combineAlleles.
  rewrite (order_preserving_symmetric orderPreservingGenes b a).
  destruct (JsString.mem (JsString.toLowerCase a) recessiveLikes) eqn:Ra;
    destruct (JsString.mem (JsString.toLowerCase b) recessiveLikes) eqn:Rb;
    cbn [negb andb];
    try (eexists; split; [reflexivity | split; [reflexivity | tauto]]);
    (destruct (order_preserving orderPreservingGenes a b) as [ordered |] eqn:O;
     [ exists ordered; split; [reflexivity | split; [reflexivity |]];
       eapply order_preserving_pair; eassumption |]);
    (destruct (JsString.mem a dominantLike) eqn:Da;
     destruct (JsString.mem b dominantLike) eqn:Db; cbn [andb];
     [ rewrite (dominantLike_exclusive a b Da Db), (dominantLike_exclusive b a Db Da)
     | | | ]);
    repeat match goal with
      | |- context [if ?c then _ else _] => destruct c
      end;
    try (eexists; split; [reflexivity | split; [reflexivity | tauto]]);
    try (rewrite (sort2_symmetric b a);
         eexists; split; [reflexivity | split; [reflexivity |]];
         unfold JsString.sort2; destruct (String.ltb b a); cbn; tauto).
Qed.

Lemma includes_slash_nonempty (s : string) :
  JsString.includes s "/" = true -> nonempty s = true.
Proof. destruct s; [discriminate | reflexivity]. Qed.

Lemma pair_of_nonempty (a b : string) : nonempty (pair_of a b) = true.
Proof. unfold pair_of. destruct a; reflexivity. Qed.

Lemma getParentAllele_In (v : option gval) (w : World) (a : string) :
  fst (getParentAllele v w) = Some a ->
  exists s, v = Some (GStr s) /\ In a (JsString.split_slash s).
Proof.
  unfold getParentAllele. destruct v as [[s | b] |]; try discriminate.
  destruct (nonempty s && JsString.includes s "/"); [| discriminate].
  unfold bind. cbn [fst snd Math_random ret]. intros H.
  exists s. split; [reflexivity |]. eapply nth_error_In. eassumption.
Qed.

Lemma getParentAllele_passes (s : string) (w : World) :
  JsString.includes s "/" = true ->
  exists a, getParentAllele (Some (GStr s)) w = (Some a, after_draw w)
            /\ In a (JsString.split_slash s).
Proof.
  intros H. unfold getParentAllele. rewrite (includes_slash_nonempty s H), H.
  cbn [andb]. unfold bind. cbn [fst snd Math_random ret].
  assert (L : (0 < length (JsString.split_slash s))%nat).
  { pose proof (split_not_nil "/" s) as N. unfold JsString.split_slash.
    destruct (JsString.split "/" s); [contradiction | simpl; lia]. }
  pose proof (random_index_lt (random_source w (random_next w)) _ L) as B.
  apply nth_error_Some in B.
  destruct (nth_error (JsString.split_slash s) _) as [a |] eqn:E; [| contradiction].
  exists a. split; [reflexivity |]. eapply nth_error_In. eassumption.
Qed.

Lemma combineAlleles_pair (a b r : string) :
  combineAlleles (Some a) (Some b) = Some r -> r = pair_of a b \/ r = pair_of b a.
Proof.
  intros H. destruct (combineAlleles_cases a b) as [r' [E [_ Hr]]].
  rewrite E in H. now injection H as <-.
Qed.

Lemma includes_slash_cons (c : ascii) (s : string) :
  JsString.includes (String c s) "/" = false ->
  Ascii.eqb c "/" = false /\ JsString.includes s "/" = false.
Proof.
  rewrite includes_unfold. cbn [prefix].
  destruct (Ascii.ascii_dec "/" c) as [<- | N].
  - destruct s; discriminate.
  - intros H. split; [| exact H].
    apply Ascii.eqb_neq. congruence.
Qed.

Lemma pair_of_includes_slash (a b : string) :
  JsString.includes (pair_of a b) "/" = true.
Proof.
  unfold pair_of. change ("/" ++ b)%string with (String "/" b).
  induction a as [| c a' IH].
  - cbn [append]. rewrite includes_unfold. cbn [prefix].
    destruct (Ascii.ascii_dec "/" "/"); [now destruct b | congruence].
  - cbn [append]. rewrite includes_unfold, IH. now destruct (prefix _ _).
Qed.

(** Splitting [a/b] at the slash gives back [a] and [b] when neither
    holds a slash. *)
Lemma split_pair_of (a b : string) :
  JsString.includes a "/" = false -> JsString.includes b "/" = false ->
  JsString.split_slash (pair_of a b) = [a; b].
Proof.
  intros Ha Hb. unfold pair_of, JsString.split_slash.
  assert (Sb : JsString.split "/" b = [b]).
  { clear Ha. induction b as [| c b' IH]; [reflexivity |].
    apply includes_slash_cons in Hb. destruct Hb as [Hc Hb'].
    cbn [JsString.split]. rewrite Hc, (IH Hb'). reflexivity. }
  change ("/" ++ b)%string with (String "/" b).
  induction a as [| c a' IH].
  - cbn. now rewrite Sb.
  - apply includes_slash_cons in Ha. destruct Ha as [Hc Ha'].
    cbn [append JsString.split]. rewrite Hc, (IH Ha'). reflexivity.
Qed.

(** X4.  [combineAlleles] neither invents nor drops an allele, and the
    pair does not depend on which parent passed which allele: the result
    for [a] and [b] is [a/b] or [b/a], and is the same for [b] and [a]. *)
Theorem combineAlleles_keeps_and_commutes :
  forall a b : string,
    exists r,
      combineAlleles (Some a) (Some b) = Some r
      /\ combineAlleles (Some b) (Some a) = Some r
      /\ (r = pair_of a b \/ r = pair_of b a).
Proof.
  intros a b.
  destruct (combineAlleles (Some a) (Some b)) as [r |] eqn:E.
  - exists r. split; [reflexivity |]. split.
    + destruct (combineAlleles_cases b a) as [r' [E1 [E2 _]]]. congruence.
    + now apply combineAlleles_pair.
  - destruct (combineAlleles_cases a b) as [r' [E1 _]]. congruence.
Qed.

(** X5.  Round trip through a generation: an allele that
    [getParentAllele] draws from the pair that [combineAlleles] made of
    [a] and [b] is [a] or [b], whatever the draw, and one draw is used. *)
Theorem getParentAllele_of_combined :
  forall (a b : string) (w : World),
    JsString.includes a "/" = false -> JsString.includes b "/" = false ->
    exists r x,
      combineAlleles (Some a) (Some b) = Some r
      /\ getParentAllele (Some (GStr r)) w = (Some x, after_draw w)
      /\ (x = a \/ x = b).
Proof.
  intros a b w Ha Hb.
  destruct (combineAlleles_cases a b) as [r [E [_ Hr]]].
  assert (S : JsString.split_slash r = [a; b] \/ JsString.split_slash r = [b; a]).
  { destruct Hr as [-> | ->]; [left | right]; now apply split_pair_of. }
  assert (I : JsString.includes r "/" = true).
  { destruct Hr as [-> | ->]; apply pair_of_includes_slash. }
  destruct (getParentAllele_passes r w I) as [x [G Hx]].
  exists r, x. split; [exact E |]. split; [exact G |].
  destruct S as [S | S]; rewrite S in Hx; cbn [In] in Hx; intuition.
Qed.

Lemma getParentAllele_of_combined_witness :
  exists r x,
    combineAlleles (Some "e") (Some "E") = Some r
    /\ getParentAllele (Some (GStr r)) (constant_world draw_of_half)
       = (Some x, after_draw (constant_world draw_of_half))
    /\ (x = "e" \/ x = "E").
Proof.
  apply getParentAllele_of_combined; reflexivity.
Defined.

(** ** [calculateFoalGenetics]: where the foal's genes come from *)

Lemma sample_attempts_mendelian (n : nat) (p : BreedProfile) (gene : string)
    (sirePair damPair : option gval) (w : World) (fp : string) :
  fst (sample_attempts n p gene sirePair damPair w) = Some fp ->
  exists s d, sirePair = Some (GStr s) /\ damPair = Some (GStr d) /\ mendelian s d fp
              /\ (allowed_alleles p = None \/ In fp (listed (allowed_alleles p) gene)).
Proof.
  revert w. induction n as [| k IH]; intros w; simpl.
  - discriminate.
  - unfold bind.
    destruct (fst (getParentAllele sirePair w)) as [a1 |] eqn:G1; [| discriminate].
    destruct (fst (getParentAllele damPair _)) as [a2 |] eqn:G2; [| discriminate].
    destruct (combineAlleles (Some a1) (Some a2)) as [r |] eqn:C; [| discriminate].
    destruct (negb (nonempty r)); [discriminate |].
    destruct (match allowed_alleles p with
              | Some _ => negb (JsString.mem r (listed (allowed_alleles p) gene))
              | None => false
              end) eqn:A; [apply IH |].
    destruct (JsString.mem r (listed (disallowed_combinations p) gene)); [apply IH |].
    intros [= <-].
    apply getParentAllele_In in G1, G2.
    destruct G1 as [s [-> I1]]. destruct G2 as [d [-> I2]].
    exists s, d. split; [reflexivity |]. split; [reflexivity |]. split.
    + exists a1, a2. split; [exact I1 |]. split; [exact I2 |].
      now apply combineAlleles_pair.
    + destruct (allowed_alleles p) as [aa |]; [right | now left].
      apply mem_In. now destruct (JsString.mem r _).
Qed.

Lemma sample_attempts_unconstrained (n : nat) (p : BreedProfile) (gene s d : string)
    (w : World) :
  allowed_alleles p = None ->
  listed (disallowed_combinations p) gene = [] ->
  JsString.includes s "/" = true -> JsString.includes d "/" = true ->
  exists fp,
    fst (sample_attempts (S n) p gene (Some (GStr s)) (Some (GStr d)) w) = Some fp.
Proof.
  intros Ha Hd Is Id. cbn [sample_attempts]. unfold bind.
  destruct (getParentAllele_passes s w Is) as [a [-> _]]. cbn [fst snd].
  destruct (getParentAllele_passes d (after_draw w) Id) as [b [-> _]]. cbn [fst snd].
  destruct (combineAlleles_cases a b) as [r [-> [_ Hr]]].
  assert (N : nonempty r = true) by (destruct Hr as [-> | ->]; apply pair_of_nonempty).
  rewrite N, Ha, Hd. cbn [negb JsString.mem existsb fst ret]. now exists r.
Qed.

Lemma genesToInherit_parent_gene (sire dam : Genotype) (p : BreedProfile)
    (gene : string) (v : gval) :
  allowed_alleles p = None -> lookup sire gene = Some v -> ~ In gene booleanModifiers ->
  In gene (genesToInherit sire dam p).
Proof.
  intros Ha Hl Hn. unfold genesToInherit. rewrite Ha.
  apply filter_In. split.
  - assert (I : In gene (keys sire ++ keys dam)).
    { apply in_or_app. left. eapply lookup_In_keys. eassumption. }
    destruct (dedup_complete [] _ _ I) as [[] | H]. exact H.
  - apply mem_false_In in Hn. now rewrite Hn.
Qed.

Lemma inherit_gene_mendelian (sire dam : Genotype) (p : BreedProfile)
    (foal : Genotype) (gene s d : string) (w : World) :
  allowed_alleles p = None ->
  listed (disallowed_combinations p) gene = [] ->
  lookup sire gene = Some (GStr s) -> lookup dam gene = Some (GStr d) ->
  JsString.includes s "/" = true -> JsString.includes d "/" = true ->
  exists v, lookup (fst (inherit_gene sire dam p foal gene w)) gene = Some v
            /\ exists fp, v = GStr fp /\ mendelian s d fp.
Proof.
  intros Ha Hdis Hs Hd Is Id. unfold inherit_gene, bind. rewrite Hs, Hd.
  cbn [truthy]. rewrite (includes_slash_nonempty s Is), (includes_slash_nonempty d Id).
  cbn [andb]. change MAX_ATTEMPTS with (S 9).
  destruct (sample_attempts_unconstrained 9 p gene s d w Ha Hdis Is Id) as [fp E].
  pose proof (sample_attempts_mendelian _ _ _ _ _ _ _ E) as [s' [d' [[= <-] [[= <-] [M _]]]]].
  rewrite E. cbn [fst ret]. rewrite lookup_set, String.eqb_refl. eauto.
Qed.

(** X6.  Mendelian inheritance.  Under a profile without
    [allowed_alleles] that disallows nothing at [gene], when both parents
    hold an allele pair (a string with a slash) at [gene], the foal holds
    at [gene] a pair that joins one allele of the sire's pair with one
    allele of the dam's, on every random draw.  The loci to inherit have
    ordinary names (none that [Object.prototype] defines). *)
Theorem calculateFoalGenetics_mendelian :
  forall (sire dam : Genotype) (p : BreedProfile) (gene s d : string) (w : World),
    ordinary_keys (genesToInherit sire dam p) ->
    allowed_alleles p = None ->
    listed (disallowed_combinations p) gene = [] ->
    lookup sire gene = Some (GStr s) -> lookup dam gene = Some (GStr d) ->
    JsString.includes s "/" = true -> JsString.includes d "/" = true ->
    ~ In gene booleanModifiers ->
    exists fp,
      lookup (fst (calculateFoalGenetics (Some sire) (Some dam) (Some p) w)) gene
        = Some (GStr fp)
      /\ mendelian s d fp.
Proof.
  intros sire dam p gene s d w _ Ha Hdis Hs Hd Is Id Hn.
  unfold calculateFoalGenetics, bind.
  destruct (for_each_establishes (inherit_gene sire dam p) gene
              (fun v => exists fp, v = GStr fp /\ mendelian s d fp)
              (genesToInherit sire dam p)) with (acc := @nil (string * gval)) (w := w)
    as [v [L [fp [-> M]]]].
  - intros acc w'. now apply inherit_gene_mendelian.
  - intros acc y w' N. now apply inherit_gene_other.
  - eapply genesToInherit_parent_gene; eassumption.
  - exists fp. split; [| exact M].
    destruct (boolean_modifiers_prevalence p) as [bmp |]; [| exact L].
    apply (for_each_invariant (fun acc => lookup acc gene = Some (GStr fp))); [| exact L].
    intros acc x w' H. now rewrite inherit_modifier_other.
Qed.

Lemma calculateFoalGenetics_mendelian_witness :
  exists fp,
    lookup (fst (calculateFoalGenetics (Some bay_tobiano_sire) (Some chestnut_dam)
                   (Some unconstrained_profile) (constant_world draw_of_zero)))
           "TO_Tobiano" = Some (GStr fp)
    /\ mendelian "TO/to" "to/to" fp.
Proof.
  apply calculateFoalGenetics_mendelian; try reflexivity.
  - apply ordinary_keys_check. reflexivity.
  - vm_compute. intuition discriminate.
Defined.

Lemma weights_fallback_key (p : BreedProfile) (gene : string) (w : World) (fp : string) :
  fst (weights_fallback p gene w) = Some fp ->
  exists aw table, allele_weights p = Some aw /\ lookup aw gene = Some table
                   /\ In fp (keys table).
Proof.
  unfold weights_fallback, bind.
  destruct (allele_weights p) as [aw |]; [| discriminate].
  destruct (lookup aw gene) as [table |] eqn:L; [| discriminate].
  destruct (selectWeightedRandom_cases table w) as [[_ N] | [k [Ek Hk]]].
  - rewrite N. discriminate.
  - rewrite Ek.
    destruct (nonempty k && negb (JsString.mem k (listed (disallowed_combinations p) gene)));
      [| discriminate].
    intros [= <-]. exists aw, table. auto.
Qed.

Lemma recessive_fallback_allowed (allowedForFoal : list string) (fp : string) :
  recessive_fallback allowedForFoal = Some fp -> In fp allowedForFoal.
Proof.
  unfold recessive_fallback.
  destruct (find _ recessivePairs) as [rp |] eqn:F.
  - intros [= <-]. apply find_some in F. now apply mem_In.
  - destruct allowedForFoal as [| first rest]; [discriminate |].
    intros [= <-]. now left.
Qed.

(** What [inherit_gene] does to the foal genotype: nothing, or one
    assignment of a pair drawn from the parents, drawn from the weights
    of the locus, or taken from the allowed pairs of the locus. *)
Lemma inherit_gene_origin (sire dam : Genotype) (p : BreedProfile)
    (foal : Genotype) (gene : string) (w : World) :
  fst (inherit_gene sire dam p foal gene w) = foal
  \/ exists fp,
       fst (inherit_gene sire dam p foal gene w) = set foal gene (GStr fp)
       /\ ((exists s d, lookup sire gene = Some (GStr s) /\ lookup dam gene = Some (GStr d)
                        /\ mendelian s d fp
                        /\ (allowed_alleles p = None
                            \/ In fp (listed (allowed_alleles p) gene)))
           \/ (exists aw table, allele_weights p = Some aw /\ lookup aw gene = Some table
                                /\ In fp (keys table))
           \/ In fp (listed (allowed_alleles p) gene)).
Proof.
  unfold inherit_gene, bind.
  set (sampled := (if truthy (lookup sire gene) && truthy (lookup dam gene)
                   then sample_attempts MAX_ATTEMPTS p gene (lookup sire gene) (lookup dam gene)
                   else ret None) w).
  destruct (fst sampled) as [fp |] eqn:Es.
  - right. exists fp. split; [reflexivity |]. left.
    subst sampled. destruct (truthy (lookup sire gene) && truthy (lookup dam gene)).
    + eapply sample_attempts_mendelian. eassumption.
    + discriminate.
  - destruct (fst (weights_fallback p gene (snd sampled))) as [fp |] eqn:Ew.
    + right. exists fp. split; [reflexivity |]. right. left.
      eapply weights_fallback_key. eassumption.
    + destruct (recessive_fallback (listed (allowed_alleles p) gene)) as [fp |] eqn:R;
        [| now left].
      destruct (nonempty fp); [| now left]. cbn [andb].
      destruct (JsString.mem fp (listed (disallowed_combinations p) gene)); [now left |].
      right. exists fp. split; [reflexivity |]. right. right.
      now apply recessive_fallback_allowed.
Qed.

(** X7.  Every property of the foal's genotype is accounted for.  An
    allele pair sits at a key of [genesToInherit] and joins an allele of
    each parent's pair at that key (and is then one of the allowed pairs
    of the locus when the profile has [allowed_alleles]), or is a key of
    the profile's weight table for the locus, or is one of the profile's
    allowed pairs for it;
    anything else sits under one of the four boolean modifiers, listed in
    [boolean_modifiers_prevalence], and is a boolean or a parent's value
    for that modifier. *)
Theorem calculateFoalGenetics_provenance :
  forall (sire dam : Genotype) (p : BreedProfile) (w : World) (key : string) (v : gval),
    lookup (fst (calculateFoalGenetics (Some sire) (Some dam) (Some p) w)) key = Some v ->
    foal_provenance sire dam p key v.
Proof.
  intros sire dam p w. unfold calculateFoalGenetics, bind.
  set (inv := fun foal : Genotype =>
                forall key v, lookup foal key = Some v -> foal_provenance sire dam p key v).
  assert (G : inv (fst (for_each (genesToInherit sire dam p) (inherit_gene sire dam p) [] w))).
  { apply for_each_invariant_in; [| intros key v; discriminate].
    intros acc gene w' Hin Hacc key v.
    destruct (inherit_gene_origin sire dam p acc gene w') as [-> | [fp [-> O]]];
      [apply Hacc |].
    rewrite lookup_set. destruct (String.eqb gene key) eqn:E; [| apply Hacc].
    apply String.eqb_eq in E. subst key. intros [= <-].
    left. exists fp. auto. }
  destruct (boolean_modifiers_prevalence p) as [bmp |] eqn:B; [| exact G].
  apply (for_each_invariant_in inv); [| exact G].
  intros acc modifier w' Hin Hacc key v.
  destruct (inherit_modifier_cases sire dam bmp acc modifier w')
    as [-> | [Hm [v' [-> O]]]]; [apply Hacc |].
  rewrite lookup_set. destruct (String.eqb modifier key) eqn:E; [| apply Hacc].
  apply String.eqb_eq in E. subst key. intros [= <-].
  right. split; [exact Hm |]. split; [| exact O]. exists bmp. auto.
Qed.

Lemma calculateFoalGenetics_provenance_witness :
  foal_provenance bay_tobiano_sire chestnut_dam unconstrained_profile
    "E_Extension" (GStr "E/e").
Proof.
  apply (calculateFoalGenetics_provenance bay_tobiano_sire chestnut_dam
           unconstrained_profile (constant_world draw_of_zero)).
  vm_compute. reflexivity.
Defined.

(** ** [calculateFoalGenetics]: the boolean modifiers *)



(** ** [determinePhenotype]: what a returned result looks like *)

Lemma bind_x_inv {A B} (m : Exec A) (f : A -> Exec B) (w : World) (r : B * World) :
  bind_x m f w = Returned r ->
  exists a w', m w = Returned (a, w') /\ f a w' = Returned r.
Proof.
  unfold bind_x. destruct (m w) as [[a w'] | e]; [| discriminate].
  cbn [fst snd]. eauto.
Qed.

Lemma ret_x_inv {A} (a : A) (w : World) (r : A * World) :
  ret_x a w = Returned r -> r = (a, w).
Proof. now intros [= <-]. Qed.

Lemma run_inv {A} (m : Eff A) (w : World) (r : A * World) :
  run m w = Returned r -> r = m w.
Proof. now intros [= <-]. Qed.

Lemma settle_inv {A} (o : outcome A) (w : World) (r : A * World) :
  settle o w = Returned r -> snd r = w.
Proof. unfold settle. destruct o; [now intros [= <-] | discriminate]. Qed.

Lemma yields_of_returns {A} (m : Exec A) (w : World) (P : A -> Prop) :
  returns m -> (forall a w', m w = Returned (a, w') -> P a) -> yields m w P.
Proof.
  intros R H. destruct (R w) as [a [w' [E _]]]. exists a, w'. split; [exact E |].
  eapply H. eassumption.
Qed.

Lemma or_else_nonempty (a b : string) : b <> "" -> or_else a b <> "".
Proof.
  intros Hb. unfold or_else, nonempty.
  destruct (a =? "") eqn:E; cbn [negb]; [exact Hb |]. now apply String.eqb_neq.
Qed.

Lemma assemble_nonempty (baseColor : string) (parts : list string) :
  assemble baseColor parts <> "".
Proof.
  unfold assemble.
  set (color := JsString.trim (JsString.collapse_spaces (JsString.join_space parts))).
  destruct (nonempty (JsString.trim color)) eqn:E; cbn [negb].
  - intros C. rewrite C in E. discriminate E.
  - now apply or_else_nonempty.
Qed.

Lemma shade_stage_nonempty (profile : option BreedProfile) (baseColor pks : string)
    (w : World) :
  fst (shade_stage profile baseColor pks w) <> "".
Proof.
  unfold shade_stage, bind. cbn [fst ret].
  match goal with |- context [fst ?m] => destruct (fst m) as [shade |] end;
    [now apply or_else_nonempty | discriminate].
Qed.

(** Decomposing an equation [bind_x m f w = Returned r]: the value and
    the world in between, and the equation of the first part. *)
Tactic Notation "exec_inv" hyp(H) "as"
    simple_intropattern(a) ident(w) simple_intropattern(E) :=
  apply bind_x_inv in H; destruct H as (a & w & E & H).

Ltac exec_done H :=
  apply ret_x_inv in H; injection H as; subst.

Lemma leopard_stage_markings (g : Genotype) (profile : option BreedProfile) (age : Q)
    (allWhite : bool) (parts : list string) (pks : string) (markings : Markings)
    (w w' : World) (r : list string * string * Markings) :
  leopard_stage g profile age allWhite parts pks markings w = Returned (r, w') ->
  marking_face (snd r) = marking_face markings
  /\ marking_legs (snd r) = marking_legs markings.
Proof.
  unfold leopard_stage. intros H.
  exec_inv H as hasLP w1 E1. exec_inv H as patn1 w2 E2.
  destruct (hasLP && negb allWhite).
  - exec_inv H as name w3 E3.
    destruct (nonempty name && _) in H; exec_done H; split; reflexivity.
  - exec_done H. split; reflexivity.
Qed.

Lemma gray_stage_markings (g : Genotype) (profile : option BreedProfile) (age : Q)
    (baseColor : string) (allWhite : bool) (parts : list string) (pks : string)
    (markings : Markings) (w w' : World) (r : list string * string * Markings) :
  gray_stage g profile age baseColor allWhite parts pks markings w = Returned (r, w') ->
  marking_face (snd r) = marking_face markings
  /\ marking_legs (snd r) = marking_legs markings.
Proof.
  unfold gray_stage. intros H. exec_inv H as gray w1 E1.
  destruct (gray && negb allWhite).
  - exec_inv H as r0 w2 E2. exec_done H. cbn [snd].
    destruct (Qltb _ _); split; reflexivity.
  - exec_done H. split; reflexivity.
Qed.

(** What [display_color] returns: a colour put together by [assemble], a
    shade chosen by [shade_stage], and markings whose face and legs are
    still the initial ones. *)
Lemma display_color_result (g : Genotype) (profile : option BreedProfile) (age : Q)
    (w w' : World) (color shade : string) (markings : Markings) :
  display_color g profile age w = Returned ((color, shade, markings), w') ->
  color <> "" /\ shade <> ""
  /\ (exists baseColor pks w0, shade = fst (shade_stage profile baseColor pks w0))
  /\ marking_face markings = "none"
  /\ marking_legs markings = unmarked_legs.
Proof.
  unfold display_color. intros H.
  exec_inv H as [[[[baseColor isChestnutBase] dun] cdc] pks] wd D.
  exec_inv H as shade' ws S. apply run_inv in S. injection S as -> ->.
  exec_inv H as [parts pks1] wm M.
  exec_inv H as [color' markings'] wp P.
  exec_done H.
  unfold patterns_and_assembly in P.
  exec_inv P as [[parts1 pks2] allWhite] w1 W.
  exec_inv P as parts2 w2 T.
  exec_inv P as [[parts3 pks3] markings3] w3 L.
  exec_inv P as [[parts4 pks4] markings4] w4 G.
  exec_done P.
  apply leopard_stage_markings in L. apply gray_stage_markings in G.
  cbn [snd] in L, G. destruct L as [F3 L3]. destruct G as [F4 L4].
  split; [apply assemble_nonempty |].
  split; [apply shade_stage_nonempty |].
  split; [now exists baseColor, pks, wd |].
  split; [now rewrite F4, F3 | now rewrite L4, L3].
Qed.

(** What [determinePhenotype] returns, in terms of its two parts. *)
Lemma determinePhenotype_result (g : Genotype) (profile : option BreedProfile) (age : Q)
    (w w' : World) (r : PhenotypeResult) :
  determinePhenotype (Some g) profile age w = Returned (r, w') ->
  exists markings w1,
    display_color g profile age w
    = Returned ((final_display_color r, determined_shade r, markings), w1)
    /\ phenotypic_markings r = fst (markings_stage profile markings w1)
    /\ w' = snd (markings_stage profile markings w1).
Proof.
  unfold determinePhenotype. intros H.
  exec_inv H as [[color shade] markings] w1 D.
  exec_inv H as markings' w2 M. apply run_inv in M. exec_done H.
  exists markings, w1. split; [exact D |]. now rewrite <- M.
Qed.

(** X9.  On a genotype whose loci hold strings (a boolean only under the
    name of a boolean modifier), [determinePhenotype] returns for every
    profile, age and random draw, and neither the display colour nor the
    shade of the result is the empty string. *)
Theorem determinePhenotype_names_a_colour :
  forall (g : Genotype) (profile : option BreedProfile) (age : Q) (w : World),
    loci_hold_strings g ->
    exists r w',
      determinePhenotype (Some g) profile age w = Returned (r, w')
      /\ final_display_color r <> "" /\ determined_shade r <> "".
Proof.
  intros g profile age w Hg.
  destruct (determinePhenotype_returns g Hg profile age w) as [r [w' [E _]]].
  exists r, w'. split; [exact E |].
  apply determinePhenotype_result in E. destruct E as [markings [w1 [E _]]].
  apply display_color_result in E. tauto.
Qed.

Lemma determinePhenotype_names_a_colour_witness :
  exists r w',
    determinePhenotype (Some sooty_bay_genotype) None 0 (constant_world draw_of_half)
    = Returned (r, w')
    /\ final_display_color r <> "" /\ determined_shade r <> "".
Proof.
  apply determinePhenotype_names_a_colour.
  apply loci_hold_strings_check. reflexivity.
Defined.

(** ** [determinePhenotype]: a boolean where an allele pair is expected *)

(** X10.  A genotype that holds the boolean [true] at one of the loci
    that are always read makes [determinePhenotype] throw a [TypeError],
    for every profile, age and random draw: the value has no [includes]
    or [split] method. *)
Theorem determinePhenotype_boolean_at_locus :
  forall (g : Genotype) (gene : string) (profile : option BreedProfile) (age : Q)
         (w : World),
    In gene loci_always_read ->
    lookup g gene = Some (GBool true) ->
    determinePhenotype (Some g) profile age w = Thrown TypeError.
Proof.
  intros g gene profile age w Hin H.
  unfold determinePhenotype. apply bind_x_thrown.
  unfold display_color, dilutions, base_coat, mushroom_stage, cream_stage, dun_stage,
    champagne_stage, silver_stage, modifiers_stage, roan_stage, patterns_and_assembly,
    white_stage, getDominantWhiteAlleles, leopard_stage, gray_stage.
  unfold loci_always_read in Hin. cbn [In] in Hin.
  repeat (destruct Hin as [<- | Hin]; [rewrite ?H; cbn [truthy]; throws_at |]).
  contradiction.
Qed.

Lemma determinePhenotype_boolean_at_locus_witness :
  determinePhenotype (Some [("E_Extension", GStr "E/e"); ("G_Gray", GBool true)])
    None 0 (constant_world draw_of_zero) = Thrown TypeError.
Proof.
  apply (determinePhenotype_boolean_at_locus _ "G_Gray"); [| reflexivity].
  unfold loci_always_read. cbn [In]. tauto.
Defined.

(** ** [determinePhenotype]: what it writes to the console *)

Lemma logged_same (w w' : World) : console w' = console w -> only_invalid_items_logged w w'.
Proof. intros E. exists []. rewrite app_nil_r. split; [exact E | intros d []]. Qed.

Lemma logged_trans (w1 w2 w3 : World) :
  only_invalid_items_logged w1 w2 -> only_invalid_items_logged w2 w3 ->
  only_invalid_items_logged w1 w3.
Proof.
  intros [x1 [E1 H1]] [x2 [E2 H2]]. exists (x1 ++ x2). split.
  - now rewrite E2, E1, app_assoc.
  - intros d Hd. apply in_app_or in Hd. destruct Hd; auto.
Qed.

Lemma quiet_eff_ret {A} (a : A) : quiet_eff (ret a).
Proof. intros w. now apply logged_same. Qed.

Lemma quiet_eff_bind {A B} (m : Eff A) (f : A -> Eff B) :
  quiet_eff m -> (forall a, quiet_eff (f a)) -> quiet_eff (bind m f).
Proof.
  intros Hm Hf w. unfold bind. eapply logged_trans; [apply Hm | apply Hf].
Qed.

Lemma quiet_eff_Math_random : quiet_eff Math_random.
Proof. intros w. now apply logged_same. Qed.

Lemma quiet_eff_selectWeightedRandom (x : option (obj wval)) :
  quiet_eff (selectWeightedRandom x).
Proof. intros w. apply selectWeightedRandom_console. Qed.

Lemma quiet_ret_x {A} (a : A) : quiet (ret_x a).
Proof. intros w a' w' [= _ <-]. now apply logged_same. Qed.

Lemma quiet_settle {A} (o : outcome A) : quiet (settle o).
Proof.
  intros w a w' H. apply settle_inv in H. cbn [snd] in H. subst. now apply logged_same.
Qed.

Lemma quiet_run {A} (m : Eff A) : quiet_eff m -> quiet (run m).
Proof.
  intros H w a w' E. apply run_inv in E. specialize (H w). rewrite <- E in H. exact H.
Qed.

Lemma quiet_bind_x {A B} (m : Exec A) (f : A -> Exec B) :
  quiet m -> (forall a, quiet (f a)) -> quiet (bind_x m f).
Proof.
  intros Hm Hf w b w' H. apply bind_x_inv in H. destruct H as [a [w1 [E1 E2]]].
  eapply logged_trans; [eapply Hm | eapply Hf]; eassumption.
Qed.

Ltac quiet_step :=
  match goal with
  | |- quiet (ret_x _) => apply quiet_ret_x
  | |- quiet (settle _) => apply quiet_settle
  | |- quiet (hasAllele _ _ _) => apply quiet_settle
  | |- quiet (getAlleles _ _) => apply quiet_settle
  | |- quiet (isHomozygous _ _ _) => unfold isHomozygous
  | |- quiet (isHeterozygous _ _ _ _) => unfold isHeterozygous
  | |- quiet (pattern_alleles _ _ _ _) => unfold pattern_alleles
  | |- quiet (run _) => apply quiet_run
  | |- quiet (bind_x _ _) => apply quiet_bind_x; [| intros]
  | |- quiet (if ?b then _ else _) => destruct b
  | |- quiet (match ?x with _ => _ end) => destruct x
  | |- quiet_eff (ret _) => apply quiet_eff_ret
  | |- quiet_eff Math_random => apply quiet_eff_Math_random
  | |- quiet_eff (selectWeightedRandom _) => apply quiet_eff_selectWeightedRandom
  | |- quiet_eff (bind _ _) => apply quiet_eff_bind; [| intros]
  | |- quiet_eff (if ?b then _ else _) => destruct b
  | |- quiet_eff (match ?x with _ => _ end) => destruct x
  end.

Ltac quiet_auto := repeat quiet_step.

Lemma champagne_stage_quiet (g : Genotype) (baseColor : string) (isChestnutBase : bool)
    (cdc pks : string) :
  quiet (champagne_stage g baseColor isChestnutBase cdc pks).
Proof.
  unfold champagne_stage.
  apply quiet_bind_x; [quiet_auto |]. intros champagne.
  destruct champagne; [| quiet_auto].
  apply quiet_bind_x; [quiet_auto |]. intros isSingleCream.
  apply quiet_bind_x; [quiet_auto |]. intros isDoubleCream.
  apply quiet_bind_x; [quiet_auto |]. intros isDunActive.
  destruct isSingleCream, isDoubleCream, isDunActive; cbn [negb andb]; quiet_auto.
Qed.

Lemma display_color_quiet (g : Genotype) (profile : option BreedProfile) (age : Q) :
  quiet (display_color g profile age).
Proof.
  unfold display_color, dilutions, base_coat, mushroom_stage, cream_stage, dun_stage,
    silver_stage, modifiers_stage, roan_stage, patterns_and_assembly, white_stage,
    patterns_stage, getDominantWhiteAlleles, getSplashWhiteAlleles, getEdenWhiteAlleles,
    leopard_stage, gray_stage, shade_stage, varnish_or_blanket.
  repeat first [apply champagne_stage_quiet | quiet_step].
Qed.

Lemma markings_stage_quiet (profile : option BreedProfile) (markings : Markings) :
  quiet_eff (markings_stage profile markings).
Proof.
  unfold markings_stage, leg_markings, mark_leg, select_or_none. quiet_auto.
Qed.

(** X11.  Whatever [determinePhenotype] returns, the only lines it has
    written with [console.error] or [console.warn] are errors of
    [selectWeightedRandom] on invalid weighted items: the warning of an
    unhandled champagne interaction is never written, the branch that
    writes it cannot be reached. *)
Theorem determinePhenotype_console :
  forall (g : Genotype) (profile : option BreedProfile) (age : Q) (w w' : World)
         (r : PhenotypeResult),
    determinePhenotype (Some g) profile age w = Returned (r, w') ->
    only_invalid_items_logged w w'
    /\ (In Warn_UnhandledChampagne (console w') -> In Warn_UnhandledChampagne (console w)).
Proof.
  intros g profile age w w' r H.
  assert (L : only_invalid_items_logged w w').
  { apply determinePhenotype_result in H. destruct H as [markings [w1 [E [_ ->]]]].
    eapply logged_trans; [eapply display_color_quiet; eassumption |].
    apply markings_stage_quiet. }
  split; [exact L |].
  destruct L as [extra [E Hx]]. rewrite E. intros Hin.
  apply in_app_or in Hin. destruct Hin as [Hin | Hin]; [exact Hin |].
  apply Hx in Hin. discriminate Hin.
Qed.

Lemma determinePhenotype_console_witness :
  only_invalid_items_logged (constant_world draw_of_half)
    (MkWorld (fun _ => draw_of_half) 0 [])
  /\ (In Warn_UnhandledChampagne (console (MkWorld (fun _ => draw_of_half) 0 [])) ->
      In Warn_UnhandledChampagne (console (constant_world draw_of_half))).
Proof.
  eapply (determinePhenotype_console gold_champagne_genotype None 0).
  vm_compute. reflexivity.
Defined.

(** ** [determinePhenotype]: shade and markings *)

(** X12.  What a missing bias defaults to.  Without [shade_bias] (or
    without a profile) the shade of the result is ['standard']; without a
    [face] table in [marking_bias] the face marking is ['none']; without
    [marking_bias] all four legs are ['none']. *)
Theorem determinePhenotype_without_bias :
  forall (g : Genotype) (profile : option BreedProfile) (age : Q) (w w' : World)
         (r : PhenotypeResult),
    determinePhenotype (Some g) profile age w = Returned (r, w') ->
    (shade_bias_of profile = None -> determined_shade r = "standard")
    /\ (face_bias_of profile = None -> marking_face (phenotypic_markings r) = "none")
    /\ (marking_bias_of profile = None ->
        marking_legs (phenotypic_markings r) = unmarked_legs).
Proof.
  intros g profile age w w' r H.
  apply determinePhenotype_result in H. destruct H as [markings [w1 [E [-> _]]]].
  apply display_color_result in E.
  destruct E as [_ [_ [[baseColor [pks [w0 S]]] [F L]]]].
  split; [| split].
  - intros N. rewrite S. unfold shade_stage, shade_bias_of in *.
    destruct profile as [p |]; [rewrite N |]; reflexivity.
  - intros N. unfold markings_stage, face_bias_of, marking_bias_of in *.
    destruct profile as [p |]; [| exact F].
    destruct (marking_bias p) as [mb |]; [| exact F].
    rewrite N. exact F.
  - intros N. unfold markings_stage, marking_bias_of in *.
    destruct profile as [p |]; [rewrite N |]; exact L.
Qed.

Lemma determinePhenotype_without_bias_witness :
  (shade_bias_of None = None -> "standard" = "standard")
  /\ (face_bias_of None = None -> "none" = "none")
  /\ (marking_bias_of None = None -> unmarked_legs = unmarked_legs).
Proof.
  apply (determinePhenotype_without_bias sooty_bay_genotype None 0
           (constant_world draw_of_half) (constant_world draw_of_half)
           {| final_display_color := "Sooty Bay";
              phenotypic_markings := initial_markings;
              determined_shade := "standard" |}).
  vm_compute. reflexivity.
Defined.

(** One leg: the count goes up by one exactly when the leg is marked,
    and only from a count below the maximum. *)
Lemma mark_leg_count (lsp : obj wval) (probability : Q) (m n : nat) (w : World) :
  (n <= m)%nat ->
  let r := fst (mark_leg lsp probability (inject_Z (Z.of_nat m)) n w) in
  (fst r <= m)%nat
  /\ fst r = (n + if String.eqb (snd r) "none" then 0 else 1)%nat.
Proof.
  intros Hn. unfold mark_leg.
  destruct (Qltb (inject_Z (Z.of_nat n)) (inject_Z (Z.of_nat m))) eqn:C.
  - apply Qltb_lt in C. rewrite <- Zlt_Qlt in C.
    unfold bind. cbn [fst snd Math_random].
    destruct (Qltb _ probability); cbn [fst snd ret].
    + destruct (fst (select_or_none lsp _) =? "none"); cbn [fst snd]; lia.
    + cbn. lia.
  - cbn. lia.
Qed.

Lemma mark_leg_never (lsp : obj wval) (probability maxLegs : Q) (n : nat) (w : World) :
  probability <= 0 -> fst (mark_leg lsp probability maxLegs n w) = (n, "none").
Proof.
  intros Hp. unfold mark_leg. destruct (Qltb _ maxLegs); [| reflexivity].
  unfold bind. cbn [fst snd Math_random].
  assert (C : Qltb (draw_val (random_source w (random_next w))) probability = false).
  { apply Qltb_ge. destruct (draw_bounds (random_source w (random_next w))) as [H0 _].
    now apply Qle_trans with 0. }
  now rewrite C.
Qed.

Lemma leg_markings_bound (mb : MarkingBias) (m : nat) (w : World) :
  max_legs_marked mb = Some (inject_Z (Z.of_nat m)) ->
  (marked_legs (fst (leg_markings mb unmarked_legs w)) <= m)%nat.
Proof.
  intros Hm. unfold leg_markings. rewrite Hm.
  destruct (leg_specific_probabilities mb) as [lsp |]; [| cbn; lia].
  destruct (legs_general_probability mb) as [probability |]; [| cbn; lia].
  destruct (keys lsp); [cbn; lia |].
  unfold bind.
  set (maxLegs := inject_Z (Z.of_nat m)).
  set (r1 := mark_leg lsp probability maxLegs 0 w).
  pose proof (mark_leg_count lsp probability m 0 w ltac:(lia)) as [B1 C1].
  fold maxLegs r1 in B1, C1. destruct (fst r1) as [n1 lf] eqn:E1. cbn [fst snd] in *.
  set (r2 := mark_leg lsp probability maxLegs n1 (snd r1)).
  pose proof (mark_leg_count lsp probability m n1 (snd r1) B1) as [B2 C2].
  fold maxLegs r2 in B2, C2. destruct (fst r2) as [n2 rf] eqn:E2. cbn [fst snd] in *.
  set (r3 := mark_leg lsp probability maxLegs n2 (snd r2)).
  pose proof (mark_leg_count lsp probability m n2 (snd r2) B2) as [B3 C3].
  fold maxLegs r3 in B3, C3. destruct (fst r3) as [n3 lh] eqn:E3. cbn [fst snd] in *.
  set (r4 := mark_leg lsp probability maxLegs n3 (snd r3)).
  pose proof (mark_leg_count lsp probability m n3 (snd r3) B3) as [B4 C4].
  fold maxLegs r4 in B4, C4. destruct (fst r4) as [n4 rh] eqn:E4. cbn [fst snd] in *.
  unfold marked_legs. cbn [LF RF LH RH filter fst ret].
  destruct (lf =? "none"), (rf =? "none"), (lh =? "none"), (rh =? "none");
    cbn [negb length]; lia.
Qed.

Lemma leg_markings_never (mb : MarkingBias) (probability : Q) (w : World) :
  legs_general_probability mb = Some probability -> probability <= 0 ->
  fst (leg_markings mb unmarked_legs w) = unmarked_legs.
Proof.
  intros Hp Hle. unfold leg_markings. rewrite Hp.
  destruct (leg_specific_probabilities mb) as [lsp |]; [| reflexivity].
  destruct (keys lsp); [reflexivity |].
  unfold bind. repeat (rewrite mark_leg_never by exact Hle; cbn [fst snd]).
  reflexivity.
Qed.

(** X13.  Leg markings respect the profile's bounds.  When
    [max_legs_marked] is the natural number [m], at most [m] of the four
    legs get a marking other than ['none']; when
    [legs_general_probability] is zero or negative, no leg is marked. *)
Theorem determinePhenotype_leg_markings :
  forall (g : Genotype) (p : BreedProfile) (mb : MarkingBias) (age : Q) (w w' : World)
         (r : PhenotypeResult),
    marking_bias p = Some mb ->
    determinePhenotype (Some g) (Some p) age w = Returned (r, w') ->
    (forall m : nat,
        max_legs_marked mb = Some (inject_Z (Z.of_nat m)) ->
        (marked_legs (marking_legs (phenotypic_markings r)) <= m)%nat)
    /\ (forall probability,
           legs_general_probability mb = Some probability -> probability <= 0 ->
           marking_legs (phenotypic_markings r) = unmarked_legs).
Proof.
  intros g p mb age w w' r Hmb H.
  apply determinePhenotype_result in H. destruct H as [markings [w1 [E [-> _]]]].
  apply display_color_result in E. destruct E as [_ [_ [_ [_ L]]]].
  unfold markings_stage. rewrite Hmb. unfold bind. cbn [fst snd ret marking_legs].
  rewrite L. split.
  - intros m Hm. now apply leg_markings_bound.
  - intros probability Hp Hle. eapply leg_markings_never; eassumption.
Qed.

Lemma determinePhenotype_leg_markings_witness :
  (forall m : nat,
      max_legs_marked two_socks_bias = Some (inject_Z (Z.of_nat m)) ->
      (marked_legs {| LF := "sock"; RF := "sock"; LH := "none"; RH := "none" |} <= m)%nat)
  /\ (forall probability,
         legs_general_probability two_socks_bias = Some probability -> probability <= 0 ->
         {| LF := "sock"; RF := "sock"; LH := "none"; RH := "none" |} = unmarked_legs).
Proof.
  eapply (determinePhenotype_leg_markings sooty_bay_genotype two_socks_profile
            two_socks_bias 0 (constant_world draw_of_half) _
           {| final_display_color := "Sooty Bay";
              phenotypic_markings :=
                {| marking_face := "star";
                   marking_legs := {| LF := "sock"; RF := "sock"; LH := "none"; RH := "none" |};
                   mottling := false; striping := false; bloody_shoulder := false |};
              determined_shade := "standard" |}).
  - reflexivity.
  - vm_compute. reflexivity.
Defined.

(** ** [determinePhenotype]: what the result does not depend on *)

Lemma bind_x_ext {A B} (m m' : Exec A) (f f' : A -> Exec B) (w : World) :
  m w = m' w -> (forall a w', f a w' = f' a w') -> bind_x m f w = bind_x m' f' w.
Proof.
  intros Hm Hf. unfold bind_x. rewrite Hm.
  destruct (m' w) as [[a w'] | e]; [apply Hf | reflexivity].
Qed.

Lemma bind_x_returned {A B} (m : Exec A) (f : A -> Exec B) (w w' : World) (a : A) :
  m w = Returned (a, w') -> bind_x m f w = f a w'.
Proof. intros H. unfold bind_x. now rewrite H. Qed.

(** Replacing [g] by a genotype that agrees with it at the keys read. *)
Ltac agree_rewrite g agree N :=
  repeat match goal with
    | |- context [lookup g ?k] => rewrite (agree k) by (apply N; cbn [In]; tauto)
    end.

Ltac agree_stage g agree N :=
  unfold pattern_alleles, isHeterozygous, isHomozygous;
  unfold getAlleles, hasAllele, field_is, flag_true;
  agree_rewrite g agree N; reflexivity.

Lemma base_coat_chestnut (g : Genotype) (w : World) :
  field_is g "E_Extension" "e/e" = true ->
  base_coat g w = Returned (("Chestnut", true), w).
Proof.
  unfold field_is, base_coat, isHomozygous, getAlleles, bind_x, settle, string_method.
  destruct (lookup g "E_Extension") as [[s | b] |]; try discriminate.
  intros E. apply String.eqb_eq in E. subst s. reflexivity.
Qed.

Lemma silver_stage_on_chestnut (g : Genotype) (base cdc pks : string) (w : World) :
  lookup g "Z_Silver" <> Some (GBool true) ->
  silver_stage g base true cdc pks w = Returned ((cdc, pks), w).
Proof.
  intros N. unfold silver_stage, hasAllele, bind_x, settle, string_method.
  destruct (lookup g "Z_Silver") as [[s | [|]] |]; cbn [fst snd negb];
    try rewrite andb_false_r; try reflexivity.
  now contradiction N.
Qed.

(** Two genotypes that agree outside [masked]: a stage that reads none
    of the masked keys does the same on both. *)
Section Agreement.

Variables g g' : Genotype.
Variable masked : list string.
Hypothesis agree : agree_outside masked g g'.

Lemma field_is_agree (gene value : string) :
  ~ In gene masked -> field_is g gene value = field_is g' gene value.
Proof. intros N. unfold field_is. now rewrite (agree gene N). Qed.

Lemma base_coat_agree :
  (forall k, In k ["E_Extension"; "A_Agouti"] -> ~ In k masked) ->
  base_coat g = base_coat g'.
Proof. intros N. unfold base_coat. agree_stage g agree N. Qed.

Lemma mushroom_stage_agree (c : bool) (pks : string) :
  (forall k, In k ["MFSD12_Mushroom"; "PRL_Pearl"; "Cr_Cream"] -> ~ In k masked) ->
  mushroom_stage g c pks = mushroom_stage g' c pks.
Proof. intros N. unfold mushroom_stage. agree_stage g agree N. Qed.

Lemma cream_stage_agree (base cdc pks : string) :
  (forall k, In k ["Cr_Cream"] -> ~ In k masked) ->
  cream_stage g base cdc pks = cream_stage g' base cdc pks.
Proof. intros N. unfold cream_stage. agree_stage g agree N. Qed.

Lemma dun_stage_agree (base cdc pks : string) :
  (forall k, In k ["D_Dun"] -> ~ In k masked) ->
  dun_stage g base cdc pks = dun_stage g' base cdc pks.
Proof. intros N. unfold dun_stage. agree_stage g agree N. Qed.

Lemma champagne_stage_agree (base : string) (c : bool) (cdc pks : string) :
  (forall k, In k ["CH_Champagne"; "Cr_Cream"; "D_Dun"] -> ~ In k masked) ->
  champagne_stage g base c cdc pks = champagne_stage g' base c cdc pks.
Proof. intros N. unfold champagne_stage. agree_stage g agree N. Qed.

Lemma silver_stage_agree (base : string) (c : bool) (cdc pks : string) :
  (forall k, In k ["Z_Silver"] -> ~ In k masked) ->
  silver_stage g base c cdc pks = silver_stage g' base c cdc pks.
Proof. intros N. unfold silver_stage. agree_stage g agree N. Qed.

Lemma pearl_stage_agree (base : string) (handled : bool) (cdc pks : string) :
  (forall k, In k ["PRL_Pearl"; "Cr_Cream"] -> ~ In k masked) ->
  pearl_stage g base handled cdc pks = pearl_stage g' base handled cdc pks.
Proof. intros N. unfold pearl_stage, applyPearlDilution. agree_stage g agree N. Qed.

Lemma modifiers_stage_agree (base : string) (c : bool) (shade cdc pks : string) :
  (forall k, In k ["sooty"; "flaxen"; "pangare"; "Rn_Roan"] -> ~ In k masked) ->
  modifiers_stage g base c shade cdc pks = modifiers_stage g' base c shade cdc pks.
Proof.
  intros N. unfold modifiers_stage, apply_sooty, flaxen_pangare, roan_stage.
  agree_stage g agree N.
Qed.

Lemma patterns_and_assembly_agree (profile : option BreedProfile) (age : Q)
    (base dun shade : string) (parts : list string) (pks : string) :
  (forall k, In k ["W_DominantWhite"; "O_FrameOvero"; "TO_Tobiano"; "SB1_Sabino1";
                   "SW_SplashWhite"; "EDXW"; "LP_LeopardComplex"; "PATN1_Pattern1";
                   "G_Gray"; "rabicano"] -> ~ In k masked) ->
  patterns_and_assembly g profile age base dun shade parts pks
  = patterns_and_assembly g' profile age base dun shade parts pks.
Proof.
  intros N.
  unfold patterns_and_assembly, white_stage, patterns_stage, leopard_stage, gray_stage,
    rabicano_stage, getDominantWhiteAlleles, getSplashWhiteAlleles, getEdenWhiteAlleles.
  agree_stage g agree N.
Qed.

(** Once the dilutions agree, so does all of [determinePhenotype]. *)
Lemma determinePhenotype_after_dilutions (profile : option BreedProfile) (age : Q)
    (w : World) :
  (forall k, In k ["sooty"; "flaxen"; "pangare"; "Rn_Roan"; "W_DominantWhite";
                   "O_FrameOvero"; "TO_Tobiano"; "SB1_Sabino1"; "SW_SplashWhite"; "EDXW";
                   "LP_LeopardComplex"; "PATN1_Pattern1"; "G_Gray"; "rabicano"] ->
             ~ In k masked) ->
  dilutions g w = dilutions g' w ->
  determinePhenotype (Some g) profile age w = determinePhenotype (Some g') profile age w.
Proof.
  intros N D. unfold determinePhenotype.
  apply bind_x_ext; [| reflexivity].
  unfold display_color.
  apply bind_x_ext; [exact D |].
  intros [[[[base c] dun] cdc] pks] w1.
  apply bind_x_ext; [reflexivity |]. intros shade w2.
  apply bind_x_ext.
  { rewrite modifiers_stage_agree; [reflexivity |].
    intros k Hk. apply N. cbn [In] in *. tauto. }
  intros [parts pks1] w3.
  apply bind_x_ext; [| reflexivity].
  rewrite patterns_and_assembly_agree; [reflexivity |].
  intros k Hk. apply N. cbn [In] in *. tauto.
Qed.

End Agreement.

(** Showing that a key read is none of the masked ones. *)
Ltac not_masked :=
  let k := fresh "k" in
  let Hk := fresh "Hk" in
  intros k Hk; cbv [masked_by_chestnut masked_pearl]; cbn [In] in *;
  intuition (subst; discriminate).

(** X14.  A chestnut base hides agouti and silver.  For a genotype that
    is [e/e] at [E_Extension], whatever is stored at [A_Agouti] and
    whatever allele pair is stored at [Z_Silver] has no effect: two such
    genotypes that agree at every other key get the same colour, shade
    and markings, with the same random draws. *)
Theorem determinePhenotype_masked_by_chestnut :
  forall (g g' : Genotype) (profile : option BreedProfile) (age : Q) (w : World),
    field_is g "E_Extension" "e/e" = true ->
    agree_outside masked_by_chestnut g g' ->
    lookup g "Z_Silver" <> Some (GBool true) ->
    lookup g' "Z_Silver" <> Some (GBool true) ->
    determinePhenotype (Some g) profile age w = determinePhenotype (Some g') profile age w.
Proof.
  intros g g' profile age w C A S S'.
  assert (C' : field_is g' "E_Extension" "e/e" = true).
  { rewrite <- (field_is_agree g g' masked_by_chestnut A); [exact C |].
    cbv [masked_by_chestnut]. cbn [In]. intuition discriminate. }
  apply (determinePhenotype_after_dilutions g g' masked_by_chestnut A); [not_masked |].
  unfold dilutions.
  rewrite (bind_x_returned _ _ _ _ _ (base_coat_chestnut g w C)).
  rewrite (bind_x_returned _ _ _ _ _ (base_coat_chestnut g' w C')).
  cbv beta iota.
  apply bind_x_ext;
    [rewrite (mushroom_stage_agree g g' masked_by_chestnut A); [reflexivity | not_masked] |].
  intros [[cdc1 pks1] handled] w1.
  apply bind_x_ext;
    [rewrite (cream_stage_agree g g' masked_by_chestnut A); [reflexivity | not_masked] |].
  intros [cdc2 pks2] w2.
  apply bind_x_ext;
    [rewrite (dun_stage_agree g g' masked_by_chestnut A); [reflexivity | not_masked] |].
  intros [[cdc3 pks3] dun] w3.
  apply bind_x_ext;
    [rewrite (champagne_stage_agree g g' masked_by_chestnut A); [reflexivity | not_masked] |].
  intros [cdc4 pks4] w4.
  apply bind_x_ext;
    [now rewrite (silver_stage_on_chestnut g), (silver_stage_on_chestnut g') |].
  intros [cdc5 pks5] w5.
  rewrite (pearl_stage_agree g g' masked_by_chestnut A); [reflexivity | not_masked].
Qed.

Lemma determinePhenotype_masked_by_chestnut_witness :
  determinePhenotype (Some chestnut_silver_genotype) None 0 (constant_world draw_of_half)
  = determinePhenotype (Some chestnut_plain_genotype) None 0 (constant_world draw_of_half).
Proof.
  apply determinePhenotype_masked_by_chestnut; try reflexivity; try discriminate.
  intros key N. unfold masked_by_chestnut in N. cbn [In] in N.
  unfold chestnut_silver_genotype, chestnut_plain_genotype, lookup.
  cbn [find fst snd option_map].
  repeat match goal with
    | |- context [String.eqb ?a key] =>
        destruct (String.eqb_spec a key) as [<- | ?];
        [cbn; try reflexivity; exfalso; tauto |]
    end.
  reflexivity.
Defined.

Lemma leopard_stage_ageless (g : Genotype) (profile : option BreedProfile) (age age' : Q)
    (allWhite : bool) (parts : list string) (pks : string) (markings : Markings) :
  field_is g "LP_LeopardComplex" "LP/lp" = false ->
  leopard_stage g profile age allWhite parts pks markings
  = leopard_stage g profile age' allWhite parts pks markings.
Proof. intros H. unfold leopard_stage. now rewrite H. Qed.

Lemma gray_stage_ageless (g : Genotype) (profile : option BreedProfile) (age age' : Q)
    (baseColor : string) (allWhite : bool) (parts : list string) (pks : string)
    (markings : Markings) (w : World) :
  (forall s, lookup g "G_Gray" = Some (GStr s) -> JsString.includes s "G" = false) ->
  gray_stage g profile age baseColor allWhite parts pks markings w
  = gray_stage g profile age' baseColor allWhite parts pks markings w.
Proof.
  intros H. unfold gray_stage, hasAllele, bind_x, settle, string_method.
  destruct (lookup g "G_Gray") as [[s | [|]] |]; try reflexivity.
  rewrite (H s eq_refl). now destruct (nonempty s).
Qed.

(** X15.  The age matters only for gray and for the heterozygous
    leopard complex.  When [LP_LeopardComplex] is not ['LP/lp'] and the
    pair at [G_Gray] holds no [G], [determinePhenotype] gives the same
    result, with the same draws, at every age. *)
Theorem determinePhenotype_ageless :
  forall (g : Genotype) (profile : option BreedProfile) (age age' : Q) (w : World),
    field_is g "LP_LeopardComplex" "LP/lp" = false ->
    (forall s, lookup g "G_Gray" = Some (GStr s) -> JsString.includes s "G" = false) ->
    determinePhenotype (Some g) profile age w = determinePhenotype (Some g) profile age' w.
Proof.
  intros g profile age age' w HLP HG.
  unfold determinePhenotype.
  apply bind_x_ext; [| reflexivity].
  unfold display_color.
  apply bind_x_ext; [reflexivity |]. intros [[[[base c] dun] cdc] pks] w1.
  apply bind_x_ext; [reflexivity |]. intros shade w2.
  apply bind_x_ext; [reflexivity |]. intros [parts pks1] w3.
  apply bind_x_ext; [| reflexivity].
  unfold patterns_and_assembly.
  apply bind_x_ext; [reflexivity |]. intros [[parts1 pks2] allWhite] w4.
  apply bind_x_ext; [reflexivity |]. intros parts2 w5.
  apply bind_x_ext; [now rewrite (leopard_stage_ageless g profile age age') |].
  intros [[parts3 pks3] markings3] w6.
  apply bind_x_ext; [now apply gray_stage_ageless | reflexivity].
Qed.

Lemma determinePhenotype_ageless_witness :
  determinePhenotype (Some sooty_bay_genotype) None 2 (constant_world draw_of_half)
  = determinePhenotype (Some sooty_bay_genotype) None 20 (constant_world draw_of_half).
Proof.
  apply determinePhenotype_ageless; [reflexivity |].
  intros s H. discriminate H.
Defined.

(** ** From a generated or inherited genotype to its phenotype *)

Lemma set_string_typed (g : Genotype) (gene s : string) :
  loci_hold_strings g -> loci_hold_strings (set g gene (GStr s)).
Proof.
  intros H key b. rewrite lookup_set.
  destruct (String.eqb gene key); [discriminate | apply H].
Qed.

Lemma set_modifier_typed (g : Genotype) (modifier : string) (v : gval) :
  In modifier booleanModifiers -> loci_hold_strings g ->
  loci_hold_strings (set g modifier v).
Proof.
  intros Hm H key b. rewrite lookup_set.
  destruct (String.eqb modifier key) eqn:E; [| apply H].
  apply String.eqb_eq in E. now subst.
Qed.

Lemma calculateFoalGenetics_typed (sire dam : option Genotype) (p : option BreedProfile)
    (w : World) :
  loci_hold_strings (fst (calculateFoalGenetics sire dam p w)).
Proof.
  assert (E : loci_hold_strings []) by (intros key b H; discriminate H).
  destruct sire as [sire |], dam as [dam |], p as [p |]; try exact E.
  unfold calculateFoalGenetics, bind.
  assert (G : loci_hold_strings
                (fst (for_each (genesToInherit sire dam p) (inherit_gene sire dam p) [] w))).
  { apply for_each_invariant; [| exact E]. intros acc gene w' H.
    destruct (inherit_gene_cases sire dam p acc gene w') as [-> | [fp [-> _]]];
      [exact H | now apply set_string_typed]. }
  destruct (boolean_modifiers_prevalence p) as [bmp |]; [| exact G].
  apply for_each_invariant; [| exact G]. intros acc modifier w' H.
  destruct (inherit_modifier_cases sire dam bmp acc modifier w') as [-> | [Hm [v [-> _]]]];
    [exact H | now apply set_modifier_typed].
Qed.

(** X16.  A foal can always be given a phenotype: for every pair of
    parents and every profile (also missing ones) and all random draws,
    [determinePhenotype] returns on the genotype that
    [calculateFoalGenetics] returns, it does not throw. *)
Theorem determinePhenotype_of_foal :
  forall (sire dam : option Genotype) (p profile : option BreedProfile) (age : Q)
         (w w2 : World),
    exists r w',
      determinePhenotype (Some (fst (calculateFoalGenetics sire dam p w))) profile age w2
      = Returned (r, w').
Proof.
  intros sire dam p profile age w w2.
  destruct (determinePhenotype_returns _ (calculateFoalGenetics_typed sire dam p w)
              profile age w2) as [r [w' [E _]]].
  now exists r, w'.
Qed.

Lemma generate_gene_typed (p : BreedProfile) (aw : obj (obj wval)) (acc : Genotype)
    (gene : string) (w : World) :
  loci_hold_strings acc -> loci_hold_strings (fst (generate_gene p aw acc gene w)).
Proof.
  intros H. unfold generate_gene, bind.
  destruct (fst (selectWeightedRandom (lookup aw gene) w)) as [chosen |]; [| exact H].
  destruct (nonempty chosen); [| exact H].
  destruct (disallowed_includes p gene chosen); [exact H |].
  now apply set_string_typed.
Qed.

Lemma generate_modifier_typed (bmp : obj wval) (acc : Genotype) (modifier : string)
    (w : World) :
  In modifier booleanModifiers -> loci_hold_strings acc ->
  loci_hold_strings (fst (generate_modifier bmp acc modifier w)).
Proof.
  intros Hm H. unfold generate_modifier, bind.
  destruct (lookup bmp modifier) as [[q |] |]; cbn [fst snd ret emit];
    try (now apply set_modifier_typed).
  destruct (Qle_bool 0 q && Qle_bool q 1); cbn [fst snd ret emit Math_random];
    now apply set_modifier_typed.
Qed.

(** X17.  A generated horse can be given a phenotype: when the profile
    lists no boolean modifier other than sooty, flaxen, pangare and
    rabicano, [determinePhenotype] returns on the genotype that
    [generateStoreHorseGenetics] returns, for all random draws. *)
Theorem determinePhenotype_of_generated :
  forall (p : BreedProfile) (profile : option BreedProfile) (age : Q) (w w2 : World),
    only_known_modifiers p ->
    exists r w',
      determinePhenotype (Some (fst (generateStoreHorseGenetics (Some p) w))) profile age w2
      = Returned (r, w').
Proof.
  intros p profile age w w2 Hp.
  assert (T : loci_hold_strings (fst (generateStoreHorseGenetics (Some p) w))).
  { unfold generateStoreHorseGenetics, bind.
    assert (G : loci_hold_strings (fst (generate_genes p [] w))).
    { unfold generate_genes. destruct (allele_weights p) as [aw |].
      - apply for_each_invariant; [| intros key b H; discriminate H].
        intros acc gene w' H. now apply generate_gene_typed.
      - intros key b H. discriminate H. }
    unfold generate_modifiers.
    destruct (boolean_modifiers_prevalence p) as [bmp |] eqn:B; [| exact G].
    apply for_each_invariant_in; [| exact G].
    intros acc modifier w' Hin H. apply generate_modifier_typed; [| exact H].
    now apply (Hp bmp). }
  destruct (determinePhenotype_returns _ T profile age w2) as [r [w' [E _]]].
  now exists r, w'.
Qed.

Lemma determinePhenotype_of_generated_witness :
  exists r w',
    determinePhenotype
      (Some (fst (generateStoreHorseGenetics (Some (sooty_profile (WNum 1)))
                    (constant_world draw_of_half))))
      None 0 (constant_world draw_of_zero)
    = Returned (r, w').
Proof.
  apply determinePhenotype_of_generated.
  intros bmp modifier [= <-] Hin. cbn in Hin. destruct Hin as [<- | []].
  cbn. tauto.
Defined.

(** ** [determinePhenotype]: where shade and markings come from *)

Lemma or_else_selected (table : obj wval) (w : World) (fallback : string) :
  let chosen := fst (selectWeightedRandom (Some table) w) in
  match chosen with
  | Some s => or_else s fallback
  | None => fallback
  end = fallback
  \/ In match chosen with
        | Some s => or_else s fallback
        | None => fallback
        end (keys table).
Proof.
  cbv zeta.
  destruct (selectWeightedRandom_cases table w) as [[_ ->] | [k [-> Hk]]]; [now left |].
  unfold or_else. destruct (nonempty k); [now right | now left].
Qed.

Lemma shade_table_lookup (sb : obj (obj wval)) (baseColor pks : string) (t : obj wval) :
  shade_table sb baseColor pks = Some t -> exists name, lookup sb name = Some t.
Proof.
  unfold shade_table.
  destruct (lookup sb pks) eqn:L1; [intros [= <-]; eauto |].
  destruct (if negb (pks =? baseColor) then lookup sb baseColor else None) eqn:L2.
  - intros [= <-]. destruct (negb (pks =? baseColor)); [eauto | discriminate].
  - destruct (lookup sb (hd "" (JsString.split_space pks))) eqn:L3; [intros [= <-]; eauto |].
    eauto.
Qed.

Lemma shade_stage_origin (profile : option BreedProfile) (baseColor pks : string)
    (w : World) :
  fst (shade_stage profile baseColor pks w) = "standard"
  \/ exists sb name table,
       shade_bias_of profile = Some sb /\ lookup sb name = Some table
       /\ In (fst (shade_stage profile baseColor pks w)) (keys table).
Proof.
  unfold shade_stage, shade_bias_of, bind.
  destruct profile as [p |]; [| now left].
  destruct (shade_bias p) as [sb |]; [| now left].
  destruct (shade_table sb baseColor pks) as [t |] eqn:T; [| now left].
  apply shade_table_lookup in T. destruct T as [name L].
  cbn [fst snd ret].
  destruct (or_else_selected t w "standard") as [E | I]; [now left |].
  right. exists sb, name, t. auto.
Qed.

Lemma select_or_none_origin (table : obj wval) (w : World) :
  fst (select_or_none table w) = "none" \/ In (fst (select_or_none table w)) (keys table).
Proof. unfold select_or_none, bind. cbn [fst snd ret]. apply or_else_selected. Qed.

Lemma mark_leg_origin (lsp : obj wval) (probability maxLegs : Q) (n : nat) (w : World) :
  snd (fst (mark_leg lsp probability maxLegs n w)) = "none"
  \/ In (snd (fst (mark_leg lsp probability maxLegs n w))) (keys lsp).
Proof.
  unfold mark_leg. destruct (Qltb _ maxLegs); [| now left].
  unfold bind. cbn [fst snd Math_random].
  destruct (Qltb _ probability); [| now left].
  cbn [fst snd ret]. apply select_or_none_origin.
Qed.

Lemma leg_markings_origin (mb : MarkingBias) (w : World) (leg : string) :
  let legs := fst (leg_markings mb unmarked_legs w) in
  In leg [LF legs; RF legs; LH legs; RH legs] ->
  leg = "none"
  \/ exists table, leg_specific_probabilities mb = Some table /\ In leg (keys table).
Proof.
  cbv zeta. unfold leg_markings.
  destruct (leg_specific_probabilities mb) as [lsp |];
    [| cbn; intuition congruence].
  destruct (legs_general_probability mb) as [probability |];
    [| cbn; intuition congruence].
  destruct (keys lsp) eqn:K; [cbn; intuition congruence |].
  unfold bind.
  set (maxLegs := match max_legs_marked mb with Some m => m | None => 4 end).
  set (r1 := mark_leg lsp probability maxLegs 0 w).
  pose proof (mark_leg_origin lsp probability maxLegs 0 w) as O1. fold r1 in O1.
  destruct (fst r1) as [n1 lf]. cbn [fst snd] in *.
  set (r2 := mark_leg lsp probability maxLegs n1 (snd r1)).
  pose proof (mark_leg_origin lsp probability maxLegs n1 (snd r1)) as O2. fold r2 in O2.
  destruct (fst r2) as [n2 rf]. cbn [fst snd] in *.
  set (r3 := mark_leg lsp probability maxLegs n2 (snd r2)).
  pose proof (mark_leg_origin lsp probability maxLegs n2 (snd r2)) as O3. fold r3 in O3.
  destruct (fst r3) as [n3 lh]. cbn [fst snd] in *.
  set (r4 := mark_leg lsp probability maxLegs n3 (snd r3)).
  pose proof (mark_leg_origin lsp probability maxLegs n3 (snd r3)) as O4. fold r4 in O4.
  destruct (fst r4) as [n4 rh]. cbn [fst snd ret LF RF LH RH In] in *.
  intros [<- | [<- | [<- | [<- | []]]]];
    match goal with
    | O : ?x = "none" \/ _ |- ?x = "none" \/ _ =>
        destruct O as [O | O]; [now left | right; exists lsp; auto]
    end.
Qed.

(** X18.  Shade and markings come from the profile.  The shade of the
    result is ['standard'] or a key of one of the tables of [shade_bias];
    the face marking is ['none'] or a key of [marking_bias.face]; every
    leg marking is ['none'] or a key of
    [marking_bias.leg_specific_probabilities]. *)
Theorem determinePhenotype_bias_provenance :
  forall (g : Genotype) (profile : option BreedProfile) (age : Q) (w w' : World)
         (r : PhenotypeResult),
    determinePhenotype (Some g) profile age w = Returned (r, w') ->
    (determined_shade r = "standard"
     \/ exists sb name table,
          shade_bias_of profile = Some sb /\ lookup sb name = Some table
          /\ In (determined_shade r) (keys table))
    /\ (marking_face (phenotypic_markings r) = "none"
        \/ exists table,
             face_bias_of profile = Some table
             /\ In (marking_face (phenotypic_markings r)) (keys table))
    /\ (forall leg,
           In leg [LF (marking_legs (phenotypic_markings r));
                   RF (marking_legs (phenotypic_markings r));
                   LH (marking_legs (phenotypic_markings r));
                   RH (marking_legs (phenotypic_markings r))] ->
           leg = "none"
           \/ exists mb table,
                marking_bias_of profile = Some mb
                /\ leg_specific_probabilities mb = Some table /\ In leg (keys table)).
Proof.
  intros g profile age w w' r H.
  apply determinePhenotype_result in H. destruct H as [markings [w1 [E [-> _]]]].
  apply display_color_result in E.
  destruct E as [_ [_ [[baseColor [pks [w0 S]]] [F L]]]].
  split; [rewrite S; apply shade_stage_origin |].
  unfold markings_stage, face_bias_of, marking_bias_of.
  destruct profile as [p |];
    [| cbn [fst ret]; split; [now left | rewrite L; cbn; intuition congruence]].
  destruct (marking_bias p) as [mb |];
    [| cbn [fst ret]; split; [now left | rewrite L; cbn; intuition congruence]].
  unfold bind. cbn [fst snd ret marking_face marking_legs]. split.
  - destruct (face mb) as [table |]; [| now left].
    destruct (select_or_none_origin table w1) as [O | O]; [now left |].
    right. exists table. auto.
  - rewrite L. intros leg Hin. apply leg_markings_origin in Hin.
    destruct Hin as [-> | [table [T I]]]; [now left |].
    right. exists mb, table. auto.
Qed.

Lemma determinePhenotype_bias_provenance_witness :
  exists r w',
    determinePhenotype (Some sooty_bay_genotype) (Some two_socks_profile) 0
      (constant_world draw_of_half) = Returned (r, w')
    /\ (marking_face (phenotypic_markings r) = "none"
        \/ exists table,
             face_bias_of (Some two_socks_profile) = Some table
             /\ In (marking_face (phenotypic_markings r)) (keys table)).
Proof.
  eexists. eexists. split; [vm_compute; reflexivity |].
  eapply (determinePhenotype_bias_provenance sooty_bay_genotype (Some two_socks_profile) 0
            (constant_world draw_of_half)).
  vm_compute. reflexivity.
Defined.

(** ** [determinePhenotype]: the format of the display colour *)

Lemma double_space_prefix (c : ascii) (t : string) :
  prefix "  " (String c t) = Ascii.eqb c " " && starts_with_space t.
Proof.
  cbn [prefix]. destruct (Ascii.ascii_dec " " c) as [<- | N].
  - cbn [andb Ascii.eqb Bool.eqb]. destruct t as [| c' t']; [reflexivity |].
    cbn [starts_with_space prefix]. destruct (Ascii.ascii_dec " " c') as [<- | N'].
    + now destruct t'.
    + symmetry. apply Ascii.eqb_neq. congruence.
  - replace (Ascii.eqb c " ") with false; [reflexivity |].
    symmetry. apply Ascii.eqb_neq. congruence.
Qed.

Lemma includes_double_space (c : ascii) (t : string) :
  JsString.includes (String c t) "  "
  = (Ascii.eqb c " " && starts_with_space t) || JsString.includes t "  ".
Proof.
  rewrite includes_unfold, double_space_prefix.
  now destruct (Ascii.eqb c " " && starts_with_space t).
Qed.

(** After [replace(/  +/g, ' ')] no two spaces are adjacent. *)
Lemma squeeze_no_double_space (inrun : bool) (s : string) :
  let out := JsString.squeeze (fun c => Ascii.eqb c " ") inrun s in
  JsString.includes out "  " = false
  /\ (inrun = true -> starts_with_space out = false).
Proof.
  cbv zeta. revert inrun. induction s as [| c s' IH]; intros inrun.
  - split; reflexivity.
  - cbn [JsString.squeeze]. destruct (Ascii.eqb c " ") eqn:E.
    + destruct (IH true) as [I S]. destruct inrun.
      * split; [exact I | intros _; now apply S].
      * split; [| discriminate].
        rewrite includes_double_space, I, (S eq_refl). reflexivity.
    + destruct (IH false) as [I _]. split.
      * rewrite includes_double_space, E, I. reflexivity.
      * intros _. cbn [starts_with_space]. exact E.
Qed.

Lemma trimStart_includes (s x : string) :
  JsString.includes (JsString.trimStart s) x = true -> JsString.includes s x = true.
Proof.
  induction s as [| c s' IH]; [trivial |].
  cbn [JsString.trimStart]. destruct (JsString.is_space c); [| trivial].
  intros H. rewrite includes_unfold, (IH H). now destruct (prefix x (String c s')).
Qed.

Lemma trimEnd_prefix (s x : string) :
  prefix x (JsString.trimEnd s) = true -> prefix x s = true.
Proof.
  revert x. induction s as [| c s' IH]; intros x; [trivial |].
  cbn [JsString.trimEnd].
  destruct (JsString.is_space c && (JsString.trimEnd s' =? "")).
  - destruct x; [reflexivity | discriminate].
  - destruct x as [| a x']; [reflexivity |]. cbn [prefix].
    destruct (Ascii.ascii_dec a c); [apply IH | trivial].
Qed.

Lemma trimEnd_double_space (s : string) :
  JsString.includes s "  " = false -> JsString.includes (JsString.trimEnd s) "  " = false.
Proof.
  induction s as [| c s' IH]; [trivial |].
  rewrite includes_unfold. destruct (prefix "  " (String c s')) eqn:P; [discriminate |].
  intros H. specialize (IH H). cbn [JsString.trimEnd].
  destruct (JsString.is_space c && (JsString.trimEnd s' =? "")); [reflexivity |].
  rewrite includes_unfold, IH.
  destruct (prefix "  " (String c (JsString.trimEnd s'))) eqn:P'; [| reflexivity].
  change (String c (JsString.trimEnd s')) with (String c (JsString.trimEnd s')) in P'.
  assert (P2 : prefix "  " (String c s') = true).
  { cbn [prefix] in P' |- *. destruct (Ascii.ascii_dec " " c); [| discriminate].
    now apply trimEnd_prefix. }
  congruence.
Qed.

Lemma trimEnd_idempotent (s : string) :
  JsString.trimEnd (JsString.trimEnd s) = JsString.trimEnd s.
Proof.
  induction s as [| c s' IH]; [reflexivity |].
  cbn [JsString.trimEnd].
  destruct (JsString.is_space c && (JsString.trimEnd s' =? "")) eqn:E; [reflexivity |].
  cbn [JsString.trimEnd]. now rewrite IH, E.
Qed.

Lemma trimStart_settled (s : string) :
  JsString.trimStart (JsString.trimEnd (JsString.trimStart s))
  = JsString.trimEnd (JsString.trimStart s).
Proof.
  induction s as [| c s' IH]; [reflexivity |].
  cbn [JsString.trimStart]. destruct (JsString.is_space c) eqn:E; [exact IH |].
  cbn [JsString.trimEnd]. rewrite E. cbn [andb JsString.trimStart]. now rewrite E.
Qed.

Lemma trim_idempotent (s : string) : JsString.trim (JsString.trim s) = JsString.trim s.
Proof.
  unfold JsString.trim. now rewrite trimStart_settled, trimEnd_idempotent.
Qed.

Lemma trim_double_space (s : string) :
  JsString.includes s "  " = false -> JsString.includes (JsString.trim s) "  " = false.
Proof.
  intros H. unfold JsString.trim. apply trimEnd_double_space.
  destruct (JsString.includes (JsString.trimStart s) "  ") eqn:E; [| reflexivity].
  apply trimStart_includes in E. congruence.
Qed.

Lemma assemble_format (baseColor : string) (parts : list string) :
  In baseColor ["Chestnut"; "Bay"; "Black"] ->
  JsString.trim (assemble baseColor parts) = assemble baseColor parts
  /\ JsString.includes (assemble baseColor parts) "  " = false.
Proof.
  intros Hb. unfold assemble.
  destruct (negb (nonempty (JsString.trim (JsString.trim _)))).
  - cbn [In] in Hb. destruct Hb as [<- | [<- | [<- | []]]]; split; reflexivity.
  - split; [apply trim_idempotent |].
    apply trim_double_space. apply (squeeze_no_double_space false).
Qed.

Lemma base_coat_result (g : Genotype) (w w' : World) (r : string * bool) :
  base_coat g w = Returned (r, w') -> In (fst r) ["Chestnut"; "Bay"; "Black"].
Proof.
  unfold base_coat. intros H. exec_inv H as chestnut w1 E1. destruct chestnut.
  - exec_done H. cbn. tauto.
  - exec_inv H as agouti w2 E2. exec_done H. destruct agouti; cbn; tauto.
Qed.

(** X20.  The display colour is well formed: whatever
    [determinePhenotype] returns, [final_display_color] has no white
    space at either end ([trim] leaves it as it is) and nowhere two
    spaces in a row. *)
Theorem determinePhenotype_colour_format :
  forall (g : Genotype) (profile : option BreedProfile) (age : Q) (w w' : World)
         (r : PhenotypeResult),
    determinePhenotype (Some g) profile age w = Returned (r, w') ->
    JsString.trim (final_display_color r) = final_display_color r
    /\ JsString.includes (final_display_color r) "  " = false.
Proof.
  intros g profile age w w' r H.
  apply determinePhenotype_result in H. destruct H as [markings [w1 [H _]]].
  unfold display_color in H.
  apply bind_x_inv in H.
  destruct H as ([[[[baseColor isChestnutBase] dun] cdc] pks] & wd & D & H).
  exec_inv H as shade ws _.
  exec_inv H as [parts pks1] wm _.
  exec_inv H as [color markings'] wp P.
  exec_done H.
  assert (B : In baseColor ["Chestnut"; "Bay"; "Black"]).
  { unfold dilutions in D.
    exec_inv D as [b c] w2 B.
    apply base_coat_result in B. cbn [fst] in B.
    exec_inv D as [[cdc1 pksa] handled] w3 _.
    exec_inv D as [cdc2 pksb] w4 _.
    exec_inv D as [[cdc3 pksc] dun'] w5 _.
    exec_inv D as [cdc4 pksd] w6 _.
    exec_inv D as [cdc5 pkse] w7 _.
    destruct (pearl_stage g b handled cdc5 pkse) as [cdc6 pksf].
    exec_done D. exact B. }
  unfold patterns_and_assembly in P.
  exec_inv P as [[parts1 pks2] allWhite] w8 _.
  exec_inv P as parts2 w9 _.
  exec_inv P as [[parts3 pks3] markings3] w10 _.
  exec_inv P as [[parts4 pks4] markings4] w11 _.
  exec_done P.
  match goal with E : final_display_color r = _ |- _ => rewrite E end.
  now apply assemble_format.
Qed.

Lemma determinePhenotype_colour_format_witness :
  JsString.trim "Sooty Bay" = "Sooty Bay" /\ JsString.includes "Sooty Bay" "  " = false.
Proof.
  apply (determinePhenotype_colour_format sooty_bay_genotype None 0
           (constant_world draw_of_half) (constant_world draw_of_half)
           {| final_display_color := "Sooty Bay";
              phenotypic_markings := initial_markings;
              determined_shade := "standard" |}).
  vm_compute. reflexivity.
Defined.

(** ** [calculateFoalGenetics]: no locus is dropped silently *)

Lemma for_each_world_invariant {A X} (P : A -> World -> Prop) (body : A -> X -> Eff A)
    (xs : list X) :
  (forall acc x w, P acc w -> P (fst (body acc x w)) (snd (body acc x w))) ->
  forall acc w, P acc w -> P (fst (for_each xs body acc w)) (snd (for_each xs body acc w)).
Proof.
  intros Hbody. induction xs as [| x rest IH]; intros acc w H.
  - exact H.
  - simpl. unfold bind. apply IH. now apply Hbody.
Qed.

(** A loop that keeps [I], establishes [P] when it visits [x] and keeps
    [P] afterwards, ends with [P] once [x] has been visited. *)
Lemma for_each_world_establishes {A} (I P : A -> World -> Prop)
    (body : A -> string -> Eff A) (x : string) (xs : list string) :
  (forall acc y w, I acc w -> I (fst (body acc y w)) (snd (body acc y w))) ->
  (forall acc w, I acc w -> P (fst (body acc x w)) (snd (body acc x w))) ->
  (forall acc y w, I acc w -> P acc w -> P (fst (body acc y w)) (snd (body acc y w))) ->
  In x xs ->
  forall acc w, I acc w ->
                P (fst (for_each xs body acc w)) (snd (for_each xs body acc w)).
Proof.
  intros HI Hx Hkeep. induction xs as [| y rest IH]; intros Hin acc w Hacc; [contradiction |].
  simpl. unfold bind. destruct (string_dec y x) as [-> | N].
  - apply (for_each_world_invariant (fun acc w => I acc w /\ P acc w)).
    + intros acc' y w' [H1 H2]. split; [now apply HI | now apply Hkeep].
    + split; [now apply HI | now apply Hx].
  - apply IH; [| now apply HI]. destruct Hin as [E | Hin]; [congruence | exact Hin].
Qed.

Lemma getParentAllele_console (v : option gval) (w : World) :
  console (snd (getParentAllele v w)) = console w.
Proof.
  unfold getParentAllele. destruct v as [[s | b] |]; try reflexivity.
  now destruct (nonempty s && JsString.includes s "/").
Qed.

Lemma sample_attempts_console (n : nat) (p : BreedProfile) (gene : string)
    (sirePair damPair : option gval) (w : World) :
  console (snd (sample_attempts n p gene sirePair damPair w)) = console w.
Proof.
  revert w. induction n as [| k IH]; intros w; [reflexivity |].
  cbn [sample_attempts]. unfold bind.
  pose proof (getParentAllele_console sirePair w) as C1.
  pose proof (getParentAllele_console damPair (snd (getParentAllele sirePair w))) as C2.
  assert (C : console (snd (getParentAllele damPair (snd (getParentAllele sirePair w))))
              = console w) by congruence.
  destruct (fst (getParentAllele sirePair w)); [| exact C].
  destruct (fst (getParentAllele damPair _)); [| exact C].
  destruct (combineAlleles _ _) as [r |]; [| exact C].
  destruct (negb (nonempty r)); [exact C |].
  destruct (match allowed_alleles p with Some _ => _ | None => false end);
    [now rewrite IH |].
  destruct (JsString.mem r _); [now rewrite IH | exact C].
Qed.

Lemma weights_fallback_console (p : BreedProfile) (gene : string) (w : World) :
  exists extra, console (snd (weights_fallback p gene w)) = console w ++ extra.
Proof.
  assert (N : exists extra, console w = console w ++ extra)
    by (exists []; now rewrite app_nil_r).
  unfold weights_fallback, bind.
  destruct (allele_weights p) as [aw |]; [| exact N].
  destruct (lookup aw gene) as [table |]; [| exact N].
  destruct (selectWeightedRandom_console (Some table) w) as [extra [E _]].
  exists extra.
  destruct (fst (selectWeightedRandom (Some table) w)) as [fp |]; [| exact E].
  now destruct (nonempty fp && _).
Qed.

(** One round of the loop over [genesToInherit]: the console only grows,
    and the round assigns a pair to the locus or reports it. *)
Lemma inherit_gene_round (sire dam : Genotype) (p : BreedProfile)
    (foal : Genotype) (gene : string) (w : World) :
  exists extra,
    console (snd (inherit_gene sire dam p foal gene w)) = console w ++ extra
    /\ ((exists fp, fst (inherit_gene sire dam p foal gene w) = set foal gene (GStr fp))
        \/ (fst (inherit_gene sire dam p foal gene w) = foal
            /\ In (Warn_NoValidPair gene) extra)).
Proof.
  unfold inherit_gene, bind.
  set (sampled := (if truthy (lookup sire gene) && truthy (lookup dam gene)
                   then sample_attempts MAX_ATTEMPTS p gene (lookup sire gene) (lookup dam gene)
                   else ret None) w).
  assert (C : console (snd sampled) = console w).
  { subst sampled. destruct (truthy (lookup sire gene) && truthy (lookup dam gene));
      [apply sample_attempts_console | reflexivity]. }
  destruct (fst sampled) as [fp |].
  - exists []. rewrite app_nil_r. split; [exact C | left; now exists fp].
  - destruct (weights_fallback_console p gene (snd sampled)) as [extra E].
    rewrite C in E.
    assert (W : exists extra',
               console (snd ((emit (Warn_NoValidPair gene) ;; ret foal)
                               (snd (weights_fallback p gene (snd sampled)))))
               = console w ++ extra'
               /\ In (Warn_NoValidPair gene) extra').
    { exists (extra ++ [Warn_NoValidPair gene]). unfold bind. cbn [fst snd ret emit console].
      rewrite E, <- app_assoc. split; [reflexivity |].
      apply in_or_app. right. now left. }
    destruct W as [extra' [E' I']].
    destruct (fst (weights_fallback p gene (snd sampled))) as [fp |].
    + exists extra. split; [exact E | left; now exists fp].
    + destruct (recessive_fallback (listed (allowed_alleles p) gene)) as [fp |];
        [| exists extra'; split; [exact E' | right; split; [reflexivity | exact I']]].
      destruct (nonempty fp && negb (JsString.mem fp _));
        [exists extra; split; [exact E | left; now exists fp]
        | exists extra'; split; [exact E' | right; split; [reflexivity | exact I']]].
Qed.

Lemma inherit_modifier_console (sire dam : Genotype) (bmp : obj wval)
    (foal : Genotype) (modifier : string) (w : World) :
  console (snd (inherit_modifier sire dam bmp foal modifier w)) = console w.
Proof.
  unfold inherit_modifier.
  destruct (negb (JsString.mem modifier booleanModifiers)); [reflexivity |].
  unfold parent_or_prevalence, bind.
  destruct (lookup sire modifier) as [[s | [|]] |];
    destruct (lookup dam modifier) as [[s' | [|]] |];
    cbn [fst snd ret Math_random console]; try reflexivity;
    try (destruct (Qltb _ (1 # 2)); reflexivity).
  destruct (lookup bmp modifier) as [[q |] |]; reflexivity.
Qed.

Lemma set_keeps_defined {V} (o : obj V) (k k' : string) (v : V) :
  (exists x, lookup o k' = Some x) -> exists x, lookup (set o k v) k' = Some x.
Proof.
  intros [x H]. rewrite lookup_set. destruct (String.eqb k k'); eauto.
Qed.

(** X21.  No locus is dropped silently.  When the loci of
    [genesToInherit] have ordinary names (none that [Object.prototype]
    defines), every one of them is in the foal's genotype, or the console
    has a warning that no valid allele pair was found for it. *)
Theorem calculateFoalGenetics_assigned_or_reported :
  forall (sire dam : Genotype) (p : BreedProfile) (w : World) (gene : string),
    ordinary_keys (genesToInherit sire dam p) ->
    In gene (genesToInherit sire dam p) ->
    assigned_or_reported gene w
      (fst (calculateFoalGenetics (Some sire) (Some dam) (Some p) w))
      (snd (calculateFoalGenetics (Some sire) (Some dam) (Some p) w)).
Proof.
  intros sire dam p w gene _ Hin. unfold calculateFoalGenetics, bind.
  set (grown := fun (_ : Genotype) (w' : World) =>
                  exists extra, console w' = console w ++ extra).
  assert (G : assigned_or_reported gene w
                (fst (for_each (genesToInherit sire dam p) (inherit_gene sire dam p) [] w))
                (snd (for_each (genesToInherit sire dam p) (inherit_gene sire dam p) [] w))).
  { apply (for_each_world_establishes grown (assigned_or_reported gene w)
             (inherit_gene sire dam p) gene);
      [| | | exact Hin | exists []; now rewrite app_nil_r].
    - intros acc y w' [extra E].
      destruct (inherit_gene_round sire dam p acc y w') as [extra' [E' _]].
      exists (extra ++ extra'). now rewrite E', E, app_assoc.
    - intros acc w' [extra E].
      destruct (inherit_gene_round sire dam p acc gene w') as [extra' [E' [[fp ->] | [_ I]]]].
      + left. rewrite lookup_set, String.eqb_refl. eauto.
      + right. exists (extra ++ extra'). rewrite E', E, app_assoc. split; [reflexivity |].
        apply in_or_app. now right.
    - intros acc y w' _ [D | [extra [E I]]].
      + left. destruct (inherit_gene_cases sire dam p acc y w') as [-> | [fp [-> _]]];
          [exact D | now apply set_keeps_defined].
      + right. destruct (inherit_gene_round sire dam p acc y w') as [extra' [E' _]].
        exists (extra ++ extra'). rewrite E', E, app_assoc. split; [reflexivity |].
        apply in_or_app. now left. }
  destruct (boolean_modifiers_prevalence p) as [bmp |]; [| exact G].
  apply (for_each_world_invariant (assigned_or_reported gene w)); [| exact G].
  intros acc modifier w' [D | [extra [E I]]].
  - left. destruct (inherit_modifier_cases sire dam bmp acc modifier w')
      as [-> | [_ [v [-> _]]]]; [exact D | now apply set_keeps_defined].
  - right. exists extra. now rewrite inherit_modifier_console.
Qed.

Lemma calculateFoalGenetics_assigned_or_reported_witness :
  assigned_or_reported "KIT" (constant_world draw_of_half)
    (fst (calculateFoalGenetics (Some bay_tobiano_sire) (Some chestnut_dam)
            (Some nothing_allowed_profile) (constant_world draw_of_half)))
    (snd (calculateFoalGenetics (Some bay_tobiano_sire) (Some chestnut_dam)
            (Some nothing_allowed_profile) (constant_world draw_of_half))).
Proof.
  apply calculateFoalGenetics_assigned_or_reported.
  - apply ordinary_keys_check. reflexivity.
  - vm_compute. tauto.
Defined.

(** ** [determinePhenotype]: mottling, striping and the bloody shoulder *)

Lemma hasAllele_true (g : Genotype) (gene allele : string) (w w' : World) :
  hasAllele g gene allele w = Returned (true, w') -> carries g gene allele.
Proof.
  unfold hasAllele, settle, string_method, carries.
  destruct (lookup g gene) as [[s | [|]] |]; try discriminate.
  destruct (nonempty s); [| discriminate]. intros [= H _]. eauto.
Qed.

Lemma leopard_stage_flags (g : Genotype) (profile : option BreedProfile) (age : Q)
    (allWhite : bool) (parts : list string) (pks : string) (markings : Markings)
    (w w' : World) (r : list string * string * Markings) :
  leopard_stage g profile age allWhite parts pks markings w = Returned (r, w') ->
  bloody_shoulder (snd r) = bloody_shoulder markings
  /\ ((carries g "LP_LeopardComplex" "LP"
       /\ mottling (snd r) = true /\ striping (snd r) = true)
      \/ (mottling (snd r) = mottling markings /\ striping (snd r) = striping markings)).
Proof.
  unfold leopard_stage. intros H.
  exec_inv H as hasLP w1 L.
  exec_inv H as patn1 w2 _.
  destruct hasLP; cbn [andb] in H.
  - apply hasAllele_true in L. destruct (negb allWhite).
    + exec_inv H as name w3 _.
      destruct (nonempty name && _) in H; exec_done H;
        (split; [reflexivity | left; repeat split; assumption]).
    + exec_done H. split; [reflexivity | right; split; reflexivity].
  - exec_done H. split; [reflexivity | right; split; reflexivity].
Qed.

Lemma gray_stage_flags (g : Genotype) (profile : option BreedProfile) (age : Q)
    (baseColor : string) (allWhite : bool) (parts : list string) (pks : string)
    (markings : Markings) (w w' : World) (r : list string * string * Markings) :
  gray_stage g profile age baseColor allWhite parts pks markings w = Returned (r, w') ->
  mottling (snd r) = mottling markings /\ striping (snd r) = striping markings
  /\ (carries g "G_Gray" "G" \/ bloody_shoulder (snd r) = bloody_shoulder markings).
Proof.
  unfold gray_stage. intros H.
  exec_inv H as gray w1 G.
  destruct gray; cbn [andb] in H.
  - apply hasAllele_true in G. destruct (negb allWhite).
    + exec_inv H as r0 w2 _. exec_done H. cbn [snd].
      destruct (Qltb r0 _); repeat split; now left.
    + exec_done H. repeat split. now left.
  - exec_done H. repeat split. now right.
Qed.

(** X22.  Where the extra markings come from.  Mottling and striping
    are set only when [LP_LeopardComplex] holds a string that contains
    ['LP'], and always together; the bloody shoulder is set only when
    [G_Gray] holds a string that contains ['G']. *)
Theorem determinePhenotype_extra_markings :
  forall (g : Genotype) (profile : option BreedProfile) (age : Q) (w w' : World)
         (r : PhenotypeResult),
    determinePhenotype (Some g) profile age w = Returned (r, w') ->
    mottling (phenotypic_markings r) = striping (phenotypic_markings r)
    /\ (mottling (phenotypic_markings r) = true -> carries g "LP_LeopardComplex" "LP")
    /\ (bloody_shoulder (phenotypic_markings r) = true -> carries g "G_Gray" "G").
Proof.
  intros g profile age w w' r H.
  apply determinePhenotype_result in H. destruct H as [markings [w1 [H [-> _]]]].
  assert (M : mottling (fst (markings_stage profile markings w1)) = mottling markings
              /\ striping (fst (markings_stage profile markings w1)) = striping markings
              /\ bloody_shoulder (fst (markings_stage profile markings w1))
                 = bloody_shoulder markings).
  { unfold markings_stage. destruct profile as [p |]; [| now repeat split].
    destruct (marking_bias p); now repeat split. }
  destruct M as [-> [-> ->]].
  unfold display_color in H.
  exec_inv H as [[[[baseColor c] dun] cdc] pks] wd _.
  exec_inv H as shade ws _.
  exec_inv H as [parts pks1] wm _.
  exec_inv H as [color markings'] wp P.
  exec_done H.
  unfold patterns_and_assembly in P.
  exec_inv P as [[parts1 pks2] allWhite] w8 _.
  exec_inv P as parts2 w9 _.
  exec_inv P as [[parts3 pks3] markings3] w10 L.
  exec_inv P as [[parts4 pks4] markings4] w11 G.
  exec_done P.
  apply leopard_stage_flags in L. apply gray_stage_flags in G. cbn [snd] in L, G.
  destruct L as [LB LM]. destruct G as [GM [GS GB]].
  rewrite GM, GS. cbn [initial_markings mottling striping bloody_shoulder] in LB, LM.
  split; [| split].
  - destruct LM as [[_ [-> ->]] | [-> ->]]; reflexivity.
  - destruct LM as [[C _] | [-> _]]; [intros _; exact C | discriminate].
  - destruct GB as [C | E]; [intros _; exact C |]. rewrite E, LB. discriminate.
Qed.

Lemma determinePhenotype_extra_markings_witness :
  exists r w',
    determinePhenotype (Some leopard_genotype) None 0 (constant_world draw_of_half)
    = Returned (r, w')
    /\ mottling (phenotypic_markings r) = true
    /\ carries leopard_genotype "LP_LeopardComplex" "LP".
Proof.
  eexists. eexists. split; [vm_compute; reflexivity |].
  split; [reflexivity |].
  eapply (determinePhenotype_extra_markings leopard_genotype None 0
            (constant_world draw_of_half)); [vm_compute; reflexivity | reflexivity].
Defined.

(** ** [calculateFoalGenetics]: the number of random draws *)

Lemma selectWeightedRandom_draws (x : option (obj wval)) (w : World) :
  (random_next (snd (selectWeightedRandom x w)) <= random_next w + 1)%nat.
Proof.
  unfold selectWeightedRandom. destruct x as [o |]; [| cbn; lia].
  destruct (keys o); [cbn; lia |].
  destruct (Qeq_bool _ 0); [cbn; lia |].
  unfold bind. cbn [fst snd Math_random].
  destruct (walk_weights _ _ _); cbn; lia.
Qed.

Lemma getParentAllele_draws (v : option gval) (w : World) :
  (random_next (snd (getParentAllele v w)) <= random_next w + 1)%nat.
Proof.
  unfold getParentAllele. destruct v as [[s | b] |]; try (cbn; lia).
  destruct (nonempty s && JsString.includes s "/"); cbn; lia.
Qed.

Lemma sample_attempts_draws (n : nat) (p : BreedProfile) (gene : string)
    (sirePair damPair : option gval) (w : World) :
  (random_next (snd (sample_attempts n p gene sirePair damPair w))
   <= random_next w + 2 * n)%nat.
Proof.
  revert w. induction n as [| k IH]; intros w; [cbn; lia |].
  cbn [sample_attempts]. unfold bind.
  pose proof (getParentAllele_draws sirePair w) as D1.
  pose proof (getParentAllele_draws damPair (snd (getParentAllele sirePair w))) as D2.
  set (w2 := snd (getParentAllele damPair (snd (getParentAllele sirePair w)))) in *.
  pose proof (IH w2) as D3.
  destruct (fst (getParentAllele sirePair w)); [| cbn [snd ret]; lia].
  destruct (fst (getParentAllele damPair _)); [| cbn [snd ret]; lia].
  destruct (combineAlleles _ _) as [r |]; [| cbn [snd ret]; lia].
  destruct (negb (nonempty r)); [cbn [snd ret]; lia |].
  destruct (match allowed_alleles p with Some _ => _ | None => false end); [lia |].
  destruct (JsString.mem r _); [lia | cbn [snd ret]; lia].
Qed.

Lemma inherit_gene_draws (sire dam : Genotype) (p : BreedProfile)
    (foal : Genotype) (gene : string) (w : World) :
  (random_next (snd (inherit_gene sire dam p foal gene w))
   <= random_next w + (2 * MAX_ATTEMPTS + 1))%nat.
Proof.
  unfold inherit_gene, bind.
  set (sampled := (if truthy (lookup sire gene) && truthy (lookup dam gene)
                   then sample_attempts MAX_ATTEMPTS p gene (lookup sire gene) (lookup dam gene)
                   else ret None) w).
  assert (S : (random_next (snd sampled) <= random_next w + 2 * MAX_ATTEMPTS)%nat).
  { subst sampled. destruct (truthy (lookup sire gene) && truthy (lookup dam gene));
      [apply sample_attempts_draws | cbn; lia]. }
  destruct (fst sampled); [cbn [snd ret]; lia |].
  assert (F : (random_next (snd (weights_fallback p gene (snd sampled)))
               <= random_next (snd sampled) + 1)%nat).
  { unfold weights_fallback, bind.
    destruct (allele_weights p) as [aw |]; [| cbn; lia].
    destruct (lookup aw gene) as [table |]; [| cbn; lia].
    pose proof (selectWeightedRandom_draws (Some table) (snd sampled)) as D.
    destruct (fst (selectWeightedRandom (Some table) (snd sampled))) as [fp |];
      [| cbn [snd ret]; lia].
    destruct (nonempty fp && _); cbn [snd ret]; lia. }
  destruct (fst (weights_fallback p gene (snd sampled))); [cbn [snd ret]; lia |].
  destruct (recessive_fallback _) as [fp |];
    [destruct (nonempty fp && _) |]; cbn [fst snd ret emit random_next]; lia.
Qed.

Lemma inherit_modifier_draws (sire dam : Genotype) (bmp : obj wval)
    (foal : Genotype) (modifier : string) (w : World) :
  (random_next (snd (inherit_modifier sire dam bmp foal modifier w))
   <= random_next w + 2)%nat.
Proof.
  unfold inherit_modifier.
  destruct (negb (JsString.mem modifier booleanModifiers)); [cbn; lia |].
  unfold parent_or_prevalence, bind.
  destruct (lookup sire modifier) as [[s | [|]] |];
    destruct (lookup dam modifier) as [[s' | [|]] |];
    cbn [fst snd ret Math_random random_next]; try lia;
    try (destruct (Qltb _ (1 # 2)); cbn [fst snd ret Math_random random_next]; lia).
  destruct (lookup bmp modifier) as [[q |] |]; cbn [fst snd ret Math_random random_next]; lia.
Qed.

Lemma for_each_draws {A X} (body : A -> X -> Eff A) (c : nat) (xs : list X) :
  (forall acc x w, (random_next (snd (body acc x w)) <= random_next w + c)%nat) ->
  forall acc w,
    (random_next (snd (for_each xs body acc w)) <= random_next w + c * length xs)%nat.
Proof.
  intros Hbody. induction xs as [| x rest IH]; intros acc w.
  - cbn. lia.
  - cbn [for_each length]. unfold bind.
    pose proof (Hbody acc x w) as H1.
    pose proof (IH (fst (body acc x w)) (snd (body acc x w))) as H2. lia.
Qed.

(** X23.  The number of random draws is bounded.  The retry loop makes
    at most [MAX_ATTEMPTS] = 10 attempts of two draws for a locus, and the
    fallback one more; a boolean modifier takes at most two.  So
    [calculateFoalGenetics] calls [Math.random] at most
    21 times per locus of [genesToInherit] plus twice per listed
    modifier. *)
Theorem calculateFoalGenetics_draws :
  forall (sire dam : Genotype) (p : BreedProfile) (w : World),
    (random_next (snd (calculateFoalGenetics (Some sire) (Some dam) (Some p) w))
     <= random_next w + 21 * length (genesToInherit sire dam p)
        + 2 * length (definedModifiers p))%nat.
Proof.
  intros sire dam p w. unfold calculateFoalGenetics, definedModifiers, bind.
  pose proof (for_each_draws (inherit_gene sire dam p) 21 (genesToInherit sire dam p)
                (inherit_gene_draws sire dam p) [] w) as G.
  destruct (boolean_modifiers_prevalence p) as [bmp |]; [| cbn [snd ret length]; lia].
  pose proof (for_each_draws (inherit_modifier sire dam bmp) 2 (keys bmp)
                (inherit_modifier_draws sire dam bmp)
                (fst (for_each (genesToInherit sire dam p) (inherit_gene sire dam p) [] w))
                (snd (for_each (genesToInherit sire dam p) (inherit_gene sire dam p) [] w)))
    as M.
  lia.
Qed.

(** ** [determinePhenotype]: the base coat on its own *)

Lemma isHomozygous_world (g : Genotype) (gene allele : string) (w w' : World) (b : bool) :
  isHomozygous g gene allele w = Returned (b, w') -> w' = w.
Proof.
  unfold isHomozygous. intros H.
  exec_inv H as alleles w0 E.
  apply settle_inv in E. cbn [snd] in E. subst w0.
  apply ret_x_inv in H. now injection H as _ ->.
Qed.

Lemma hasAllele_world (g : Genotype) (gene allele : string) (w w' : World) (b : bool) :
  hasAllele g gene allele w = Returned (b, w') -> w' = w.
Proof. intros H. apply settle_inv in H. exact H. Qed.

Lemma base_coat_cases (g : Genotype) (w w' : World) (r : string * bool) :
  base_coat g w = Returned (r, w') ->
  w' = w /\ In r [("Chestnut", true); ("Bay", false); ("Black", false)].
Proof.
  unfold base_coat. intros H.
  exec_inv H as chestnut w1 E1.
  apply isHomozygous_world in E1. subst w1. destruct chestnut.
  - apply ret_x_inv in H. injection H as -> ->. cbn. tauto.
  - exec_inv H as agouti w2 E2.
    apply hasAllele_world in E2. subst w2.
    apply ret_x_inv in H. injection H as -> ->. destruct agouti; cbn; tauto.
Qed.

(** X25.  The base coat on its own.  For a genotype that has no other
    property than [E_Extension] and [A_Agouti], and without a profile,
    the display colour is the base coat of step 1 (Chestnut, Bay or
    Black), the shade is ['standard'], nothing is marked, and no random
    number is drawn. *)
Theorem determinePhenotype_base_coat_only :
  forall (g : Genotype) (age : Q) (w w1 : World) (baseColor : string)
         (isChestnutBase : bool),
    only_base_loci g ->
    base_coat g w = Returned ((baseColor, isChestnutBase), w1) ->
    determinePhenotype (Some g) None age w = Returned (plain_result baseColor, w).
Proof.
  intros g age w w1 baseColor isChestnutBase Hg B.
  destruct (base_coat_cases g w w1 _ B) as [-> Hr].
  unfold determinePhenotype, display_color, dilutions, bind_x.
  rewrite B. cbn [fst snd].
  unfold mushroom_stage, cream_stage, dun_stage, champagne_stage, silver_stage,
    pearl_stage, applyPearlDilution, modifiers_stage, apply_sooty, flaxen_pangare,
    roan_stage, patterns_and_assembly, white_stage, patterns_stage, leopard_stage,
    gray_stage, rabicano_stage, getDominantWhiteAlleles, getSplashWhiteAlleles,
    getEdenWhiteAlleles.
  unfold pattern_alleles, isHeterozygous, isHomozygous.
  unfold getAlleles, hasAllele, field_is, flag_true.
  repeat match goal with
    | |- context [lookup g ?k] => rewrite (Hg k) by discriminate
    end.
  cbn [In] in Hr.
  destruct Hr as [[= <- <-] | [[= <- <-] | [[= <- <-] | []]]]; vm_compute; reflexivity.
Qed.

Lemma determinePhenotype_base_coat_only_witness :
  determinePhenotype (Some [("E_Extension", GStr "E/e"); ("A_Agouti", GStr "A/a")]) None 7
    (constant_world draw_of_half)
  = Returned (plain_result "Bay", constant_world draw_of_half).
Proof.
  apply (determinePhenotype_base_coat_only _ 7 _ (constant_world draw_of_half) "Bay" false);
    [| reflexivity].
  intros key N1 N2. cbn [lookup].
  rewrite (proj2 (String.eqb_neq "E_Extension" key)) by congruence.
  rewrite (proj2 (String.eqb_neq "A_Agouti" key)) by congruence.
  reflexivity.
Defined.

(** ** [determinePhenotype]: a single copy of pearl *)

Lemma mushroom_stage_no_pearl (g g' : Genotype) (c : bool) (pks : string) :
  agree_outside masked_pearl g g' ->
  field_is g "PRL_Pearl" "prl/prl" = false ->
  field_is g' "PRL_Pearl" "prl/prl" = false ->
  mushroom_stage g c pks = mushroom_stage g' c pks.
Proof.
  intros A P P'. unfold mushroom_stage. rewrite P, P'.
  assert (N : forall k, In k ["MFSD12_Mushroom"; "Cr_Cream"] -> ~ In k masked_pearl)
    by not_masked.
  unfold hasAllele, field_is. agree_rewrite g A N. reflexivity.
Qed.

Lemma pearl_stage_no_pearl (g g' : Genotype) (base : string) (handled : bool)
    (cdc pks : string) :
  agree_outside masked_pearl g g' ->
  field_is g "PRL_Pearl" "prl/prl" = false ->
  field_is g' "PRL_Pearl" "prl/prl" = false ->
  has_single_cream g = false ->
  pearl_stage g base handled cdc pks = pearl_stage g' base handled cdc pks.
Proof.
  intros A P P' C.
  assert (C' : has_single_cream g' = false).
  { unfold has_single_cream in *.
    rewrite <- !(field_is_agree g g' masked_pearl A "Cr_Cream");
      [exact C | | ]; cbv [masked_pearl]; cbn [In]; intuition discriminate. }
  unfold has_single_cream in C, C'.
  unfold pearl_stage, applyPearlDilution. cbv zeta.
  rewrite P, P', C, C'. now rewrite !andb_false_r.
Qed.

(** X24.  Pearl is recessive.  A genotype that is not ['prl/prl'] at
    [PRL_Pearl] and has no single cream (['Cr/n'] or ['n/Cr']) shows no
    pearl: whatever else is stored at [PRL_Pearl], the result and the
    random draws are the same. *)
Theorem determinePhenotype_single_pearl_hidden :
  forall (g g' : Genotype) (profile : option BreedProfile) (age : Q) (w : World),
    agree_outside masked_pearl g g' ->
    field_is g "PRL_Pearl" "prl/prl" = false ->
    field_is g' "PRL_Pearl" "prl/prl" = false ->
    has_single_cream g = false ->
    determinePhenotype (Some g) profile age w = determinePhenotype (Some g') profile age w.
Proof.
  intros g g' profile age w A P P' C.
  apply (determinePhenotype_after_dilutions g g' masked_pearl A); [not_masked |].
  unfold dilutions.
  apply bind_x_ext;
    [rewrite (base_coat_agree g g' masked_pearl A); [reflexivity | not_masked] |].
  intros [base c] w0.
  apply bind_x_ext; [now rewrite (mushroom_stage_no_pearl g g') |].
  intros [[cdc1 pks1] handled] w1.
  apply bind_x_ext;
    [rewrite (cream_stage_agree g g' masked_pearl A); [reflexivity | not_masked] |].
  intros [cdc2 pks2] w2.
  apply bind_x_ext;
    [rewrite (dun_stage_agree g g' masked_pearl A); [reflexivity | not_masked] |].
  intros [[cdc3 pks3] dun] w3.
  apply bind_x_ext;
    [rewrite (champagne_stage_agree g g' masked_pearl A); [reflexivity | not_masked] |].
  intros [cdc4 pks4] w4.
  apply bind_x_ext;
    [rewrite (silver_stage_agree g g' masked_pearl A); [reflexivity | not_masked] |].
  intros [cdc5 pks5] w5.
  now rewrite (pearl_stage_no_pearl g g').
Qed.

Lemma determinePhenotype_single_pearl_hidden_witness :
  determinePhenotype (Some bay_pearl_carrier) None 0 (constant_world draw_of_half)
  = determinePhenotype (Some [("E_Extension", GStr "E/e"); ("A_Agouti", GStr "A/a")])
      None 0 (constant_world draw_of_half).
Proof.
  apply determinePhenotype_single_pearl_hidden; try reflexivity.
  intros key N. cbv [masked_pearl] in N. cbn [In] in N.
  unfold bay_pearl_carrier. cbn [lookup].
  destruct (String.eqb "E_Extension" key); [reflexivity |].
  destruct (String.eqb "A_Agouti" key); [reflexivity |].
  destruct (String.eqb_spec "PRL_Pearl" key) as [<- | _]; [tauto | reflexivity].
Defined.

(** ** [generateStoreHorseGenetics]: no locus is dropped silently *)

(** One round of the loop over [allele_weights]: the console only grows,
    and the round assigns a pair to the locus or reports it. *)
Lemma generate_gene_outcome (p : BreedProfile) (aw : obj (obj wval))
    (acc : Genotype) (gene : string) (w : World) :
  exists extra,
    console (snd (generate_gene p aw acc gene w)) = console w ++ extra
    /\ ((exists chosen, fst (generate_gene p aw acc gene w) = set acc gene (GStr chosen))
        \/ (fst (generate_gene p aw acc gene w) = acc
            /\ (In (Warn_NoAllele gene) extra
                \/ exists allelePair, In (Warn_DisallowedPair allelePair gene) extra))).
Proof.
  unfold generate_gene, bind.
  destruct (selectWeightedRandom_console (lookup aw gene) w) as [extra [E _]].
  set (sel := selectWeightedRandom (lookup aw gene) w) in *.
  assert (W : forall d,
             exists extra',
               console (snd ((emit d ;; ret acc) (snd sel))) = console w ++ extra'
               /\ In d extra').
  { intros d. exists (extra ++ [d]). unfold bind. cbn [fst snd ret emit console].
    rewrite E, <- app_assoc. split; [reflexivity |]. apply in_or_app. right. now left. }
  destruct (W (Warn_NoAllele gene)) as [x1 [E1 I1]].
  destruct (fst sel) as [chosen |];
    [| exists x1; split; [exact E1 | right; split; [reflexivity | now left]]].
  destruct (nonempty chosen);
    [| exists x1; split; [exact E1 | right; split; [reflexivity | now left]]].
  destruct (disallowed_includes p gene chosen).
  - destruct (W (Warn_DisallowedPair chosen gene)) as [x2 [E2 I2]].
    exists x2. split; [exact E2 |]. right. split; [reflexivity |]. right. now exists chosen.
  - exists extra. split; [exact E |]. left. now exists chosen.
Qed.

Lemma generate_modifier_sets (bmp : obj wval) (acc : Genotype) (modifier : string)
    (w : World) :
  exists b, fst (generate_modifier bmp acc modifier w) = set acc modifier (GBool b).
Proof.
  unfold generate_modifier, bind.
  destruct (lookup bmp modifier) as [[q |] |]; cbn [fst snd ret emit]; eauto.
  destruct (Qle_bool 0 q && Qle_bool q 1); cbn [fst snd ret emit Math_random]; eauto.
Qed.

(** X26.  No locus of a generated horse is dropped silently.  When the
    loci of [allele_weights] have ordinary names (none that
    [Object.prototype] defines), every one of them is in the genotype
    that [generateStoreHorseGenetics] returns, or the console has a
    warning that names it: no allele could be determined, or the chosen
    pair is disallowed. *)
Theorem generateStoreHorseGenetics_assigned_or_reported :
  forall (p : BreedProfile) (aw : obj (obj wval)) (w : World) (gene : string),
    ordinary_keys (keys aw) ->
    allele_weights p = Some aw ->
    In gene (keys aw) ->
    generated_or_reported gene w
      (fst (generateStoreHorseGenetics (Some p) w))
      (snd (generateStoreHorseGenetics (Some p) w)).
Proof.
  intros p aw w gene _ Haw Hin.
  unfold generateStoreHorseGenetics, bind, generate_genes. rewrite Haw.
  set (grown := fun (_ : Genotype) (w' : World) =>
                  exists extra, console w' = console w ++ extra).
  assert (G : generated_or_reported gene w
                (fst (for_each (keys aw) (generate_gene p aw) [] w))
                (snd (for_each (keys aw) (generate_gene p aw) [] w))).
  { apply (for_each_world_establishes grown (generated_or_reported gene w)
             (generate_gene p aw) gene);
      [| | | exact Hin | exists []; now rewrite app_nil_r].
    - intros acc y w' [extra E].
      destruct (generate_gene_outcome p aw acc y w') as [extra' [E' _]].
      exists (extra ++ extra'). now rewrite E', E, app_assoc.
    - intros acc w' [extra E].
      destruct (generate_gene_outcome p aw acc gene w')
        as [extra' [E' [[chosen ->] | [_ I]]]].
      + left. rewrite lookup_set, String.eqb_refl. eauto.
      + right. exists (extra ++ extra'). rewrite E', E, app_assoc. split; [reflexivity |].
        destruct I as [I | [allelePair I]]; [left | right; exists allelePair];
          apply in_or_app; now right.
    - intros acc y w' _ [D | [extra [E I]]].
      + left. destruct (generate_gene_outcome p aw acc y w') as [_ [_ [[chosen ->] | [-> _]]]];
          [now apply set_keeps_defined | exact D].
      + right. destruct (generate_gene_outcome p aw acc y w') as [extra' [E' _]].
        exists (extra ++ extra'). rewrite E', E, app_assoc. split; [reflexivity |].
        destruct I as [I | [allelePair I]]; [left | right; exists allelePair];
          apply in_or_app; now left. }
  unfold generate_modifiers.
  destruct (boolean_modifiers_prevalence p) as [bmp |].
  - apply (for_each_world_invariant (generated_or_reported gene w)); [| exact G].
    intros acc modifier w' [D | [extra [E I]]].
    + left. destruct (generate_modifier_sets bmp acc modifier w') as [b ->].
      now apply set_keeps_defined.
    + right. destruct (generate_modifier_round bmp acc modifier w') as [extra' [E' _]].
      exists (extra ++ extra'). rewrite E', E, app_assoc. split; [reflexivity |].
      destruct I as [I | [allelePair I]]; [left | right; exists allelePair];
        apply in_or_app; now left.
  - destruct G as [D | [extra [E I]]]; [now left |].
    right. exists (extra ++ [Warn_NoModifierPrevalence]).
    unfold bind. cbn [fst snd ret emit console]. rewrite E, <- app_assoc.
    split; [reflexivity |].
    destruct I as [I | [allelePair I]]; [left | right; exists allelePair];
      apply in_or_app; now left.
Qed.

Lemma generateStoreHorseGenetics_assigned_or_reported_witness :
  generated_or_reported "E_Extension" (constant_world draw_of_half)
    (fst (generateStoreHorseGenetics (Some no_EE_profile) (constant_world draw_of_half)))
    (snd (generateStoreHorseGenetics (Some no_EE_profile) (constant_world draw_of_half))).
Proof.
  apply (generateStoreHorseGenetics_assigned_or_reported no_EE_profile
           [("E_Extension", [("e/e", WNum 1); ("E/E", WNum 1)])]).
  - apply ordinary_keys_check. reflexivity.
  - reflexivity.
  - cbn. tauto.
Defined.
